(** * Chunk-boundary engine of chonkie-ts: SentenceChunker and RecursiveChunker

    A shallow embedding of [sentence.ts] (class SentenceChunker) and of
    [packages/core/src/recursive.ts] (class RecursiveChunker), followed by
    the properties of the specification that concern them.

    Conventions of the embedding.
    - A JavaScript string is the list of its UTF-16 code units.
    - JavaScript numbers are modelled by [Z]: every number the two classes
      compute is an integer as soon as the configuration values are.
    - [async]/[await] is sequential here; a Promise is its value.
    - A [while]/[for] loop whose bound is not the length of a list it walks
      is a function with fuel; running out of fuel is the outcome
      [OutOfFuel], which the termination theorems show is never reached.
    - [throw new Error(m)] is the outcome [Throw m]; [console.warn] appends
      to an explicit list of warnings.
    - The tokenizer and the split and merge primitives of [@chonkiejs/chunk]
      are parameters.  A number they should have supplied and did not (a
      read past the end of an array they returned) is [undefined] in
      JavaScript and 0 here. *)

From Stdlib Require Import String Ascii.
From Stdlib Require Import ZArith QArith Qround List Lia Bool Sorted.
Import ListNotations.
Open Scope Z_scope.

(* ================================================================== *)
(** * Outcomes *)

Inductive result (A : Type) : Type :=
| Ok (a : A)
| Throw (msg : string)
| OutOfFuel.
Arguments Ok {A} a.
Arguments Throw {A} msg.
Arguments OutOfFuel {A}.

Definition bind {A B : Type} (r : result A) (k : A -> result B) : result B :=
  match r with
  | Ok a => k a
  | Throw m => Throw m
  | OutOfFuel => OutOfFuel
  end.

Notation "x <- e ;; k" := (bind e (fun x => k))
  (at level 61, e at next level, right associativity).
Notation "' p <- e ;; k" := (bind e (fun p => k))
  (at level 61, p pattern, e at next level, right associativity).

(* ================================================================== *)
(** * JavaScript strings and arrays *)

Definition code_unit := N.
Definition jsstring := list code_unit.

(** A string literal of the source, for texts within ASCII. *)
Definition js (s : string) : jsstring := map N_of_ascii (list_ascii_of_string s).

(** [s.length] and [a.length]. *)
Definition len {A : Type} (l : list A) : Z := Z.of_nat (length l).

(** [!s] for a string, [!a.length] for a length. *)
Definition is_empty {A : Type} (l : list A) : bool :=
  match l with [] => true | _ :: _ => false end.

Definition jsstring_eqb (a b : jsstring) : bool :=
  if list_eq_dec N.eq_dec a b then true else false.

(** [a[i]]: [None] is JavaScript's [undefined]. *)
Definition at_index {A : Type} (l : list A) (i : Z) : option A :=
  if i <? 0 then None else nth_error l (Z.to_nat i).

(** A read [a[i]] of a number at an index the surrounding code keeps in
    range; the lemmas below prove the range wherever a theorem needs the
    value read. *)
Definition num_at (l : list Z) (i : Z) : Z :=
  match at_index l i with Some x => x | None => 0 end.

(** Relative index of [slice]: negative counts from the end, then clamped. *)
Definition rel_index (n i : Z) : Z :=
  if i <? 0 then Z.max (n + i) 0 else Z.min i n.

(** [a.slice(s, e)], for arrays and for strings. *)
Definition slice {A : Type} (l : list A) (s e : Z) : list A :=
  let k := rel_index (len l) s in
  let f := rel_index (len l) e in
  firstn (Z.to_nat (f - k)) (skipn (Z.to_nat k) l).

(** [x >>> n]: [ToUint32] then a logical shift. *)
Definition ushr (x n : Z) : Z := Z.shiftr (x mod 2 ^ 32) n.

Fixpoint starts_with (p t : jsstring) : bool :=
  match p, t with
  | [], _ => true
  | _ :: _, [] => false
  | a :: p', b :: t' => N.eqb a b && starts_with p' t'
  end.

Definition push_front (c : code_unit) (ps : list jsstring) : list jsstring :=
  match ps with
  | [] => [[c]]
  | p :: ps' => (c :: p) :: ps'
  end.

(** [t.split(sep)] for a non-empty separator: left to right, occurrences
    do not overlap.  [skip] counts the code units of a matched separator
    still to be passed over. *)
Fixpoint split_scan (sep t : jsstring) (skip : nat) : list jsstring :=
  match t with
  | [] => [[]]
  | c :: t' =>
      match skip with
      | S k => split_scan sep t' k
      | O =>
          if starts_with sep t
          then [] :: split_scan sep t' (length sep - 1)
          else push_front c (split_scan sep t' 0)
      end
  end.

(** [t.split(sep)]; with the empty separator the string falls into its
    code units, and the empty string into no piece at all. *)
Definition String_split (t sep : jsstring) : list jsstring :=
  match sep with
  | [] => map (fun c => [c]) t
  | _ :: _ => split_scan sep t 0
  end.

(** [a.join(sep)]. *)
Fixpoint Array_join (a : list jsstring) (sep : jsstring) : jsstring :=
  match a with
  | [] => []
  | x :: rest =>
      match rest with
      | [] => x
      | _ :: _ => x ++ sep ++ Array_join rest sep
      end
  end.

(** White space and line terminators of ECMAScript, as [trim] strips them. *)
Definition is_js_space (c : code_unit) : bool :=
  ((9 <=? c) && (c <=? 13) || (c =? 32) || (c =? 160) || (c =? 5760)
   || (8192 <=? c) && (c <=? 8202) || (c =? 8232) || (c =? 8233)
   || (c =? 8239) || (c =? 8287) || (c =? 12288) || (c =? 65279))%N.

Fixpoint trim_start (t : jsstring) : jsstring :=
  match t with
  | c :: t' => if is_js_space c then trim_start t' else t
  | [] => []
  end.

(** [t.trim()]. *)
Definition String_trim (t : jsstring) : jsstring :=
  rev (trim_start (rev (trim_start t))).

(* ================================================================== *)
(** * The tokenizer adapter

    The class [Tokenizer] is a collaborator of both chunkers; they use the
    four methods below and nothing else of it. *)

Record Tokenizer : Type := mkTokenizer {
  countTokens : jsstring -> Z;
  countTokensBatch : list jsstring -> list Z;
  encode : jsstring -> list Z;
  decodeBatch : list (list Z) -> list jsstring
}.



(** The character tokenizer: one token per code unit. *)
Definition characterTokenizer : Tokenizer := {|
  countTokens := fun t => len t;
  countTokensBatch := fun ts => map (fun t => len t) ts;
  encode := fun t => map Z.of_N t;
  decodeBatch := fun tss => map (fun ts => map Z.to_N ts) tss
|}.

(** A tokenizer with a vocabulary of multi-character words (token [k] for
    the word of index [k]) next to the single code units (token
    [len words + c]); encoding is greedy, the first word that matches wins. *)
Fixpoint find_word (words : list jsstring) (t : jsstring) (k : Z) : option (Z * nat) :=
  match words with
  | [] => None
  | word :: rest =>
      if negb (is_empty word) && starts_with word t then Some (k, length word)
      else find_word rest t (k + 1)
  end.

Fixpoint vocab_encode (words : list jsstring) (t : jsstring) (skip : nat) : list Z :=
  match t with
  | [] => []
  | c :: t' =>
      match skip with
      | S k => vocab_encode words t' k
      | O =>
          match find_word words t 0 with
          | Some (id, n) => id :: vocab_encode words t' (n - 1)
          | None => (len words + Z.of_N c) :: vocab_encode words t' 0
          end
      end
  end.

Definition vocab_decode (words : list jsstring) (tokens : list Z) : jsstring :=
  flat_map (fun k => if k <? len words then nth (Z.to_nat k) words []
                     else [Z.to_N (k - len words)]) tokens.

Definition vocabTokenizer (words : list jsstring) : Tokenizer := {|
  countTokens := fun t => len (vocab_encode words t 0);
  countTokensBatch := fun ts => map (fun t => len (vocab_encode words t 0)) ts;
  encode := fun t => vocab_encode words t 0;
  decodeBatch := fun tss => map (vocab_decode words) tss
|}.

(** A tokenizer that frames every encoding with a special token (0) which
    decodes to nothing, as tokenizers with a begin-of-sequence marker do. *)
Definition framedTokenizer : Tokenizer := {|
  countTokens := fun t => 1 + len t;
  countTokensBatch := fun ts => map (fun t => 1 + len t) ts;
  encode := fun t => 0 :: map (fun c => 1 + Z.of_N c) t;
  decodeBatch := fun tss =>
    map (fun ts => flat_map (fun k => if k =? 0 then [] else [Z.to_N (k - 1)]) ts) tss
|}.

(* ================================================================== *)
(** * Chunk records

    Modelled from the spec: the data classes [Chunk], [Sentence] and
    [SentenceChunk] of the [types] directory are not among the sources.
    Their fields are those of the data model of the specification, which
    are the ones the two chunkers pass to the constructors. *)

Record Sentence : Type := mkSentence {
  s_text : jsstring;
  s_startIndex : Z;
  s_endIndex : Z;
  s_tokenCount : Z
}.

Record SentenceChunk : Type := mkSentenceChunk {
  sc_text : jsstring;
  sc_startIndex : Z;
  sc_endIndex : Z;
  sc_tokenCount : Z;
  sc_sentences : list Sentence
}.

Record Chunk : Type := mkChunk {
  text : jsstring;
  startIndex : Z;
  endIndex : Z;
  tokenCount : Z
}.

(** What [console.warn] is called with. *)
Inductive warning : Type :=
| ApproximateDeprecated
| MinSentencesNotMet (minSentences remaining : Z).

(* ================================================================== *)
(** * class SentenceChunker *)

Module SentenceChunker.

Record t : Type := mk {
  tokenizer : Tokenizer;
  chunkSize : Z;
  chunkOverlap : Z;
  minSentencesPerChunk : Z;
  minCharactersPerSentence : Z;
  approximate : bool;
  delim : list jsstring;
  includeDelim : option jsstring;
  sep : jsstring
}.

(** The scissors sign U+2704, one code unit. *)
Definition SEP : jsstring := [9988%N].

Definition is_prev (i : option jsstring) : bool :=
  match i with Some s => jsstring_eqb s (js "prev") | None => false end.
Definition is_next (i : option jsstring) : bool :=
  match i with Some s => jsstring_eqb s (js "next") | None => false end.
Definition is_null (i : option jsstring) : bool :=
  match i with Some _ => false | None => true end.

(** The constructor.  [delim] is [None] for a falsy argument ([null],
    [undefined]); [includeDelim] is [None] for [null] and [Some s] for
    the string [s], whatever it is. *)
Definition new (tokenizer : Tokenizer) (chunkSize chunkOverlap : Z)
    (minSentencesPerChunk minCharactersPerSentence : Z) (approximate : bool)
    (delim : option (list jsstring)) (includeDelim : option jsstring)
  : result (t * list warning) :=
  if chunkSize <=? 0 then Throw "chunkSize must be greater than 0"
  else if chunkOverlap <? 0 then Throw "chunkOverlap must be non-negative"
  else if chunkOverlap >=? chunkSize then Throw "chunkOverlap must be less than chunkSize"
  else if minSentencesPerChunk <=? 0 then Throw "minSentencesPerChunk must be greater than 0"
  else if minCharactersPerSentence <=? 0 then Throw "minCharactersPerSentence must be greater than 0"
  else match delim with
  | None => Throw "delim must be a list of strings or a string"
  | Some delim =>
      if negb (is_prev includeDelim) && negb (is_next includeDelim)
         && negb (is_null includeDelim)
      then Throw "includeDelim must be 'prev', 'next' or null"
      else
        Ok (mk tokenizer chunkSize chunkOverlap minSentencesPerChunk
               minCharactersPerSentence approximate delim includeDelim SEP,
            if approximate then [ApproximateDeprecated] else [])
  end.

(** One round of the [for (const c of this.delim)] loop of [_splitText]. *)
Definition mark_delim (self : t) (t0 c : jsstring) : jsstring :=
  if is_prev (includeDelim self) then
    Array_join (String_split t0 c) (c ++ sep self)
  else if is_next (includeDelim self) then
    Array_join (String_split t0 c) (sep self ++ c)
  else
    Array_join (String_split t0 c) (sep self).

(** The [for (const s of splits)] loop of [_splitText], with its two
    variables [sentences] and [current]. *)
Fixpoint gather (self : t) (splits sentences : list jsstring) (current : jsstring)
  : list jsstring * jsstring :=
  match splits with
  | [] => (sentences, current)
  | s :: rest =>
      if is_empty current then gather self rest sentences s
      else if len current >=? minCharactersPerSentence self
      then gather self rest (sentences ++ [current]) s
      else gather self rest sentences (current ++ s)
  end.

Definition _splitText (self : t) (text : jsstring) : list jsstring :=
  let t1 := fold_left (mark_delim self) (delim self) text in
  let splits := String_split t1 (sep self) in
  let '(sentences, current) := gather self splits [] [] in
  if negb (is_empty current) then sentences ++ [current] else sentences.

(** The position loop of [_prepareSentences]. *)
Fixpoint positions_from (currentPos : Z) (sentenceTexts : list jsstring) : list Z :=
  match sentenceTexts with
  | [] => []
  | sent :: rest => currentPos :: positions_from (currentPos + len sent) rest
  end.

(** [a.map((x, i) => f(x, i))], from index [i]. *)
Fixpoint mapi_from {A B : Type} (f : A -> Z -> B) (i : Z) (a : list A) : list B :=
  match a with
  | [] => []
  | x :: rest => f x i :: mapi_from f (i + 1) rest
  end.

(** [_prepareSentences(text)].  The count of the sentence [i] is read at
    the index [i] of the batch; where the batch is shorter than the
    sentences the code stores [undefined] and the model 0, a case the
    theorems on token counts exclude ([counts_exact], [batch_agrees]). *)
Definition _prepareSentences (self : t) (text : jsstring) : list Sentence :=
  let sentenceTexts := _splitText self text in
  if is_empty sentenceTexts then []
  else
    let positions := positions_from 0 sentenceTexts in
    let tokenCounts := countTokensBatch (tokenizer self) sentenceTexts in
    mapi_from (fun sent i =>
                 mkSentence sent (num_at positions i) (num_at positions i + len sent)
                            (num_at tokenCounts i))
              0 sentenceTexts.

(** [sentences[0]] of an empty array is [undefined], and reading its
    [startIndex] a TypeError. *)
Definition _createChunk (self : t) (sentences : list Sentence) : result SentenceChunk :=
  let chunkText := Array_join (map s_text sentences) [] in
  let tokenCount := countTokens (tokenizer self) chunkText in
  match at_index sentences 0, at_index sentences (len sentences - 1) with
  | Some first, Some last =>
      Ok (mkSentenceChunk chunkText (s_startIndex first) (s_endIndex last)
                          tokenCount sentences)
  | _, _ => Throw "TypeError"
  end.

(** The [while (lo < hi)] loop of [_bisectLeft].  [arr[mid] < value] is
    false when [arr[mid]] is [undefined]. *)
Fixpoint bisect_loop (fuel : nat) (arr : list Z) (value lo hi : Z) : result Z :=
  if lo <? hi then
    match fuel with
    | O => OutOfFuel
    | S fuel' =>
        let mid := ushr (lo + hi) 1 in
        if match at_index arr mid with Some x => x <? value | None => false end
        then bisect_loop fuel' arr value (mid + 1) hi
        else bisect_loop fuel' arr value lo mid
    end
  else Ok lo.

Definition _bisectLeft (arr : list Z) (value lo : Z) : result Z :=
  bisect_loop (length arr) arr value lo (len arr).

(** The prefix sums [tokenSums], the final [push(sum)] included.  The
    sums are integer sums; the code adds in double precision, which gives
    the same numbers for the counts of [counts_exact], the ones the
    theorems on token sums are stated for. *)
Fixpoint tokenSums_from (sum : Z) (sentences : list Sentence) : list Z :=
  match sentences with
  | [] => [sum]
  | sentence :: rest => sum :: tokenSums_from (sum + s_tokenCount sentence) rest
  end.

(** The first half of the body of [while (pos < sentences.length)]: the
    split index of the chunk that starts at [pos], and the warning if the
    minimum of sentences cannot be met. *)
Definition select_split (self : t) (sentences : list Sentence) (tokenSums : list Z)
    (pos : Z) : result (Z * list warning) :=
  let targetTokens := num_at tokenSums pos + chunkSize self in
  b <- _bisectLeft tokenSums targetTokens pos ;;
  let splitIdx := b - 1 in
  let splitIdx := Z.min splitIdx (len sentences) in
  let splitIdx := Z.max splitIdx (pos + 1) in
  if splitIdx - pos <? minSentencesPerChunk self then
    if pos + minSentencesPerChunk self <=? len sentences
    then Ok (pos + minSentencesPerChunk self, [])
    else Ok (len sentences,
             [MinSentencesNotMet (minSentencesPerChunk self) (len sentences - pos)])
  else Ok (splitIdx, []).

(** The inner [while (overlapIdx > pos && overlapTokens < chunkOverlap)].
    [overlapTokens] is an integer sum, exact in the double precision of
    the code for the counts of [counts_exact]. *)
Fixpoint overlap_loop (fuel : nat) (self : t) (sentences : list Sentence)
    (pos overlapTokens overlapIdx : Z) : result Z :=
  if (overlapIdx >? pos) && (overlapTokens <? chunkOverlap self) then
    match fuel with
    | O => OutOfFuel
    | S fuel' =>
        match at_index sentences overlapIdx with
        | None => Throw "TypeError"
        | Some sent =>
            let nextTokens := overlapTokens + s_tokenCount sent + 1 in
            if nextTokens >? chunkOverlap self then Ok overlapIdx
            else overlap_loop fuel' self sentences pos nextTokens (overlapIdx - 1)
        end
    end
  else Ok overlapIdx.

(** The second half of the loop body: the next value of [pos]. *)
Definition next_pos (self : t) (sentences : list Sentence) (pos splitIdx : Z)
  : result Z :=
  if (chunkOverlap self >? 0) && (splitIdx <? len sentences) then
    overlapIdx <- overlap_loop (length sentences) self sentences pos 0 (splitIdx - 1) ;;
    Ok (overlapIdx + 1)
  else Ok splitIdx.

(** [while (pos < sentences.length)], with its variables [pos] and
    [chunks] and the warnings issued so far. *)
Fixpoint chunk_loop (fuel : nat) (self : t) (sentences : list Sentence)
    (tokenSums : list Z) (pos : Z) (chunks : list SentenceChunk)
    (warnings : list warning) : result (list SentenceChunk * list warning) :=
  if pos <? len sentences then
    match fuel with
    | O => OutOfFuel
    | S fuel' =>
        '(splitIdx, w) <- select_split self sentences tokenSums pos ;;
        let chunkSentences := slice sentences pos splitIdx in
        c <- _createChunk self chunkSentences ;;
        pos' <- next_pos self sentences pos splitIdx ;;
        chunk_loop fuel' self sentences tokenSums pos' (chunks ++ [c]) (warnings ++ w)
    end
  else Ok (chunks, warnings).

(** [chunk(text)]: the chunks and the warnings it issued. *)
Definition chunk (self : t) (text : jsstring)
  : result (list SentenceChunk * list warning) :=
  if is_empty (String_trim text) then Ok ([], [])
  else
    let sentences := _prepareSentences self text in
    if is_empty sentences then Ok ([], [])
    else
      let tokenSums := tokenSums_from 0 sentences in
      chunk_loop (length sentences) self sentences tokenSums 0 [] [].

(** What the constructor lets through. *)
Definition valid (self : t) : Prop :=
  0 < chunkSize self /\ 0 <= chunkOverlap self < chunkSize self
  /\ 0 < minSentencesPerChunk self /\ 0 < minCharactersPerSentence self
  /\ (is_prev (includeDelim self) || is_next (includeDelim self)
      || is_null (includeDelim self)) = true
  /\ sep self = SEP.

End SentenceChunker.

(** Texts and configurations of the examples. *)
Definition sentence_chunker (tk : Tokenizer) (chunkSize chunkOverlap minS minC : Z)
    (delim : list jsstring) (inc : option jsstring) : SentenceChunker.t :=
  SentenceChunker.mk tk chunkSize chunkOverlap minS minC false delim inc
                     SentenceChunker.SEP.

Definition texts_of (r : result (list SentenceChunk * list warning)) : list jsstring :=
  match r with Ok (cs, _) => map sc_text cs | _ => [] end.

(* ================================================================== *)
(** * The static factories of SentenceChunker *)

(** Modelled from the spec: the recipe source ([Hubbie] of
    [../utils/hub]) is not among the sources.  It resolves a name and a
    language, or a file path, to a recipe: a configuration of delimiters
    and of an inclusion policy.  [fromRecipe] reads of it the two fields
    [recipe.recipe?.delimiters] and [recipe.recipe?.include_delim]; a
    field is [None] when it is missing or [null]. *)
Record RecipeBody : Type := mkRecipeBody {
  delimiters : option (list jsstring);
  include_delim : option jsstring
}.

Record Recipe : Type := mkRecipe {
  recipe : option RecipeBody
}.

Record Hubbie : Type := mkHubbie {
  getRecipe : jsstring -> jsstring -> option jsstring -> result Recipe
}.

Module SentenceChunkerFactory.

(** [SentenceChunkerOptions]: a field is [None] when the caller leaves
    it out; [includeDelim] may be given as [null]. *)
Record SentenceChunkerOptions : Type := mkOptions {
  tokenizer : option (jsstring + Tokenizer);
  chunkSize : option Z;
  chunkOverlap : option Z;
  minSentencesPerChunk : option Z;
  minCharactersPerSentence : option Z;
  approximate : option bool;
  delim : option (list jsstring);
  includeDelim : option (option jsstring)
}.

Record SentenceChunkerRecipeOptions : Type := mkRecipeOptions {
  name : option jsstring;
  language : option jsstring;
  filePath : option jsstring;
  tokenizer' : option (jsstring + Tokenizer);
  chunkSize' : option Z;
  chunkOverlap' : option Z;
  minSentencesPerChunk' : option Z;
  minCharactersPerSentence' : option Z;
  approximate' : option bool
}.

(** The default of a destructured option, [x = d]. *)
Definition default {A : Type} (x : option A) (d : A) : A :=
  match x with Some v => v | None => d end.

(** [x || d] for a string or [null]: the empty string is falsy too. *)
Definition or_string (x : option jsstring) (d : jsstring) : jsstring :=
  match x with
  | Some s => if is_empty s then d else s
  | None => d
  end.

(** [[". ", "! ", "? ", "\n"]]. *)
Definition default_delim : list jsstring := [js ". "; js "! "; js "? "; [10%N]].

(** [create(options)]; [Tokenizer_create] is the static [Tokenizer.create]
    that loads a tokenizer by name.  The callable wrapper the source
    returns carries the fields of the instance and hands every call to it:
    the model returns the instance. *)
Definition create (Tokenizer_create : jsstring -> result Tokenizer)
    (options : SentenceChunkerOptions)
  : result (SentenceChunker.t * list warning) :=
  let tokenizer := default (tokenizer options) (inl (js "Xenova/gpt2")) in
  let chunkSize := default (chunkSize options) 512 in
  let chunkOverlap := default (chunkOverlap options) 0 in
  let minSentencesPerChunk := default (minSentencesPerChunk options) 1 in
  let minCharactersPerSentence := default (minCharactersPerSentence options) 12 in
  let approximate := default (approximate options) false in
  let delim := default (delim options) default_delim in
  let includeDelim := default (includeDelim options) (Some (js "prev")) in
  tokenizerInstance <- match tokenizer with
                       | inl name => Tokenizer_create name
                       | inr instance => Ok instance
                       end ;;
  SentenceChunker.new tokenizerInstance chunkSize chunkOverlap minSentencesPerChunk
                      minCharactersPerSentence approximate (Some delim) includeDelim.

(** [fromRecipe(options)]; [hubbie] is the [new Hubbie()] of the source. *)
Definition fromRecipe (Tokenizer_create : jsstring -> result Tokenizer) (hubbie : Hubbie)
    (options : SentenceChunkerRecipeOptions)
  : result (SentenceChunker.t * list warning) :=
  let name := default (name options) (js "default") in
  let language := default (language options) (js "en") in
  let tokenizer := default (tokenizer' options) (inl (js "Xenova/gpt2")) in
  let chunkSize := default (chunkSize' options) 512 in
  let chunkOverlap := default (chunkOverlap' options) 0 in
  let minSentencesPerChunk := default (minSentencesPerChunk' options) 1 in
  let minCharactersPerSentence := default (minCharactersPerSentence' options) 12 in
  let approximate := default (approximate' options) false in
  recipe0 <- getRecipe hubbie name language (filePath options) ;;
  let delim :=
    match recipe recipe0 with
    | Some body => default (delimiters body) default_delim
    | None => default_delim
    end in
  let includeDelim :=
    or_string (match recipe recipe0 with
               | Some body => include_delim body
               | None => None
               end) (js "prev") in
  if negb (jsstring_eqb includeDelim (js "prev"))
     && negb (jsstring_eqb includeDelim (js "next"))
  then Throw "Invalid include_delim value in recipe"
  else
    create Tokenizer_create
      (mkOptions (Some tokenizer) (Some chunkSize) (Some chunkOverlap)
                 (Some minSentencesPerChunk) (Some minCharactersPerSentence)
                 (Some approximate) (Some delim) (Some (Some includeDelim))).

End SentenceChunkerFactory.

(** A hub whose recipe names its delimiters and leaves the policy [null]. *)
Definition hub_null_policy : Hubbie :=
  mkHubbie (fun _ _ _ =>
              Ok (mkRecipe (Some (mkRecipeBody (Some [js ". "; js "? "]) None)))).

(* ================================================================== *)
(** * The module [@chonkiejs/chunk]

    The split and merge primitives are imported from a WebAssembly
    package; [chunk.d.ts] declares them.  They are parameters of the
    embedding, gathered in one record. *)

Inductive IncludeDelim : Type := prev | next | none.

Module Wasm.

Record SplitOptions : Type := mkSplitOptions {
  so_delimiters : jsstring;
  so_includeDelim : IncludeDelim;
  so_minChars : Z
}.

Record MergeSplitsResult : Type := mkMergeSplitsResult {
  indices : list Z;
  tokenCounts : list Z
}.

Record ChunkModule : Type := mkChunkModule {
  split_offsets : jsstring -> SplitOptions -> list (Z * Z);
  merge_splits : list Z -> Z -> bool -> MergeSplitsResult
}.

End Wasm.
Definition ChunkModule : Type := Wasm.ChunkModule.

(* ================================================================== *)
(** * class RecursiveChunker *)

Module RecursiveChunker.

(** [level.delimiters] is a string or an array of strings. *)
Inductive Delimiters : Type :=
| DelimString (s : jsstring)
| DelimArray (a : list jsstring).

(** Modelled from the spec: the classes [RecursiveLevel] and
    [RecursiveRules] of [@/types] are not among the sources.  A level is
    a whitespace flag, a delimiter set with its inclusion policy, or
    neither (the terminal token window); the rules are the ordered
    sequence of the levels, read through [length] and [getLevel]. *)
Record RecursiveLevel : Type := mkLevel {
  whitespace : bool;
  delimiters : option Delimiters;
  includeDelim : IncludeDelim
}.

Definition RecursiveRules : Type := list RecursiveLevel.

Definition getLevel (rules : RecursiveRules) (i : Z) : option RecursiveLevel :=
  at_index rules i.

(** The three kinds of level. *)
Definition token_level : RecursiveLevel := mkLevel false None none.
Definition whitespace_level : RecursiveLevel := mkLevel true None none.
Definition delimiter_level (d : list jsstring) (i : IncludeDelim) : RecursiveLevel :=
  mkLevel false (Some (DelimArray d)) i.

Record t : Type := mk {
  tokenizer : Tokenizer;
  chunkSize : Z;
  rules : RecursiveRules;
  minCharactersPerChunk : Z
}.

Definition CHARS_PER_TOKEN : Q := 13 # 2.

(** The constructor. *)
Definition new (tokenizer : Tokenizer) (chunkSize : Z) (rules : RecursiveRules)
    (minCharactersPerChunk : Z) : result t :=
  if chunkSize <=? 0 then Throw "chunkSize must be greater than 0"
  else if minCharactersPerChunk <=? 0
  then Throw "minCharactersPerChunk must be greater than 0"
  else Ok (mk tokenizer chunkSize rules minCharactersPerChunk).

(** [Math.max(1, Math.floor(text.length / this.CHARS_PER_TOKEN))].  The
    quotient is taken in [Q]: a double division of an integer below 2^53
    by 6.5 rounds to a value with the same floor. *)
Definition heuristic (text : jsstring) : Z :=
  Z.max 1 (Qfloor (inject_Z (len text) / CHARS_PER_TOKEN)).

Definition estimateTokenCount (self : t) (text : jsstring) : Z :=
  let estimate := heuristic text in
  if estimate >? chunkSize self then chunkSize self + 1
  else countTokens (tokenizer self) text.

(** [x === undefined]. *)
Definition is_empty_opt {A : Type} (x : option A) : bool :=
  match x with None => true | Some _ => false end.

(** [if (level.delimiters)]: the empty string is falsy, an array never. *)
Definition truthy_delimiters (d : option Delimiters) : bool :=
  match d with
  | None => false
  | Some (DelimString s) => negb (is_empty s)
  | Some (DelimArray _) => true
  end.

(** The [for (let i = 0; i < encoded.length; i += this.chunkSize)] loop. *)
Fixpoint token_windows (fuel : nat) (encoded : list Z) (chunkSize i : Z)
    (tokenSplits : list (list Z)) : result (list (list Z)) :=
  if i <? len encoded then
    match fuel with
    | O => OutOfFuel
    | S fuel' =>
        token_windows fuel' encoded chunkSize (i + chunkSize)
                      (tokenSplits ++ [slice encoded i (i + chunkSize)])
    end
  else Ok tokenSplits.

Definition splitText (w : ChunkModule) (self : t) (text : jsstring)
    (level : RecursiveLevel) : result (list jsstring) :=
  if whitespace level then
    let offsets := Wasm.split_offsets w text (Wasm.mkSplitOptions (js " ") none 0) in
    Ok (map (fun '(s, e) => slice text s e) offsets)
  else if truthy_delimiters (delimiters level) then
    let delims :=
      match delimiters level with
      | Some (DelimArray a) => Array_join a []
      | Some (DelimString s) => s
      | None => []
      end in
    let includeDelim :=
      match includeDelim level with
      | prev => prev
      | next => next
      | none => none
      end in
    let offsets :=
      Wasm.split_offsets w text (Wasm.mkSplitOptions delims includeDelim (minCharactersPerChunk self)) in
    Ok (map (fun '(s, e) => slice text s e) offsets)
  else
    let encoded := encode (tokenizer self) text in
    tokenSplits <- token_windows (length encoded) encoded (chunkSize self) 0 [] ;;
    Ok (decodeBatch (tokenizer self) tokenSplits).

Definition makeChunk (text : jsstring) (tokenCount startOffset : Z) : Chunk :=
  mkChunk text startOffset (startOffset + len text) tokenCount.

(** The [for] loop of [mergeSplits] over [result.indices]. *)
Fixpoint merge_loop (splits : list jsstring) (combineWhitespace : bool)
    (resultTokenCounts : list Z) (resultIndices : list Z) (i currentIndex : Z)
    (merged : list jsstring) (combinedTokenCounts : list Z)
  : list jsstring * list Z :=
  match resultIndices with
  | [] => (merged, combinedTokenCounts)
  | endIndex :: rest =>
      let slicedSplits := slice splits currentIndex endIndex in
      let piece :=
        if combineWhitespace then Array_join slicedSplits (js " ")
        else Array_join slicedSplits [] in
      merge_loop splits combineWhitespace resultTokenCounts rest (i + 1) endIndex
                 (merged ++ [piece])
                 (combinedTokenCounts ++ [num_at resultTokenCounts i])
  end.

Definition mergeSplits (w : ChunkModule) (self : t) (splits : list jsstring)
    (tokenCounts : list Z) (combineWhitespace : bool)
  : result (list jsstring * list Z) :=
  if is_empty splits || is_empty tokenCounts then Ok ([], [])
  else if negb (len splits =? len tokenCounts)
  then Throw "Mismatch between splits and token counts"
  else if forallb (fun count => count >? chunkSize self) tokenCounts
  then Ok (splits, tokenCounts)
  else
    let result := Wasm.merge_splits w tokenCounts (chunkSize self) combineWhitespace in
    Ok (merge_loop splits combineWhitespace (Wasm.tokenCounts result)
                   (Wasm.indices result) 0 0 [] []).

(** The [for] loop that ends [recursiveChunk]; [recurse split offset] is
    the call [this.recursiveChunk(split, level + 1, offset)]. *)
Fixpoint process_merged (recurse : jsstring -> Z -> result (list Chunk)) (self : t)
    (merged : list jsstring) (combinedTokenCounts : list Z) (i currentOffset : Z)
    (chunks : list Chunk) : result (list Chunk) :=
  match merged with
  | [] => Ok chunks
  | split :: rest =>
      let tokenCount := num_at combinedTokenCounts i in
      sub <- (if tokenCount >? chunkSize self then recurse split currentOffset
              else Ok [makeChunk split tokenCount currentOffset]) ;;
      process_merged recurse self rest combinedTokenCounts (i + 1)
                     (currentOffset + len split) (chunks ++ sub)
  end.

(** [merged.slice(0, 1).concat(merged.slice(1).map(t => ' ' + t))]. *)
Definition space_prefix (merged : list jsstring) : list jsstring :=
  slice merged 0 1 ++ map (fun t0 => js " " ++ t0) (skipn 1 merged).

(** The middle of [recursiveChunk]: the splits of the text at the current
    level, their estimated counts, and the merge the kind of level asks for. *)
Definition split_and_merge (w : ChunkModule) (self : t) (text : jsstring)
    (currRule : RecursiveLevel) : result (list jsstring * list Z) :=
  splits <- splitText w self text currRule ;;
  let tokenCounts := map (estimateTokenCount self) splits in
  if is_empty_opt (delimiters currRule) && negb (whitespace currRule)
  then Ok (splits, tokenCounts)
  else if is_empty_opt (delimiters currRule) && whitespace currRule
  then '(merged, combinedTokenCounts) <- mergeSplits w self splits tokenCounts true ;;
       Ok (space_prefix merged, combinedTokenCounts)
  else mergeSplits w self splits tokenCounts false.

Fixpoint recursiveChunk (fuel : nat) (w : ChunkModule) (self : t) (text : jsstring)
    (level startOffset : Z) : result (list Chunk) :=
  match fuel with
  | O => OutOfFuel
  | S fuel' =>
      if is_empty text then Ok []
      else if level >=? len (rules self) then
        let tokenCount := estimateTokenCount self text in
        Ok [makeChunk text tokenCount startOffset]
      else
        match getLevel (rules self) level with
        | None => Throw "No rule found at level"
        | Some currRule =>
            '(merged, combinedTokenCounts) <- split_and_merge w self text currRule ;;
            process_merged
              (fun split offset => recursiveChunk fuel' w self split (level + 1) offset)
              self merged combinedTokenCounts 0 startOffset []
        end
  end.

(** [chunk(text)]. *)
Definition chunk (w : ChunkModule) (self : t) (text : jsstring) : result (list Chunk) :=
  recursiveChunk (S (length (rules self))) w self text 0 0.

End RecursiveChunker.

(** A chunk module that splits nowhere and merges nothing, for the
    examples whose rules never reach the primitives. *)
Definition idle_module : ChunkModule := {|
  Wasm.split_offsets := fun text _ => [(0, len text)];
  Wasm.merge_splits := fun counts _ _ =>
    Wasm.mkMergeSplitsResult (map (fun k => Z.of_nat k) (seq 1 (length counts))) counts
|}.

Definition recursive_chunker (tk : Tokenizer) (chunkSize : Z)
    (rules : RecursiveChunker.RecursiveRules) : RecursiveChunker.t :=
  RecursiveChunker.mk tk chunkSize rules 24.

Definition international : jsstring := js " international".

(* ================================================================== *)
(** * Vocabulary of the properties *)

(** [strip s t]: the string [t] without the code unit [s]. *)
Definition strip (s : code_unit) (t : jsstring) : jsstring :=
  filter (fun c => negb (N.eqb c s)) t.

(** The sentences lie end to end from offset [p], none of them empty. *)
Fixpoint laid_out (p : Z) (sentences : list Sentence) : Prop :=
  match sentences with
  | [] => True
  | s :: rest =>
      s_startIndex s = p /\ s_endIndex s = p + len (s_text s) /\ s_text s <> []
      /\ laid_out (s_endIndex s) rest
  end.


(** Code units covered by a run of sentences, and the tokens counted in it. *)
Definition extent (sentences : list Sentence) : Z :=
  fold_right Z.add 0 (map (fun s => len (s_text s)) sentences).

Definition total_tokens (sentences : list Sentence) : Z :=
  fold_right Z.add 0 (map s_tokenCount sentences).

(** [Run self sentences pos steps ws]: from the cursor [pos] the loop
    makes the iterations [steps], each one a window [(pos, splitIdx)] with
    the chunk pushed for it, and issues the warnings [ws]. *)
Inductive Run (self : SentenceChunker.t) (sentences : list Sentence)
  : Z -> list (Z * Z * SentenceChunk) -> list warning -> Prop :=
| Run_done (pos : Z) :
    len sentences <= pos -> Run self sentences pos [] []
| Run_step (pos splitIdx pos' : Z) (w ws : list warning) (c : SentenceChunk)
    (steps : list (Z * Z * SentenceChunk)) :
    0 <= pos < len sentences ->
    SentenceChunker.select_split self sentences
      (SentenceChunker.tokenSums_from 0 sentences) pos = Ok (splitIdx, w) ->
    SentenceChunker._createChunk self (slice sentences pos splitIdx) = Ok c ->
    SentenceChunker.next_pos self sentences pos splitIdx = Ok pos' ->
    Run self sentences pos' steps ws ->
    Run self sentences pos ((pos, splitIdx, c) :: steps) (w ++ ws).

Definition chunks_of (steps : list (Z * Z * SentenceChunk)) : list SentenceChunk :=
  map snd steps.

(** What the recursive pipeline needs of its collaborators (the split and
    merge primitives and the tokenizer) for its offsets to progress: the
    pieces a level hands on are not empty, and together they are no longer
    than the text they were cut from. *)
Definition pieces_fit (w : ChunkModule) (self : RecursiveChunker.t) : Prop :=
  forall text currRule merged counts,
    text <> [] -> In currRule (RecursiveChunker.rules self) ->
    RecursiveChunker.split_and_merge w self text currRule = Ok (merged, counts) ->
    Forall (fun piece => piece <> []) merged /\ len (concat merged) <= len text.

(** A chunk is a non-empty range within [lo, hi). *)
Definition within (lo hi : Z) (c : Chunk) : Prop :=
  lo <= startIndex c /\ startIndex c < endIndex c /\ endIndex c <= hi.

(** The chunks are non-empty ranges within [lo, hi), one after the other. *)
Definition in_a_row (lo hi : Z) (chunks : list Chunk) : Prop :=
  Forall (within lo hi) chunks
  /\ Sorted (fun c d => endIndex c <= startIndex d) chunks.

(** The chunks lie end to end from offset [p], each as long as its text. *)
Fixpoint tiles (p : Z) (chunks : list Chunk) : Prop :=
  match chunks with
  | [] => True
  | c :: rest =>
      startIndex c = p /\ endIndex c = p + len (text c) /\ tiles (endIndex c) rest
  end.

(** The end indices cut the positions from [p] to [n] into consecutive
    ranges, none of them empty. *)
Fixpoint partitions (p n : Z) (indices : list Z) : Prop :=
  match indices with
  | [] => p = n
  | i :: rest => p < i <= n /\ partitions i n rest
  end.

(** The contract of [merge_splits] the recursive pipeline relies on: the
    end indices it returns cut the segments it was given into consecutive
    groups, none of them empty. *)
Definition merges_in_order (w : ChunkModule) : Prop :=
  forall (counts : list Z) (chunkSize : Z) (combineWhitespace : bool),
    counts <> [] ->
    partitions 0 (len counts)
      (Wasm.indices (Wasm.merge_splits w counts chunkSize combineWhitespace)).

(** Texts within ASCII: there the byte offsets [split_offsets] returns
    are positions of code units, the ones [text.slice] takes. *)
Definition ascii (t : jsstring) : Prop := Forall (fun c => (c < 128)%N) t.

(** What a level asks of the collaborators for no code unit to be lost.
    The level is not a whitespace level (there the spaces are dropped by
    the split and put back one by one).  At a delimiter level the
    delimiters stay attached (['prev'] or ['next']) and the segments of
    [split_offsets] lie end to end over the text; at a token level,
    decoding the encoding of a text window by window gives the text back. *)
Definition keeps_text (w : ChunkModule) (self : RecursiveChunker.t)
    (rule : RecursiveChunker.RecursiveLevel) : Prop :=
  RecursiveChunker.whitespace rule = false
  /\ if RecursiveChunker.truthy_delimiters (RecursiveChunker.delimiters rule) then
       RecursiveChunker.includeDelim rule <> none
       /\ forall input delims minChars,
           ascii input ->
           concat (map (fun '(s, e) => slice input s e)
                       (Wasm.split_offsets w input
                          (Wasm.mkSplitOptions delims (RecursiveChunker.includeDelim rule)
                                               minChars)))
           = input
     else
       forall input windows,
         ascii input ->
         concat windows = encode (RecursiveChunker.tokenizer self) input ->
         concat (decodeBatch (RecursiveChunker.tokenizer self) windows) = input.

(** The token counts of the sentences of a text are within the reach of
    the arithmetic of the code.  The code keeps the counts, their prefix
    sums and the overlap in double precision, and reads the count of the
    sentence [i] at the index [i] of the batch; the integers of the model
    are these numbers when the batch gives one count per sentence and the
    counts, in absolute value, sum with [chunkSize] to less than 2^53. *)
Definition counts_exact (self : SentenceChunker.t) (text : jsstring) : Prop :=
  let texts := SentenceChunker._splitText self text in
  let counts := countTokensBatch (SentenceChunker.tokenizer self) texts in
  len counts = len texts
  /\ fold_right Z.add 0 (map Z.abs counts) + SentenceChunker.chunkSize self < 2 ^ 53.

(** The array never decreases from left to right. *)
Definition nondecreasing (arr : list Z) : Prop :=
  forall i j x y,
    0 <= i <= j -> at_index arr i = Some x -> at_index arr j = Some y -> x <= y.

(** The tokenizer never counts a negative number of tokens. *)
Definition counts_nonneg (tk : Tokenizer) : Prop :=
  forall texts, Forall (fun k => 0 <= k) (countTokensBatch tk texts).

(* ================================================================== *)
(** * Example configurations *)

Definition prev_policy : option jsstring := Some (js "prev").

(** Sentences of 3, 4, 5 and 2 tokens under the character tokenizer. *)
Definition text_3452 : jsstring := js "a. bb. ccc. dd".

Definition chunker_7 : SentenceChunker.t :=
  sentence_chunker characterTokenizer 7 0 1 1 [js ". "] prev_policy.

(** The token counts of the sentences of each chunk returned. *)
Definition windows_of (r : result (list SentenceChunk * list warning)) : list (list Z) :=
  match r with
  | Ok (cs, _) => map (fun c => map s_tokenCount (sc_sentences c)) cs
  | _ => []
  end.


Definition chunker_vocab : SentenceChunker.t :=
  sentence_chunker (vocabTokenizer [js " b"; js "bcde"]) 6 0 1 1 [js ". "] prev_policy.

Definition chunker_overlap : SentenceChunker.t :=
  sentence_chunker characterTokenizer 10 5 1 1 [js ". "] prev_policy.


(** A chunk module for the examples: it cuts at a delimiter the way
    [split] does when the delimiter is dropped, nowhere otherwise, and it
    merges all the segments into one group. *)
Fixpoint offsets_from (p gap : Z) (pieces : list jsstring) : list (Z * Z) :=
  match pieces with
  | [] => []
  | x :: rest => (p, p + len x) :: offsets_from (p + len x + gap) gap rest
  end.

Definition lump_module : ChunkModule := {|
  Wasm.split_offsets := fun input o =>
    match Wasm.so_includeDelim o with
    | none => offsets_from 0 (len (Wasm.so_delimiters o))
                           (String_split input (Wasm.so_delimiters o))
    | _ => [(0, len input)]
    end;
  Wasm.merge_splits := fun counts _ _ =>
    Wasm.mkMergeSplitsResult [len counts] [fold_right Z.add 0 counts]
|}.

(** Words first, token windows below, one token per code unit. *)
Definition chunker_words : RecursiveChunker.t :=
  recursive_chunker characterTokenizer 4
    [RecursiveChunker.whitespace_level; RecursiveChunker.token_level].

(** A second chunk module for the examples.  With the policy ['prev'] it
    ends a segment after every code unit that is one of the delimiters
    (it splits nowhere under the other policies); it merges the segments
    from left to right, closing a group when the next segment would bring
    it to [chunkSize] tokens, a joining space counting for one. *)
Fixpoint cut_after (delims t : jsstring) : list jsstring :=
  match t with
  | [] => []
  | c :: t' =>
      if existsb (N.eqb c) delims then [c] :: cut_after delims t'
      else push_front c (cut_after delims t')
  end.

Fixpoint greedy_groups (chunkSize joint : Z) (counts : list Z) (i sum : Z)
  : list (Z * Z) :=
  match counts with
  | [] => [(i, sum)]
  | k :: rest =>
      if sum + k + joint <? chunkSize
      then greedy_groups chunkSize joint rest (i + 1) (sum + k + joint)
      else (i, sum) :: greedy_groups chunkSize joint rest (i + 1) (k + joint)
  end.

Definition greedy_module : ChunkModule := {|
  Wasm.split_offsets := fun input o =>
    match Wasm.so_includeDelim o with
    | prev => offsets_from 0 0 (cut_after (Wasm.so_delimiters o) input)
    | _ => [(0, len input)]
    end;
  Wasm.merge_splits := fun counts chunkSize combineWhitespace =>
    let joint := if combineWhitespace then 1 else 0 in
    let groups :=
      match counts with
      | [] => []
      | k :: rest => greedy_groups chunkSize joint rest 1 (k + joint)
      end in
    Wasm.mkMergeSplitsResult (map fst groups) (map snd groups)
|}.

(** Sentences first, token windows below, one token per code unit. *)
Definition chunker_stops : RecursiveChunker.t :=
  RecursiveChunker.mk characterTokenizer 8
    [RecursiveChunker.delimiter_level [js "."] prev; RecursiveChunker.token_level] 1.

(* ================================================================== *)
(** * Tactics *)

Ltac inv H := inversion H; subst; clear H.

Ltac valid_config :=
  unfold SentenceChunker.valid; simpl; repeat split; solve [lia | reflexivity].

(* ================================================================== *)
(** * Basic facts on the JavaScript operations *)

Lemma bind_ok {A B : Type} (r : result A) (k : A -> result B) (b : B) :
  bind r k = Ok b -> exists a, r = Ok a /\ k a = Ok b.
Proof. destruct r; simpl; intros H; try discriminate. eauto. Qed.

Lemma len_nonneg {A : Type} (l : list A) : 0 <= len l.
Proof. unfold len. lia. Qed.

Lemma len_app {A : Type} (l1 l2 : list A) : len (l1 ++ l2) = len l1 + len l2.
Proof. unfold len. rewrite length_app. lia. Qed.

Lemma len_cons {A : Type} (x : A) (l : list A) : len (x :: l) = 1 + len l.
Proof. unfold len. simpl length. lia. Qed.

Lemma len_nil {A : Type} : len (@nil A) = 0.
Proof. reflexivity. Qed.

Lemma is_empty_true {A : Type} (l : list A) : is_empty l = true <-> l = [].
Proof. destruct l; simpl; split; congruence. Qed.

Lemma is_empty_false {A : Type} (l : list A) : is_empty l = false <-> l <> [].
Proof. destruct l; simpl; split; congruence. Qed.

Lemma len_pos {A : Type} (l : list A) : l <> [] -> 0 < len l.
Proof. destruct l; [congruence|]. rewrite len_cons. pose proof (len_nonneg l). lia. Qed.

Lemma at_index_some {A : Type} (l : list A) (i : Z) :
  0 <= i < len l -> exists x, at_index l i = Some x.
Proof.
  intros H. unfold at_index, len in *.
  destruct (Z.ltb_spec i 0); [lia|].
  destruct (nth_error l (Z.to_nat i)) eqn:E; eauto.
  apply nth_error_None in E. lia.
Qed.

Lemma at_index_range {A : Type} (l : list A) (i : Z) (x : A) :
  at_index l i = Some x -> 0 <= i < len l.
Proof.
  unfold at_index, len. destruct (Z.ltb_spec i 0); [discriminate|].
  intros Hn. assert (nth_error l (Z.to_nat i) <> None) as H1 by congruence.
  apply nth_error_Some in H1. lia.
Qed.

Lemma at_index_cons {A : Type} (x : A) (l : list A) (i : Z) :
  0 < i -> at_index (x :: l) i = at_index l (i - 1).
Proof.
  intros H. unfold at_index.
  destruct (Z.ltb_spec i 0); [lia|]. destruct (Z.ltb_spec (i - 1) 0); [lia|].
  replace (Z.to_nat i) with (S (Z.to_nat (i - 1))) by lia. reflexivity.
Qed.

Lemma at_index_nat {A : Type} (l : list A) (k : nat) :
  at_index l (Z.of_nat k) = nth_error l k.
Proof.
  unfold at_index. destruct (Z.ltb_spec (Z.of_nat k) 0); [lia|].
  now rewrite Nat2Z.id.
Qed.

Lemma slice_inner {A : Type} (l : list A) (s e : Z) :
  0 <= s <= len l -> 0 <= e <= len l ->
  slice l s e = firstn (Z.to_nat (e - s)) (skipn (Z.to_nat s) l).
Proof.
  intros Hs He. unfold slice, rel_index.
  destruct (Z.ltb_spec s 0); [lia|]. destruct (Z.ltb_spec e 0); [lia|].
  now rewrite !Z.min_l by lia.
Qed.

Lemma slice_length {A : Type} (l : list A) (s e : Z) :
  0 <= s <= e -> e <= len l -> len (slice l s e) = e - s.
Proof.
  intros Hs He. rewrite slice_inner by lia. unfold len in *.
  rewrite length_firstn, length_skipn. lia.
Qed.

Lemma slice_all_after {A : Type} (l : list A) (s : Z) :
  0 <= s <= len l -> slice l s (len l) = skipn (Z.to_nat s) l.
Proof.
  intros Hs. rewrite slice_inner by (pose proof (len_nonneg l); lia).
  apply firstn_all2. rewrite length_skipn. unfold len. lia.
Qed.

Lemma slice_skipn {A : Type} (l : list A) (s e : Z) :
  0 <= s <= e -> e <= len l ->
  skipn (Z.to_nat s) l = slice l s e ++ skipn (Z.to_nat e) l.
Proof.
  intros Hs He. rewrite slice_inner by lia.
  replace (Z.to_nat e) with (Z.to_nat (e - s) + Z.to_nat s)%nat by lia.
  rewrite <- skipn_skipn. now rewrite firstn_skipn.
Qed.

Lemma ushr_half (x : Z) : 0 <= x < 2 ^ 32 -> ushr x 1 = x / 2.
Proof.
  intros H. unfold ushr. rewrite Z.mod_small by lia.
  rewrite Z.shiftr_div_pow2 by lia. reflexivity.
Qed.

Lemma join_empty (a : list jsstring) : Array_join a [] = concat a.
Proof.
  induction a as [|x rest IH]; [reflexivity|].
  destruct rest as [|y rest]; [simpl; now rewrite app_nil_r|].
  change (Array_join (x :: y :: rest) []) with (x ++ [] ++ Array_join (y :: rest) []).
  rewrite IH. reflexivity.
Qed.

Lemma join_cons (x y : jsstring) (rest : list jsstring) (sep : jsstring) :
  Array_join (x :: y :: rest) sep = x ++ sep ++ Array_join (y :: rest) sep.
Proof. reflexivity. Qed.

(** ** [split] and [join] *)

Lemma split_scan_not_nil (sep t : jsstring) (k : nat) : split_scan sep t k <> [].
Proof.
  revert k. induction t as [|c t IH]; intros k; simpl; [congruence|].
  destruct k; [|apply IH].
  destruct (starts_with sep (c :: t)); [congruence|].
  specialize (IH 0%nat). destruct (split_scan sep t 0); simpl; congruence.
Qed.

Lemma split_scan_skip (sep t : jsstring) (k : nat) :
  (k <= length t)%nat -> split_scan sep t k = split_scan sep (skipn k t) 0.
Proof.
  revert k. induction t as [|c t IH]; intros k Hk.
  - simpl in Hk. now replace k with 0%nat by lia.
  - destruct k; [reflexivity|]. simpl in Hk. simpl skipn.
    change (split_scan sep (c :: t) (S k)) with (split_scan sep t k).
    apply IH. lia.
Qed.

Lemma starts_with_app (p t : jsstring) :
  starts_with p t = true -> t = p ++ skipn (length p) t.
Proof.
  revert t. induction p as [|a p IH]; intros t H; [reflexivity|].
  destruct t as [|b t]; [discriminate|]. simpl in H.
  apply andb_true_iff in H as [Hab Hp]. apply N.eqb_eq in Hab. subst b.
  simpl. f_equal. now apply IH.
Qed.

Lemma join_push_front (c : code_unit) (ps : list jsstring) (sep : jsstring) :
  ps <> [] -> Array_join (push_front c ps) sep = c :: Array_join ps sep.
Proof.
  destruct ps as [|p ps]; [congruence|]. intros _.
  destruct ps; reflexivity.
Qed.

Lemma join_nil_cons (ps : list jsstring) (sep : jsstring) :
  ps <> [] -> Array_join ([] :: ps) sep = sep ++ Array_join ps sep.
Proof. destruct ps; [congruence|reflexivity]. Qed.

Lemma join_split_scan (sep : jsstring) (n : nat) :
  sep <> [] -> forall t, (length t <= n)%nat -> Array_join (split_scan sep t 0) sep = t.
Proof.
  intros Hsep. induction n as [|n IH]; intros t Hn.
  - destruct t; [reflexivity|simpl in Hn; lia].
  - destruct t as [|c t]; [reflexivity|].
    simpl split_scan. destruct (starts_with sep (c :: t)) eqn:E.
    + rewrite join_nil_cons by apply split_scan_not_nil.
      apply starts_with_app in E.
      destruct sep as [|s0 sep']; [congruence|].
      simpl in E. injection E as Hc H1. subst c.
      assert (length sep' <= length t)%nat as Hl.
      { pose proof (f_equal (@length code_unit) H1) as Hlen.
        rewrite length_app in Hlen. lia. }
      simpl length. replace (S (length sep') - 1)%nat with (length sep') by lia.
      rewrite split_scan_skip by exact Hl.
      rewrite IH.
      * simpl. f_equal. symmetry. exact H1.
      * rewrite length_skipn. simpl in Hn. lia.
    + rewrite join_push_front by apply split_scan_not_nil.
      f_equal. apply IH. simpl in Hn. lia.
Qed.

Lemma join_singletons (t : jsstring) : Array_join (map (fun c => [c]) t) [] = t.
Proof.
  rewrite join_empty. induction t as [|c t IH]; [reflexivity|].
  simpl. now rewrite IH.
Qed.

(** Joining the pieces of a split with the separator gives the string back. *)
Lemma join_split (t sep : jsstring) : Array_join (String_split t sep) sep = t.
Proof.
  unfold String_split. destruct sep as [|s sep'].
  - apply join_singletons.
  - apply (join_split_scan (s :: sep') (length t)); [congruence|lia].
Qed.

Lemma strip_app (s : code_unit) (a b : jsstring) :
  strip s (a ++ b) = strip s a ++ strip s b.
Proof. apply filter_app. Qed.

Lemma strip_join (s : code_unit) (ps : list jsstring) (x : jsstring) :
  strip s (Array_join ps x) = Array_join (map (strip s) ps) (strip s x).
Proof.
  induction ps as [|p ps IH]; [reflexivity|].
  destruct ps as [|q ps]; [reflexivity|].
  rewrite join_cons. simpl map. rewrite join_cons.
  rewrite !strip_app. rewrite IH. reflexivity.
Qed.

Lemma strip_self (s : code_unit) : strip s [s] = [].
Proof. unfold strip. simpl. now rewrite N.eqb_refl. Qed.

Lemma strip_absent (s : code_unit) (t : jsstring) : ~ In s t -> strip s t = t.
Proof.
  intros H. unfold strip. induction t as [|c t IH]; [reflexivity|].
  simpl. destruct (N.eqb_spec c s) as [->|Hne].
  - exfalso. apply H. now left.
  - simpl. f_equal. apply IH. intros Hin. apply H. now right.
Qed.

Lemma strip_length (s : code_unit) (t : jsstring) : len (strip s t) <= len t.
Proof. unfold len, strip. apply Nat2Z.inj_le, filter_length_le. Qed.

Lemma concat_push_front (c : code_unit) (ps : list jsstring) :
  concat (push_front c ps) = c :: concat ps.
Proof. destruct ps; reflexivity. Qed.

(** Splitting at a single code unit and gluing the pieces removes it. *)
Lemma concat_split_unit (s : code_unit) (t : jsstring) :
  concat (String_split t [s]) = strip s t.
Proof.
  unfold String_split. induction t as [|c t IH]; [reflexivity|].
  simpl split_scan. rewrite andb_true_r. unfold strip. simpl filter.
  destruct (N.eqb_spec s c) as [->|Hne].
  - rewrite N.eqb_refl. simpl. exact IH.
  - rewrite concat_push_front.
    destruct (N.eqb_spec c s); [congruence|]. simpl. f_equal. exact IH.
Qed.

Lemma join_length_ge (ps : list jsstring) (x : jsstring) :
  len (concat ps) <= len (Array_join ps x).
Proof.
  induction ps as [|p ps IH]; [simpl; lia|].
  destruct ps as [|q ps].
  - simpl. rewrite app_nil_r. lia.
  - rewrite join_cons. simpl concat in *. rewrite !len_app in *.
    pose proof (len_nonneg x). lia.
Qed.

(* ================================================================== *)
(** * SentenceChunker: the delimiter splitter and the sentence accountant *)

Section SentenceSplitter.

Import SentenceChunker.

Variable self : SentenceChunker.t.
Hypothesis self_valid : valid self.

Let sepc : code_unit := 9988%N.

Lemma self_sep : sep self = [sepc].
Proof. destruct self_valid as (_ & _ & _ & _ & _ & H). exact H. Qed.

Lemma mark_delim_prev (t0 c : jsstring) :
  is_prev (includeDelim self) = true ->
  strip sepc (mark_delim self t0 c) = strip sepc t0.
Proof.
  intros Hp. unfold mark_delim. rewrite Hp, self_sep.
  rewrite strip_join, strip_app, strip_self, app_nil_r, <- strip_join.
  now rewrite join_split.
Qed.

Lemma mark_delim_length (t0 c : jsstring) :
  len (strip sepc (mark_delim self t0 c)) <= len (strip sepc t0).
Proof.
  unfold mark_delim. rewrite self_sep.
  destruct (is_prev (includeDelim self)); [|destruct (is_next (includeDelim self))].
  - rewrite strip_join, strip_app, strip_self, app_nil_r, <- strip_join.
    rewrite join_split. lia.
  - rewrite strip_join, strip_app, strip_self. simpl app. rewrite <- strip_join.
    rewrite join_split. lia.
  - rewrite strip_join, strip_self, join_empty.
    rewrite <- (join_split t0 c) at 2. rewrite strip_join.
    apply join_length_ge.
Qed.

Lemma marked_prev (ds : list jsstring) (t0 : jsstring) :
  is_prev (includeDelim self) = true ->
  strip sepc (fold_left (mark_delim self) ds t0) = strip sepc t0.
Proof.
  intros Hp. revert t0. induction ds as [|d ds IH]; intros t0; [reflexivity|].
  simpl. rewrite IH. now apply mark_delim_prev.
Qed.

Lemma marked_length (ds : list jsstring) (t0 : jsstring) :
  len (strip sepc (fold_left (mark_delim self) ds t0)) <= len (strip sepc t0).
Proof.
  revert t0. induction ds as [|d ds IH]; intros t0; [simpl; lia|].
  simpl. specialize (IH (mark_delim self t0 d)).
  pose proof (mark_delim_length t0 d). lia.
Qed.

Lemma gather_concat (splits sentences : list jsstring) (current : jsstring)
    (ss : list jsstring) (cur : jsstring) :
  gather self splits sentences current = (ss, cur) ->
  concat ss ++ cur = concat sentences ++ current ++ concat splits.
Proof.
  revert sentences current.
  induction splits as [|s rest IH]; intros sentences current H.
  - simpl in H. inv H. simpl. now rewrite app_nil_r.
  - simpl gather in H. destruct current as [|c current'].
    + simpl in H. rewrite (IH _ _ H). reflexivity.
    + simpl is_empty in H. cbv iota in H.
      destruct (len (c :: current') >=? minCharactersPerSentence self).
      * rewrite (IH _ _ H). rewrite concat_app. simpl. rewrite app_nil_r.
        now rewrite <- !app_assoc.
      * rewrite (IH _ _ H). simpl. now rewrite <- !app_assoc.
Qed.

Lemma gather_nonempty (splits sentences : list jsstring) (current : jsstring) :
  Forall (fun x => x <> []) sentences ->
  Forall (fun x => x <> []) (fst (gather self splits sentences current)).
Proof.
  revert sentences current.
  induction splits as [|s rest IH]; intros sentences current Hs; [exact Hs|].
  simpl gather. destruct current as [|c current'].
  - simpl. now apply IH.
  - simpl is_empty. cbv iota.
    destruct (len (c :: current') >=? minCharactersPerSentence self).
    + apply IH. apply Forall_app. split; [exact Hs|].
      constructor; [congruence|constructor].
    + now apply IH.
Qed.

(** The sentences are the marked text without the sentinel, cut in pieces. *)
Lemma splitText_concat (text : jsstring) :
  concat (_splitText self text)
  = strip sepc (fold_left (mark_delim self) (delim self) text).
Proof.
  unfold _splitText. rewrite self_sep.
  set (t1 := fold_left (mark_delim self) (delim self) text).
  destruct (gather self (String_split t1 [sepc]) [] []) as [ss cur] eqn:E.
  apply gather_concat in E as H.
  cbn [concat app] in H. rewrite concat_split_unit in H.
  destruct cur as [|c cur]; simpl is_empty; cbv iota; simpl negb; cbv iota.
  - now rewrite app_nil_r in H.
  - rewrite concat_app. simpl. now rewrite app_nil_r.
Qed.

(** No sentence is empty. *)
Lemma splitText_nonempty (text : jsstring) :
  Forall (fun x => x <> []) (_splitText self text).
Proof.
  unfold _splitText.
  set (splits := String_split _ _).
  pose proof (gather_nonempty splits [] [] (Forall_nil _)) as H.
  destruct (gather self splits [] []) as [ss cur]. simpl in H.
  destruct cur as [|c cur]; simpl; [exact H|].
  apply Forall_app. split; [exact H|]. constructor; [congruence|constructor].
Qed.

Lemma nonempty_count (l : list jsstring) :
  Forall (fun x => x <> []) l -> len l <= len (concat l).
Proof.
  induction 1 as [|x l Hx Hl IH]; [cbv; discriminate|].
  simpl concat. rewrite len_cons, len_app. apply len_pos in Hx. lia.
Qed.

(** There are at most as many sentences as code units in the text. *)
Lemma splitText_count (text : jsstring) :
  len (_splitText self text) <= len text.
Proof.
  pose proof (nonempty_count _ (splitText_nonempty text)) as H.
  rewrite splitText_concat in H.
  pose proof (marked_length (delim self) text).
  pose proof (strip_length sepc text). lia.
Qed.

End SentenceSplitter.

(** ** The sentence records *)

Lemma num_at_middle (pre : list Z) (x : Z) (post : list Z) :
  num_at (pre ++ x :: post) (len pre) = x.
Proof.
  unfold num_at, len. rewrite at_index_nat.
  rewrite nth_error_app2 by lia. now rewrite Nat.sub_diag.
Qed.

Lemma mapi_from_texts (a c : Z -> Z) (b : jsstring -> Z -> Z) (k : Z) (l : list jsstring) :
  map s_text (SentenceChunker.mapi_from (fun sent i => mkSentence sent (a i) (b sent i) (c i)) k l) = l.
Proof.
  revert k. induction l as [|x l IH]; intros k; [reflexivity|].
  simpl. now rewrite IH.
Qed.

Lemma mapi_from_length {A B : Type} (f : A -> Z -> B) (k : Z) (l : list A) :
  length (SentenceChunker.mapi_from f k l) = length l.
Proof. revert k. induction l as [|x l IH]; intros k; simpl; [reflexivity|now rewrite IH]. Qed.

Lemma mapi_from_layout (c : Z -> Z) (l : list jsstring) :
  Forall (fun x => x <> []) l ->
  forall (pre : list Z) (p : Z),
    laid_out p
      (SentenceChunker.mapi_from
         (fun sent i =>
            mkSentence sent (num_at (pre ++ SentenceChunker.positions_from p l) i)
                       (num_at (pre ++ SentenceChunker.positions_from p l) i + len sent) (c i))
         (len pre) l).
Proof.
  induction 1 as [|x l Hx Hl IH]; intros pre p; [exact I|].
  simpl SentenceChunker.positions_from. simpl SentenceChunker.mapi_from.
  simpl laid_out. rewrite num_at_middle.
  repeat split; [exact Hx|].
  specialize (IH (pre ++ [p]) (p + len x)).
  rewrite len_app in IH. change (len [p]) with 1 in IH.
  rewrite <- app_assoc in IH. exact IH.
Qed.


Section SentenceAccountant.

Import SentenceChunker.

Variable self : SentenceChunker.t.
Hypothesis self_valid : valid self.

Lemma prepare_texts (text : jsstring) :
  map s_text (_prepareSentences self text) = _splitText self text.
Proof.
  unfold _prepareSentences. destruct (_splitText self text) as [|x l] eqn:E; [reflexivity|].
  simpl is_empty. cbv iota. apply mapi_from_texts.
Qed.

Lemma prepare_layout (text : jsstring) : laid_out 0 (_prepareSentences self text).
Proof.
  unfold _prepareSentences.
  pose proof (splitText_nonempty self text) as Hne.
  destruct (_splitText self text) as [|x l] eqn:E; [exact I|].
  simpl is_empty. cbv iota.
  apply (mapi_from_layout _ (x :: l) Hne [] 0).
Qed.


Lemma prepare_count (text : jsstring) :
  len (_prepareSentences self text) <= len text.
Proof.
  pose proof (splitText_count self self_valid text) as H.
  rewrite <- prepare_texts in H. unfold len in *. now rewrite length_map in H.
Qed.

End SentenceAccountant.

(* ================================================================== *)
(** * SentenceChunker: the window selector *)

Lemma extent_app (a b : list Sentence) : extent (a ++ b) = extent a + extent b.
Proof. unfold extent. induction a as [|x a IH]; simpl; lia. Qed.

Lemma extent_nonneg (a : list Sentence) : 0 <= extent a.
Proof.
  unfold extent. induction a as [|x a IH]; simpl; [lia|].
  pose proof (len_nonneg (s_text x)). lia.
Qed.

Lemma total_tokens_app (a b : list Sentence) :
  total_tokens (a ++ b) = total_tokens a + total_tokens b.
Proof. unfold total_tokens. induction a as [|x a IH]; simpl; lia. Qed.

Lemma at_index_slice {A : Type} (l : list A) (p s i : Z) :
  0 <= p -> s <= len l -> 0 <= i < s - p ->
  at_index (slice l p s) i = at_index l (p + i).
Proof.
  intros Hp Hs Hi. rewrite slice_inner by lia. unfold at_index.
  destruct (Z.ltb_spec i 0); [lia|]. destruct (Z.ltb_spec (p + i) 0); [lia|].
  rewrite nth_error_firstn.
  destruct (Nat.ltb_spec (Z.to_nat i) (Z.to_nat (s - p))); [|lia].
  rewrite nth_error_skipn. f_equal. lia.
Qed.

Lemma firstn_plus {A : Type} (a b : nat) (l : list A) :
  firstn (a + b) l = firstn a l ++ firstn b (skipn a l).
Proof.
  revert l. induction a as [|a IH]; intros l; [reflexivity|].
  destruct l as [|x l]; [simpl; now rewrite firstn_nil|].
  simpl. now rewrite IH.
Qed.

Lemma firstn_slice {A : Type} (l : list A) (p s : Z) :
  0 <= p <= s -> s <= len l ->
  firstn (Z.to_nat s) l = firstn (Z.to_nat p) l ++ slice l p s.
Proof.
  intros Hp Hs. rewrite slice_inner by lia.
  replace (Z.to_nat s) with (Z.to_nat p + Z.to_nat (s - p))%nat by lia.
  apply firstn_plus.
Qed.

Lemma slice_not_nil {A : Type} (l : list A) (p s : Z) :
  0 <= p < s -> s <= len l -> slice l p s <> [].
Proof.
  intros Hp Hs E. pose proof (slice_length l p s ltac:(lia) Hs) as H.
  rewrite E in H. change (len (@nil A)) with 0 in H. lia.
Qed.

Lemma tokenSums_length (a : Z) (l : list Sentence) :
  len (SentenceChunker.tokenSums_from a l) = len l + 1.
Proof.
  revert a. induction l as [|x l IH]; intros a; [reflexivity|].
  simpl SentenceChunker.tokenSums_from. rewrite !len_cons, IH. lia.
Qed.

Lemma tokenSums_at (l : list Sentence) :
  forall (a : Z) (k : nat), (k <= length l)%nat ->
    num_at (SentenceChunker.tokenSums_from a l) (Z.of_nat k) = a + total_tokens (firstn k l).
Proof.
  induction l as [|x l IH]; intros a k Hk.
  - simpl in Hk. replace k with 0%nat by lia. cbv [num_at at_index]. simpl.
    unfold total_tokens. simpl. lia.
  - destruct k as [|k].
    + cbv [num_at at_index]. simpl. unfold total_tokens. simpl. lia.
    + simpl SentenceChunker.tokenSums_from. unfold num_at.
      rewrite at_index_cons by lia.
      replace (Z.of_nat (S k) - 1) with (Z.of_nat k) by lia.
      fold (num_at (SentenceChunker.tokenSums_from (a + s_tokenCount x) l) (Z.of_nat k)).
      rewrite IH by (simpl in Hk; lia).
      simpl firstn. unfold total_tokens. simpl. lia.
Qed.

(** The tokens between two prefix sums are the tokens of the slice. *)
Lemma tokenSums_diff (l : list Sentence) (p s : Z) :
  0 <= p <= s -> s <= len l ->
  num_at (SentenceChunker.tokenSums_from 0 l) s
  - num_at (SentenceChunker.tokenSums_from 0 l) p
  = total_tokens (slice l p s).
Proof.
  intros Hp Hs.
  rewrite <- (Z2Nat.id s), <- (Z2Nat.id p) at 1 by lia.
  rewrite !tokenSums_at by (unfold len in Hs; lia).
  rewrite (firstn_slice l p s) by lia. rewrite total_tokens_app. lia.
Qed.

Lemma laid_out_at (l : list Sentence) :
  forall (p : Z) (k : nat) (s : Sentence),
    laid_out p l -> nth_error l k = Some s ->
    s_startIndex s = p + extent (firstn k l)
    /\ s_endIndex s = p + extent (firstn (S k) l)
    /\ 0 < len (s_text s).
Proof.
  induction l as [|x l IH]; intros p k s Hl Hk; [destruct k; discriminate|].
  destruct Hl as (Hst & Hen & Hne & Hrest).
  destruct k as [|k].
  - simpl in Hk. inv Hk. unfold extent. simpl.
    apply len_pos in Hne. split; [lia|]. split; [|lia].
    destruct l; simpl; lia.
  - simpl in Hk. destruct (IH _ _ _ Hrest Hk) as (H1 & H2 & H3).
    rewrite H1, H2, Hen. unfold extent. simpl. lia.
Qed.

Lemma laid_out_extent_pos (l : list Sentence) (p : Z) :
  laid_out p l -> l <> [] -> 0 < extent l.
Proof.
  destruct l as [|x l]; [congruence|]. intros (_ & _ & Hne & Hrest) _.
  unfold extent. simpl. apply len_pos in Hne.
  pose proof (extent_nonneg l) as Hnn. unfold extent in Hnn. lia.
Qed.

Lemma laid_out_skipn (l : list Sentence) :
  forall (p : Z) (k : nat), laid_out p l -> laid_out (p + extent (firstn k l)) (skipn k l).
Proof.
  induction l as [|x l IH]; intros p k H.
  - destruct k; simpl; exact I.
  - destruct k as [|k].
    + simpl. unfold extent. simpl. rewrite Z.add_0_r. exact H.
    + destruct H as (H1 & H2 & H3 & H4). simpl skipn. simpl firstn.
      specialize (IH _ k H4).
      replace (p + extent (x :: firstn k l)) with (s_endIndex x + extent (firstn k l)).
      * exact IH.
      * unfold extent. simpl. lia.
Qed.

Lemma laid_out_firstn (l : list Sentence) :
  forall (p : Z) (k : nat), laid_out p l -> laid_out p (firstn k l).
Proof.
  induction l as [|x l IH]; intros p k H.
  - destruct k; exact I.
  - destruct k as [|k]; [exact I|].
    destruct H as (H1 & H2 & H3 & H4). simpl. repeat split; auto.
Qed.

(** Sentences further to the right start further to the right. *)
Lemma extent_firstn_lt (l : list Sentence) (p : Z) (i j : Z) :
  laid_out p l -> 0 <= i < j -> j <= len l ->
  extent (firstn (Z.to_nat i) l) < extent (firstn (Z.to_nat j) l).
Proof.
  intros Hl Hi Hj. rewrite (firstn_slice l i j) by lia. rewrite extent_app.
  assert (0 < extent (slice l i j)); [|lia].
  rewrite slice_inner by lia.
  apply (laid_out_extent_pos _ (p + extent (firstn (Z.to_nat i) l))).
  - apply laid_out_firstn. now apply laid_out_skipn.
  - rewrite <- slice_inner by lia. apply slice_not_nil; lia.
Qed.

(** ** The binary search *)

Lemma bisect_loop_spec (arr : list Z) (value : Z) :
  len arr < 2 ^ 31 ->
  forall (fuel : nat) (lo hi : Z),
    0 <= lo -> hi <= len arr -> (Z.to_nat (hi - lo) <= fuel)%nat ->
    exists b,
      SentenceChunker.bisect_loop fuel arr value lo hi = Ok b
      /\ lo <= b <= Z.max lo hi
      /\ (b = lo \/ exists x, at_index arr (b - 1) = Some x /\ x < value).
Proof.
  intros Hsmall. induction fuel as [|fuel IH]; intros lo hi Hlo Hhi Hfuel.
  - simpl. destruct (Z.ltb_spec lo hi); [lia|]. exists lo. split; [reflexivity|lia].
  - simpl. destruct (Z.ltb_spec lo hi) as [Hlt|Hge].
    2:{ exists lo. split; [reflexivity|lia]. }
    rewrite ushr_half by lia.
    assert (lo <= (lo + hi) / 2 < hi) as Hmid.
    { split; [apply Z.div_le_lower_bound|apply Z.div_lt_upper_bound]; lia. }
    destruct (at_index_some arr ((lo + hi) / 2) ltac:(lia)) as [x Hx].
    rewrite Hx. destruct (Z.ltb_spec x value) as [Hxv|Hxv].
    + destruct (IH ((lo + hi) / 2 + 1) hi) as (b & Hb & Hr & Hw); try lia.
      exists b. split; [exact Hb|]. split; [lia|]. right.
      destruct Hw as [->|Hw]; [|exact Hw].
      exists x. split; [|exact Hxv]. rewrite <- Hx. f_equal. lia.
    + destruct (IH lo ((lo + hi) / 2)) as (b & Hb & Hr & Hw); try lia.
      exists b. split; [exact Hb|]. split; [lia|exact Hw].
Qed.

Section WindowSelector.

Import SentenceChunker.

Variable self : SentenceChunker.t.
Variable sentences : list Sentence.
Hypothesis self_valid : valid self.
Hypothesis few_sentences : len sentences + 1 < 2 ^ 31.

Let N : Z := len sentences.
Let tokenSums : list Z := tokenSums_from 0 sentences.

Lemma chunkSize_pos : 0 < chunkSize self.
Proof. destruct self_valid as (H & _). exact H. Qed.

Lemma minSentences_pos : 0 < minSentencesPerChunk self.
Proof. destruct self_valid as (_ & _ & H & _). exact H. Qed.

(** The split index lies beyond [pos] and within the sentences; it falls
    short of the minimum only at the very end, with a warning; and a
    window longer than the minimum stays strictly below the budget. *)
Lemma select_split_spec (pos : Z) :
  0 <= pos < N ->
  exists splitIdx w,
    select_split self sentences tokenSums pos = Ok (splitIdx, w)
    /\ pos < splitIdx <= N
    /\ (minSentencesPerChunk self <= splitIdx - pos /\ w = []
        \/ splitIdx = N /\ splitIdx - pos < minSentencesPerChunk self
           /\ w = [MinSentencesNotMet (minSentencesPerChunk self) (N - pos)])
    /\ (splitIdx - pos <= minSentencesPerChunk self
        \/ total_tokens (slice sentences pos splitIdx) < chunkSize self).
Proof.
  intros Hpos. unfold select_split.
  pose proof (tokenSums_length 0 sentences) as Hlen. fold tokenSums in Hlen. fold N in Hlen.
  destruct (bisect_loop_spec tokenSums (num_at tokenSums pos + chunkSize self)
              ltac:(unfold N in *; lia) (length tokenSums) pos (len tokenSums))
    as (b & Hb & Hr & Hw); try (unfold len; lia).
  unfold _bisectLeft. rewrite Hb. simpl bind. fold N.
  pose proof minSentences_pos as Hmin.
  rewrite Z.max_r in Hr by lia.
  destruct (Z.ltb_spec (Z.max (Z.min (b - 1) N) (pos + 1) - pos) (minSentencesPerChunk self))
    as [Hshort|Hlong].
  - destruct (Z.leb_spec (pos + minSentencesPerChunk self) N) as [Hfit|Hnofit].
    + exists (pos + minSentencesPerChunk self), []. split; [reflexivity|].
      split; [lia|]. split; [left; split; [lia|reflexivity]|left; lia].
    + exists N, [MinSentencesNotMet (minSentencesPerChunk self) (N - pos)].
      split; [reflexivity|]. split; [lia|]. split; [right|left; lia].
      repeat split; lia.
  - exists (Z.max (Z.min (b - 1) N) (pos + 1)), []. split; [reflexivity|].
    split; [lia|]. split; [left; split; [lia|reflexivity]|].
    destruct (Z.le_gt_cases (b - 1) (pos + 1)) as [Hone|Hmany].
    + left. lia.
    + right. rewrite Z.min_l by lia. rewrite Z.max_l by lia.
      destruct Hw as [->|(x & Hx & Hxv)]; [lia|].
      rewrite <- tokenSums_diff by (fold N; lia). fold tokenSums.
      unfold num_at at 1. rewrite Hx. lia.
Qed.

Lemma overlap_loop_spec (pos : Z) :
  0 <= pos ->
  forall (fuel : nat) (overlapTokens overlapIdx : Z),
    pos <= overlapIdx < N -> (Z.to_nat (overlapIdx - pos) <= fuel)%nat ->
    exists o,
      overlap_loop fuel self sentences pos overlapTokens overlapIdx = Ok o
      /\ pos <= o <= overlapIdx.
Proof.
  intros Hpos. induction fuel as [|fuel IH]; intros tokens idx Hidx Hfuel.
  - simpl. destruct (Z.gtb_spec idx pos); [lia|]. simpl.
    exists idx. split; [reflexivity|lia].
  - simpl. destruct (Z.gtb_spec idx pos) as [Hgt|Hle]; simpl.
    2:{ exists idx. split; [reflexivity|lia]. }
    destruct (tokens <? chunkOverlap self).
    2:{ exists idx. split; [reflexivity|lia]. }
    destruct (at_index_some sentences idx ltac:(fold N; lia)) as [sent Hs].
    rewrite Hs.
    destruct (tokens + s_tokenCount sent + 1 >? chunkOverlap self).
    + exists idx. split; [reflexivity|lia].
    + destruct (IH (tokens + s_tokenCount sent + 1) (idx - 1)) as (o & Ho & Hr); try lia.
      exists o. split; [exact Ho|lia].
Qed.

(** The cursor moves forward, and without overlap to the split index. *)
Lemma next_pos_spec (pos splitIdx : Z) :
  0 <= pos < splitIdx -> splitIdx <= N ->
  exists pos',
    next_pos self sentences pos splitIdx = Ok pos'
    /\ pos < pos' <= splitIdx
    /\ (chunkOverlap self = 0 \/ splitIdx = N -> pos' = splitIdx).
Proof.
  intros Hpos Hs. unfold next_pos. fold N.
  destruct (Z.gtb_spec (chunkOverlap self) 0) as [Hov|Hov];
    destruct (Z.ltb_spec splitIdx N) as [Hin|Hend]; simpl andb; cbv iota;
    try (exists splitIdx; split; [reflexivity|]; split; [lia|reflexivity]).
  destruct (overlap_loop_spec pos ltac:(lia) (length sentences) 0 (splitIdx - 1))
    as (o & Ho & Hr); try (unfold N, len in *; lia).
  rewrite Ho. simpl bind. exists (o + 1). split; [reflexivity|].
  split; [lia|]. intros [H|H]; lia.
Qed.

(** The chunk made of the sentences from [pos] up to [splitIdx]. *)
Lemma createChunk_spec (pos splitIdx : Z) :
  0 <= pos < splitIdx -> splitIdx <= N ->
  exists c,
    _createChunk self (slice sentences pos splitIdx) = Ok c
    /\ sc_sentences c = slice sentences pos splitIdx
    /\ sc_text c = concat (map s_text (slice sentences pos splitIdx))
    /\ sc_tokenCount c
       = countTokens (tokenizer self) (concat (map s_text (slice sentences pos splitIdx)))
    /\ (exists first, at_index sentences pos = Some first
                      /\ sc_startIndex c = s_startIndex first)
    /\ (exists last, at_index sentences (splitIdx - 1) = Some last
                     /\ sc_endIndex c = s_endIndex last).
Proof.
  intros Hpos Hs. unfold _createChunk.
  rewrite slice_length by (fold N; lia).
  rewrite !at_index_slice by (fold N; lia).
  replace (pos + 0) with pos by lia.
  replace (pos + (splitIdx - pos - 1)) with (splitIdx - 1) by lia.
  destruct (at_index_some sentences pos ltac:(fold N; lia)) as [first Hf].
  destruct (at_index_some sentences (splitIdx - 1) ltac:(fold N; lia)) as [last Hl].
  rewrite Hf, Hl. rewrite join_empty.
  eexists. split; [reflexivity|]. simpl. repeat split; eauto.
Qed.

End WindowSelector.

(** ** Runs of the main loop *)

Section Loop.

Import SentenceChunker.

Variable self : SentenceChunker.t.
Variable sentences : list Sentence.
Hypothesis self_valid : valid self.
Hypothesis few_sentences : len sentences + 1 < 2 ^ 31.

(** What one iteration establishes. *)
Lemma step_facts (pos splitIdx pos' : Z) (w : list warning) (c : SentenceChunk) :
  0 <= pos < (len sentences) ->
  select_split self sentences (tokenSums_from 0 sentences) pos = Ok (splitIdx, w) ->
  _createChunk self (slice sentences pos splitIdx) = Ok c ->
  next_pos self sentences pos splitIdx = Ok pos' ->
  (pos < splitIdx <= (len sentences) /\ pos < pos' <= splitIdx)
  /\ (chunkOverlap self = 0 \/ splitIdx = (len sentences) -> pos' = splitIdx)
  /\ (minSentencesPerChunk self <= splitIdx - pos /\ w = []
      \/ splitIdx = (len sentences) /\ splitIdx - pos < minSentencesPerChunk self
         /\ w = [MinSentencesNotMet (minSentencesPerChunk self) ((len sentences) - pos)])
  /\ (splitIdx - pos <= minSentencesPerChunk self
      \/ total_tokens (slice sentences pos splitIdx) < chunkSize self)
  /\ sc_sentences c = slice sentences pos splitIdx
  /\ sc_text c = concat (map s_text (slice sentences pos splitIdx))
  /\ sc_tokenCount c
     = countTokens (tokenizer self) (concat (map s_text (slice sentences pos splitIdx)))
  /\ (exists first, at_index sentences pos = Some first
                    /\ sc_startIndex c = s_startIndex first)
  /\ (exists last, at_index sentences (splitIdx - 1) = Some last
                   /\ sc_endIndex c = s_endIndex last).
Proof.
  intros Hpos Hsel Hmk Hnext.
  destruct (select_split_spec self sentences self_valid few_sentences pos Hpos)
    as (s0 & w0 & E1 & Hb & Hmin & Hbud).
  rewrite Hsel in E1. inv E1.
  destruct (next_pos_spec self sentences pos s0 ltac:(lia) ltac:(lia))
    as (p0 & E2 & Hp & Hno).
  rewrite Hnext in E2. inv E2.
  destruct (createChunk_spec self sentences pos s0 ltac:(lia) ltac:(lia))
    as (c0 & E3 & Hc).
  rewrite Hmk in E3. inv E3.
  repeat (split; [tauto|]). tauto.
Qed.

(** The loop runs to its end on the fuel [chunk] gives it. *)
Lemma chunk_loop_run :
  forall (fuel : nat) (pos : Z) (chunks : list SentenceChunk) (warnings : list warning),
    0 <= pos -> (Z.to_nat ((len sentences) - pos) <= fuel)%nat ->
    exists steps ws,
      Run self sentences pos steps ws
      /\ chunk_loop fuel self sentences (tokenSums_from 0 sentences) pos chunks warnings
         = Ok (chunks ++ chunks_of steps, warnings ++ ws).
Proof.
  induction fuel as [|fuel IH]; intros pos chunks warnings Hpos Hfuel.
  - exists [], []. split; [constructor; lia|].
    simpl. destruct (Z.ltb_spec pos (len sentences)); [lia|].
    now rewrite !app_nil_r.
  - simpl. destruct (Z.ltb_spec pos (len sentences)) as [Hlt|Hge].
    2:{ exists [], []. split; [now constructor|]. now rewrite !app_nil_r. }
    destruct (select_split_spec self sentences self_valid few_sentences pos ltac:(lia))
      as (s0 & w0 & E1 & Hb & _).
    destruct (createChunk_spec self sentences pos s0 ltac:(lia) ltac:(lia))
      as (c0 & E2 & _).
    destruct (next_pos_spec self sentences pos s0 ltac:(lia) ltac:(lia))
      as (p0 & E3 & Hp & _).
    rewrite E1. simpl bind. rewrite E2. simpl bind. rewrite E3. simpl bind.
    destruct (IH p0 (chunks ++ [c0]) (warnings ++ w0)) as (steps & ws & HR & E4);
      try lia.
    exists ((pos, s0, c0) :: steps), (w0 ++ ws). split.
    + econstructor; eauto.
    + rewrite E4. unfold chunks_of. simpl map. now rewrite <- !app_assoc.
Qed.

End Loop.

(** [chunk] returns, and what it returns is a run from cursor 0 over the
    prepared sentences (or nothing at all for a blank text). *)
Lemma chunk_run (self : SentenceChunker.t) (text : jsstring) :
  SentenceChunker.valid self -> len text + 1 < 2 ^ 31 ->
  exists steps ws,
    SentenceChunker.chunk self text = Ok (chunks_of steps, ws)
    /\ (String_trim text = [] /\ steps = [] /\ ws = []
        \/ String_trim text <> []
           /\ Run self (SentenceChunker._prepareSentences self text) 0 steps ws).
Proof.
  intros Hv Hsmall. unfold SentenceChunker.chunk.
  destruct (String_trim text) as [|c0 rest] eqn:Et.
  - exists [], []. split; [reflexivity|]. left. auto.
  - simpl is_empty. cbv iota.
    destruct (SentenceChunker._prepareSentences self text) as [|s0 ss] eqn:Es.
    + exists [], []. split; [reflexivity|]. right. split; [congruence|].
      constructor. cbv. discriminate.
    + simpl is_empty. cbv iota.
      pose proof (prepare_count self Hv text) as Hc. rewrite Es in Hc.
      destruct (chunk_loop_run self (s0 :: ss) Hv ltac:(lia) (length (s0 :: ss)) 0 [] [])
        as (steps & ws & HR & E); [lia|unfold len; lia|].
      exists steps, ws. split; [exact E|]. right. split; [congruence|exact HR].
Qed.

(** ** What holds of every run *)

Section Runs.

Import SentenceChunker.

Variable self : SentenceChunker.t.
Variable sentences : list Sentence.
Hypothesis self_valid : valid self.
Hypothesis few_sentences : len sentences + 1 < 2 ^ 31.

Lemma Run_bounds (pos : Z) steps ws :
  Run self sentences pos steps ws -> 0 <= pos ->
  Forall (fun st => pos <= fst (fst st)) steps.
Proof.
  induction 1 as [pos Hge|pos s pos' w ws c steps Hpos Hsel Hmk Hnext HR IH];
    intros H0; [constructor|].
  destruct (step_facts self sentences self_valid few_sentences _ _ _ _ _ Hpos Hsel Hmk Hnext)
    as ((Hs & Hp) & _).
  constructor; [simpl; lia|].
  eapply Forall_impl; [|apply IH; lia]. simpl. intros st Hst. lia.
Qed.

(** A property every iteration establishes holds of every step. *)
Lemma Run_Forall (P : Z * Z * SentenceChunk -> Prop) :
  (forall pos splitIdx pos' w c,
      0 <= pos < len sentences ->
      select_split self sentences (tokenSums_from 0 sentences) pos = Ok (splitIdx, w) ->
      _createChunk self (slice sentences pos splitIdx) = Ok c ->
      next_pos self sentences pos splitIdx = Ok pos' ->
      P (pos, splitIdx, c)) ->
  forall pos steps ws, Run self sentences pos steps ws -> Forall P steps.
Proof.
  intros HP. induction 1; constructor; eauto.
Qed.

(** Without overlap the chunk texts are the sentence texts, in order. *)
Lemma Run_texts (pos : Z) steps ws :
  Run self sentences pos steps ws -> chunkOverlap self = 0 -> 0 <= pos ->
  concat (map sc_text (chunks_of steps))
  = concat (map s_text (skipn (Z.to_nat pos) sentences)).
Proof.
  induction 1 as [pos Hge|pos s pos' w ws c steps Hpos Hsel Hmk Hnext HR IH];
    intros Hov H0.
  - rewrite skipn_all2 by (unfold len in Hge; lia). reflexivity.
  - destruct (step_facts self sentences self_valid few_sentences _ _ _ _ _ Hpos Hsel Hmk Hnext)
      as ((Hs & Hp) & Hno & _ & _ & _ & Htext & _).
    rewrite (Hno (or_introl Hov)) in IH.
    unfold chunks_of in *. simpl map. simpl concat. rewrite IH by lia.
    rewrite Htext. rewrite (slice_skipn sentences pos s) by lia.
    now rewrite map_app, concat_app.
Qed.





(** Where the chunks start and end. *)
Lemma Run_offsets (pos : Z) steps ws :
  laid_out 0 sentences ->
  Run self sentences pos steps ws ->
  Forall (fun st =>
            let '(p, s, c) := st in
            0 <= p < s /\ s <= len sentences
            /\ sc_startIndex c = extent (firstn (Z.to_nat p) sentences)
            /\ sc_endIndex c = extent (firstn (Z.to_nat s) sentences)) steps.
Proof.
  intros Hlay. apply Run_Forall. intros p s p' w c Hpos Hsel Hmk Hnext.
  destruct (step_facts self sentences self_valid few_sentences _ _ _ _ _ Hpos Hsel Hmk Hnext)
    as ((Hs & Hp) & _ & _ & _ & _ & _ & _ & (first & Hf & Hst) & (last & Hl & Hen)).
  split; [lia|]. split; [lia|].
  unfold at_index in Hf, Hl.
  destruct (Z.ltb_spec p 0); [lia|]. destruct (Z.ltb_spec (s - 1) 0); [lia|].
  destruct (laid_out_at _ _ _ _ Hlay Hf) as (H1 & _).
  destruct (laid_out_at _ _ _ _ Hlay Hl) as (_ & H2 & _).
  rewrite Hst, Hen, H1, H2. split; [lia|].
  replace (S (Z.to_nat (s - 1))) with (Z.to_nat s) by lia. lia.
Qed.

End Runs.

(* ================================================================== *)
(** * The character tokenizer keeps the tokenizer contracts *)




Lemma slice_decompose {A : Type} (l : list A) (p s : Z) :
  0 <= p <= s -> s <= len l ->
  l = firstn (Z.to_nat p) l ++ slice l p s ++ skipn (Z.to_nat s) l.
Proof.
  intros Hp Hs. rewrite <- (slice_skipn l p s) by lia. now rewrite firstn_skipn.
Qed.

Lemma Sorted_map_steps {A B : Type} (R1 : A -> A -> Prop) (R2 : B -> B -> Prop)
    (Q : A -> Prop) (f : A -> B) (l : list A) :
  (forall a b, Q a -> Q b -> R1 a b -> R2 (f a) (f b)) ->
  Sorted R1 l -> Forall Q l -> Sorted R2 (map f l).
Proof.
  intros HR. induction 1 as [|a l Hs IH Hhd]; intros HQ; simpl; [constructor|].
  inversion HQ as [|a' l' Qa Ql]; subst. constructor; [now apply IH|].
  destruct Hhd as [|b l Hab]; simpl; constructor.
  inversion Ql; subst. now apply HR.
Qed.

Lemma Run_sorted (self : SentenceChunker.t) (sentences : list Sentence) :
  SentenceChunker.valid self -> len sentences + 1 < 2 ^ 31 ->
  forall pos steps ws,
    Run self sentences pos steps ws -> 0 <= pos ->
    Sorted (fun a b => fst (fst a) < fst (fst b)) steps.
Proof.
  intros Hv Hfew. induction 1 as [pos Hge|pos s pos' w ws c steps Hpos Hsel Hmk Hnext HR IH];
    intros H0; [constructor|].
  destruct (step_facts self sentences Hv Hfew _ _ _ _ _ Hpos Hsel Hmk Hnext)
    as ((Hs & Hp) & _).
  constructor; [apply IH; lia|].
  pose proof (Run_bounds self sentences Hv Hfew _ _ _ HR ltac:(lia)) as Hb.
  destruct steps as [|st steps]; constructor.
  inversion Hb; subst. simpl in *. lia.
Qed.

(* ================================================================== *)
(** * C2: the window selection example *)

(** C2, as stated, fails.  With sentences of 3, 4, 5 and 2 tokens,
    [chunkSize = 7], [minSentencesPerChunk = 1] and no overlap,
    [SentenceChunker.chunk] does not return the three chunks of 3+4, 5
    and 2 tokens: the first chunk holds sentence 0 alone. *)
Lemma C2_window_example_refuted :
  map s_tokenCount (SentenceChunker._prepareSentences chunker_7 text_3452) = [3; 4; 5; 2]
  /\ windows_of (SentenceChunker.chunk chunker_7 text_3452) <> [[3; 4]; [5]; [2]]
  /\ hd [] (windows_of (SentenceChunker.chunk chunker_7 text_3452)) = [3].
Proof. vm_compute. repeat split; congruence. Qed.

(** C2, amended.  For sentences with token counts 3, 4, 5, 2 (whatever
    their texts, offsets and tokenizer), [chunkSize = 7],
    [minSentencesPerChunk = 1] and no overlap, the loop of
    [SentenceChunker.chunk] returns four chunks of one sentence each: the
    binary search takes the last prefix sum strictly below
    [tokenSums[pos] + chunkSize], so a window whose sum equals the budget
    is not taken.  The text ["a. bb. ccc. dd"] is an instance. *)
Theorem C2_window_example (tk : Tokenizer) (t0 t1 t2 t3 : jsstring)
    (a0 a1 a2 a3 b0 b1 b2 b3 : Z) (delim : list jsstring) (inc : option jsstring) :
  let sentences := [mkSentence t0 a0 b0 3; mkSentence t1 a1 b1 4;
                    mkSentence t2 a2 b2 5; mkSentence t3 a3 b3 2] in
  let self := sentence_chunker tk 7 0 1 1 delim inc in
  SentenceChunker._bisectLeft (SentenceChunker.tokenSums_from 0 sentences) 7 0 = Ok 2
  /\ windows_of (SentenceChunker.chunk_loop 4 self sentences
                   (SentenceChunker.tokenSums_from 0 sentences) 0 [] [])
     = [[3]; [4]; [5]; [2]]
  /\ windows_of (SentenceChunker.chunk chunker_7 text_3452) = [[3]; [4]; [5]; [2]].
Proof. intros sentences self. repeat split; reflexivity. Qed.

(* ================================================================== *)
(** * C3: sentence atomicity *)




(* ================================================================== *)
(** * C4: reconstruction *)

(** C4, as stated, fails in two ways, both with the policy ['prev'] and
    a text free of the sentinel.  A blank text yields no chunk at all, so
    nothing of it is reproduced; and with [chunkOverlap > 0] consecutive
    chunks share sentences, which the concatenation then repeats. *)
Lemma C4_reconstruction_refuted :
  (~ In 9988%N (js "   ")
   /\ concat (texts_of (SentenceChunker.chunk chunker_7 (js "   "))) <> js "   ")
  /\ (~ In 9988%N text_3452
      /\ concat (texts_of (SentenceChunker.chunk chunker_overlap text_3452))
         = js "a. bb. bb. ccc. dd"
      /\ concat (texts_of (SentenceChunker.chunk chunker_overlap text_3452)) <> text_3452).
Proof.
  vm_compute. repeat split; try congruence; intros H;
    repeat (destruct H as [H|H]; [discriminate|]); exact H.
Qed.

(** C4, amended.  For a text that is not blank and does not contain the
    sentinel, with the policy ['prev'] and [chunkOverlap = 0], the texts
    of the chunks returned by [SentenceChunker.chunk], concatenated in
    order, are the text. *)
Theorem C4_reconstruction (self : SentenceChunker.t) (text : jsstring) :
  SentenceChunker.valid self -> len text + 1 < 2 ^ 31 ->
  SentenceChunker.includeDelim self = Some (js "prev") ->
  SentenceChunker.chunkOverlap self = 0 ->
  ~ In 9988%N text ->
  String_trim text <> [] ->
  exists chunks ws,
    SentenceChunker.chunk self text = Ok (chunks, ws)
    /\ concat (map sc_text chunks) = text.
Proof.
  intros Hv Hsmall Hprev Hov Hsent Hblank.
  destruct (chunk_run self text Hv Hsmall) as (steps & ws & E & [(Ht & _)|(_ & HR)]);
    [congruence|].
  exists (chunks_of steps), ws. split; [exact E|].
  assert (len (SentenceChunker._prepareSentences self text) + 1 < 2 ^ 31) as Hfew.
  { pose proof (prepare_count self Hv text). lia. }
  rewrite (Run_texts self _ Hv Hfew _ _ _ HR Hov) by lia.
  simpl skipn. rewrite prepare_texts, splitText_concat by exact Hv.
  rewrite marked_prev by (try exact Hv; rewrite Hprev; reflexivity).
  now apply strip_absent.
Qed.

Lemma C4_reconstruction_witness :
  exists chunks ws,
    SentenceChunker.chunk chunker_7 text_3452 = Ok (chunks, ws)
    /\ concat (map sc_text chunks) = text_3452.
Proof.
  apply (C4_reconstruction chunker_7 text_3452).
  - valid_config.
  - vm_compute. reflexivity.
  - reflexivity.
  - reflexivity.
  - vm_compute. intros H. repeat (destruct H as [H|H]; [discriminate|]). exact H.
  - vm_compute. discriminate.
Defined.

(* ================================================================== *)
(** * C5: the minimum of sentences *)



(* ================================================================== *)
(** * Offsets and termination of the sentence pipeline *)

(** Every chunk of the sentence pipeline is a non-empty range, and the
    chunks start at strictly increasing offsets. *)
Lemma sentence_offsets (self : SentenceChunker.t) (text : jsstring) :
  SentenceChunker.valid self -> len text + 1 < 2 ^ 31 ->
  exists chunks ws,
    SentenceChunker.chunk self text = Ok (chunks, ws)
    /\ Forall (fun c => sc_startIndex c < sc_endIndex c) chunks
    /\ Sorted (fun c d => sc_startIndex c < sc_startIndex d) chunks.
Proof.
  intros Hv Hsmall.
  destruct (chunk_run self text Hv Hsmall) as (steps & ws & E & [(_ & -> & _)|(_ & HR)]).
  - exists [], ws. split; [exact E|]. split; constructor.
  - exists (chunks_of steps), ws. split; [exact E|].
    set (sentences := SentenceChunker._prepareSentences self text) in *.
    assert (len sentences + 1 < 2 ^ 31) as Hfew.
    { pose proof (prepare_count self Hv text). fold sentences in H. lia. }
    pose proof (prepare_layout self text) as Hlay. fold sentences in Hlay.
    pose proof (Run_offsets self sentences Hv Hfew _ _ _ Hlay HR) as Hoff.
    split.
    + unfold chunks_of. apply Forall_map. eapply Forall_impl; [|exact Hoff].
      intros [[p s] c] (Hp & Hs & Hst & Hen). simpl. rewrite Hst, Hen.
      apply (extent_firstn_lt sentences 0); [exact Hlay|lia|lia].
    + unfold chunks_of.
      eapply Sorted_map_steps;
        [|exact (Run_sorted self sentences Hv Hfew _ _ _ HR ltac:(lia))|exact Hoff].
      intros [[p s] c] [[p' s'] c'] (Hp & Hs & Hst & Hen) (Hp' & Hs' & Hst' & Hen') Hlt.
      simpl in *. rewrite Hst, Hst'.
      apply (extent_firstn_lt sentences 0); [exact Hlay|lia|lia].
Qed.

(** On every iteration of the loop the cursor moves strictly forward
    and stays within the sentences. *)
Lemma sentence_cursor_advances (self : SentenceChunker.t) (sentences : list Sentence)
    (pos : Z) :
  SentenceChunker.valid self -> len sentences + 1 < 2 ^ 31 ->
  0 <= pos < len sentences ->
  exists splitIdx w c pos',
    SentenceChunker.select_split self sentences
      (SentenceChunker.tokenSums_from 0 sentences) pos = Ok (splitIdx, w)
    /\ SentenceChunker._createChunk self (slice sentences pos splitIdx) = Ok c
    /\ SentenceChunker.next_pos self sentences pos splitIdx = Ok pos'
    /\ pos < pos' <= len sentences.
Proof.
  intros Hv Hfew Hpos.
  destruct (select_split_spec self sentences Hv Hfew pos Hpos) as (s & w & E1 & Hs & _).
  destruct (createChunk_spec self sentences pos s ltac:(lia) ltac:(lia)) as (c & E2 & _).
  destruct (next_pos_spec self sentences pos s ltac:(lia) ltac:(lia)) as (p' & E3 & Hp & _).
  exists s, w, c, p'. repeat split; auto; lia.
Qed.

(* ================================================================== *)
(** * RecursiveChunker: every call returns *)

Lemma slice_clamped {A : Type} (l : list A) (s e : Z) :
  0 <= s <= len l -> s <= e ->
  slice l s e = firstn (Z.to_nat (Z.min e (len l) - s)) (skipn (Z.to_nat s) l).
Proof.
  intros Hs He. unfold slice, rel_index.
  destruct (Z.ltb_spec s 0); [lia|]. destruct (Z.ltb_spec e 0); [lia|].
  now rewrite (Z.min_l s) by lia.
Qed.

(** The windows cut the encoding from [i] on into non-empty pieces. *)
Lemma token_windows_spec (encoded : list Z) (chunkSize : Z) :
  0 < chunkSize ->
  forall (fuel : nat) (i : Z) (tokenSplits : list (list Z)),
    0 <= i -> (Z.to_nat (len encoded - i) <= fuel)%nat ->
    exists windows,
      RecursiveChunker.token_windows fuel encoded chunkSize i tokenSplits
      = Ok (tokenSplits ++ windows)
      /\ Forall (fun x => x <> [] /\ len x <= chunkSize) windows
      /\ concat windows = skipn (Z.to_nat i) encoded.
Proof.
  intros Hcs. induction fuel as [|fuel IH]; intros i acc Hi Hfuel.
  - simpl. destruct (Z.ltb_spec i (len encoded)); [lia|].
    exists []. rewrite app_nil_r. repeat split; [constructor|].
    rewrite skipn_all2 by (unfold len in *; lia). reflexivity.
  - simpl. destruct (Z.ltb_spec i (len encoded)) as [Hlt|Hge].
    2:{ exists []. rewrite app_nil_r. repeat split; [constructor|].
        rewrite skipn_all2 by (unfold len in *; lia). reflexivity. }
    destruct (IH (i + chunkSize) (acc ++ [slice encoded i (i + chunkSize)]))
      as (ws & E & Hne & Hcat); try lia.
    exists (slice encoded i (i + chunkSize) :: ws).
    rewrite E, <- app_assoc. split; [reflexivity|].
    assert (slice encoded i (i + chunkSize)
            = firstn (Z.to_nat (Z.min (i + chunkSize) (len encoded) - i))
                     (skipn (Z.to_nat i) encoded)) as Hsl
        by (apply slice_clamped; lia).
    split.
    + constructor; [|exact Hne]. rewrite Hsl. split.
      * intros Hnil. apply (f_equal (@length Z)) in Hnil.
        rewrite length_firstn, length_skipn in Hnil. unfold len in *. simpl in Hnil. lia.
      * unfold len. rewrite length_firstn, length_skipn. unfold len in *. lia.
    + simpl concat. rewrite Hcat, Hsl.
      destruct (Z.le_gt_cases (i + chunkSize) (len encoded)) as [Hin|Hout].
      * rewrite Z.min_l by lia.
        replace (Z.to_nat (i + chunkSize)) with (Z.to_nat (i + chunkSize - i) + Z.to_nat i)%nat
          by lia.
        rewrite <- skipn_skipn. apply firstn_skipn.
      * rewrite Z.min_r by lia.
        rewrite (skipn_all2 encoded (n := Z.to_nat (i + chunkSize)))
          by (unfold len in *; lia).
        rewrite app_nil_r. apply firstn_all2.
        rewrite length_skipn. unfold len in *. lia.
Qed.

Section RecursiveReturns.

Import RecursiveChunker.

Variable w : ChunkModule.
Variable self : RecursiveChunker.t.
Hypothesis chunkSize_pos : 0 < chunkSize self.

Lemma splitText_returns (text : jsstring) (level : RecursiveLevel) :
  exists splits, splitText w self text level = Ok splits.
Proof.
  unfold splitText. destruct (whitespace level); [eauto|].
  destruct (truthy_delimiters (delimiters level)); [eauto|].
  destruct (token_windows_spec (encode (tokenizer self) text) (chunkSize self)
              chunkSize_pos (length (encode (tokenizer self) text)) 0 [])
    as (ws & E & _); [lia|unfold len; lia|].
  rewrite E. simpl. eauto.
Qed.

Lemma mergeSplits_returns (splits : list jsstring) (tokenCounts : list Z)
    (combineWhitespace : bool) :
  len splits = len tokenCounts ->
  exists r, mergeSplits w self splits tokenCounts combineWhitespace = Ok r.
Proof.
  intros Hlen. unfold mergeSplits.
  destruct (is_empty splits || is_empty tokenCounts); [eauto|].
  rewrite Hlen, Z.eqb_refl. simpl negb. cbv iota.
  destruct (forallb _ tokenCounts); eauto.
Qed.

Lemma split_and_merge_returns (text : jsstring) (currRule : RecursiveLevel) :
  exists r, split_and_merge w self text currRule = Ok r.
Proof.
  unfold split_and_merge.
  destruct (splitText_returns text currRule) as (splits & ->). simpl bind.
  assert (len splits = len (map (estimateTokenCount self) splits)) as Hlen
    by (unfold len; now rewrite length_map).
  destruct (is_empty_opt (delimiters currRule) && negb (whitespace currRule)); [eauto|].
  destruct (is_empty_opt (delimiters currRule) && whitespace currRule).
  - destruct (mergeSplits_returns splits _ true Hlen) as ([m c] & ->). simpl. eauto.
  - apply mergeSplits_returns. exact Hlen.
Qed.

Lemma process_merged_returns (recurse : jsstring -> Z -> result (list Chunk)) :
  (forall split offset, exists r, recurse split offset = Ok r) ->
  forall merged counts i offset chunks,
    exists r, process_merged recurse self merged counts i offset chunks = Ok r.
Proof.
  intros Hrec. induction merged as [|split rest IH]; intros counts i offset chunks.
  - simpl. eauto.
  - simpl. destruct (num_at counts i >? chunkSize self).
    + destruct (Hrec split offset) as (r & ->). simpl. apply IH.
    + simpl. apply IH.
Qed.

(** With more fuel than levels left, [recursiveChunk] returns a value. *)
Lemma recursiveChunk_returns :
  forall (fuel : nat) (text : jsstring) (level startOffset : Z),
    0 <= level -> (Z.to_nat (len (rules self) - level) < fuel)%nat ->
    exists chunks, recursiveChunk fuel w self text level startOffset = Ok chunks.
Proof.
  induction fuel as [|fuel IH]; intros text level off Hl Hfuel; [lia|].
  simpl. destruct (is_empty text); [eauto|].
  destruct (Z.geb_spec level (len (rules self))) as [Hbase|Hin]; [eauto|].
  unfold getLevel. destruct (at_index_some (rules self) level ltac:(lia)) as (rule & ->).
  destruct (split_and_merge_returns text rule) as ([merged counts] & ->). simpl bind.
  apply process_merged_returns. intros split offset. apply IH; lia.
Qed.

End RecursiveReturns.

(* ================================================================== *)
(** * C9: termination *)

(** C9.  In the loop of [SentenceChunker.chunk] every iteration moves
    the cursor [pos] strictly forward (the overlap walk never brings it
    back to the current [pos]), so [chunk] returns for every text; and
    [recursiveChunk] returns whenever it has more fuel than levels are
    left, a level at or beyond the depth needing a single call, so
    [RecursiveChunker.chunk] returns for every text. *)
Theorem C9_termination :
  (forall (self : SentenceChunker.t) (sentences : list Sentence) (pos : Z),
      SentenceChunker.valid self -> len sentences + 1 < 2 ^ 31 ->
      0 <= pos < len sentences ->
      exists splitIdx w c pos',
        SentenceChunker.select_split self sentences
          (SentenceChunker.tokenSums_from 0 sentences) pos = Ok (splitIdx, w)
        /\ SentenceChunker._createChunk self (slice sentences pos splitIdx) = Ok c
        /\ SentenceChunker.next_pos self sentences pos splitIdx = Ok pos'
        /\ pos < pos' <= len sentences)
  /\ (forall (self : SentenceChunker.t) (text : jsstring),
         SentenceChunker.valid self -> len text + 1 < 2 ^ 31 ->
         exists chunks ws, SentenceChunker.chunk self text = Ok (chunks, ws))
  /\ (forall (w : ChunkModule) (self : RecursiveChunker.t) (fuel : nat)
             (text : jsstring) (level startOffset : Z),
         0 < RecursiveChunker.chunkSize self -> 0 <= level ->
         (Z.to_nat (len (RecursiveChunker.rules self) - level) < fuel)%nat ->
         exists chunks,
           RecursiveChunker.recursiveChunk fuel w self text level startOffset = Ok chunks)
  /\ (forall (w : ChunkModule) (self : RecursiveChunker.t) (text : jsstring)
             (level startOffset : Z),
         len (RecursiveChunker.rules self) <= level ->
         exists chunks,
           RecursiveChunker.recursiveChunk 1 w self text level startOffset = Ok chunks)
  /\ (forall (w : ChunkModule) (self : RecursiveChunker.t) (text : jsstring),
         0 < RecursiveChunker.chunkSize self ->
         exists chunks, RecursiveChunker.chunk w self text = Ok chunks).
Proof.
  split; [exact sentence_cursor_advances|]. split; [|split; [|split]].
  - intros self text Hv Hsmall.
    destruct (chunk_run self text Hv Hsmall) as (steps & ws & E & _). eauto.
  - intros w self fuel text level off Hcs Hl Hfuel.
    now apply recursiveChunk_returns.
  - intros w self text level off Hbase. simpl.
    destruct (is_empty text); [eauto|].
    destruct (Z.geb_spec level (len (RecursiveChunker.rules self))); [eauto|lia].
  - intros w self text Hcs. unfold RecursiveChunker.chunk.
    apply recursiveChunk_returns; [exact Hcs|lia|unfold len; lia].
Qed.

Lemma C9_termination_witness :
  (exists chunks ws, SentenceChunker.chunk chunker_overlap text_3452 = Ok (chunks, ws))
  /\ (exists chunks,
         RecursiveChunker.chunk idle_module
           (recursive_chunker characterTokenizer 5
              [RecursiveChunker.whitespace_level; RecursiveChunker.token_level])
           (js "abcdefghijkl mnop") = Ok chunks).
Proof.
  split.
  - apply (proj1 (proj2 C9_termination) chunker_overlap text_3452).
    + valid_config.
    + vm_compute. reflexivity.
  - apply (proj2 (proj2 (proj2 (proj2 C9_termination)))). reflexivity.
Defined.

(* ================================================================== *)
(** * C10: the token estimate *)

Lemma heuristic_floor (text : jsstring) :
  RecursiveChunker.heuristic text = Z.max 1 (2 * len text / 13).
Proof.
  unfold RecursiveChunker.heuristic, RecursiveChunker.CHARS_PER_TOKEN.
  f_equal. unfold Qfloor, Qdiv, Qmult, Qinv, inject_Z.
  cbn [Qnum Qden Pos.mul]. f_equal. lia.
Qed.

(** C10.  The length heuristic is [max(1, floor(length / 6.5))].  When
    it exceeds [chunkSize], [estimateTokenCount] is [chunkSize + 1]
    whatever the tokenizer is (it does not enter the result); otherwise it
    is the tokenizer's count.  So at a level at or beyond the depth, a
    non-empty text whose heuristic exceeds [chunkSize] becomes a single
    chunk reporting [tokenCount = chunkSize + 1]. *)
Theorem C10_estimate (tk : Tokenizer) (chunkSize : Z)
    (rules : RecursiveChunker.RecursiveRules) (minChars : Z) (text : jsstring) :
  let self := RecursiveChunker.mk tk chunkSize rules minChars in
  RecursiveChunker.heuristic text = Z.max 1 (2 * len text / 13)
  /\ (chunkSize < RecursiveChunker.heuristic text ->
      forall tk' : Tokenizer,
        RecursiveChunker.estimateTokenCount
          (RecursiveChunker.mk tk' chunkSize rules minChars) text = chunkSize + 1)
  /\ (RecursiveChunker.heuristic text <= chunkSize ->
      RecursiveChunker.estimateTokenCount self text = countTokens tk text)
  /\ (chunkSize < RecursiveChunker.heuristic text -> text <> [] ->
      forall (w : ChunkModule) (fuel : nat) (level startOffset : Z),
        len rules <= level ->
        RecursiveChunker.recursiveChunk (S fuel) w self text level startOffset
        = Ok [mkChunk text startOffset (startOffset + len text) (chunkSize + 1)]).
Proof.
  intros self. split; [apply heuristic_floor|]. split; [|split].
  - intros Hbig tk'. unfold RecursiveChunker.estimateTokenCount. simpl.
    destruct (Z.gtb_spec (RecursiveChunker.heuristic text) chunkSize); [reflexivity|lia].
  - intros Hsmall. unfold RecursiveChunker.estimateTokenCount. simpl.
    destruct (Z.gtb_spec (RecursiveChunker.heuristic text) chunkSize); [lia|reflexivity].
  - intros Hbig Hne w fuel level off Hbase. simpl.
    destruct text as [|c text']; [congruence|]. simpl is_empty. cbv iota.
    destruct (Z.geb_spec level (len rules)); [|lia].
    unfold RecursiveChunker.estimateTokenCount, RecursiveChunker.makeChunk. simpl.
    destruct (Z.gtb_spec (RecursiveChunker.heuristic (c :: text')) chunkSize);
      [reflexivity|lia].
Qed.

(** A text of 28 code units and two tokens, reported with 3 tokens when
    [chunkSize = 2]. *)
Lemma C10_estimate_witness :
  countTokens (vocabTokenizer [international]) (international ++ international) = 2
  /\ forall (w : ChunkModule) (fuel : nat) (level startOffset : Z),
      len (@nil RecursiveChunker.RecursiveLevel) <= level ->
      RecursiveChunker.recursiveChunk (S fuel) w
        (RecursiveChunker.mk (vocabTokenizer [international]) 2 [] 24)
        (international ++ international) level startOffset
      = Ok [mkChunk (international ++ international) startOffset
                    (startOffset + len (international ++ international)) (2 + 1)].
Proof.
  split; [reflexivity|].
  apply (proj2 (proj2 (proj2 (C10_estimate (vocabTokenizer [international]) 2 [] 24
                                (international ++ international))))).
  - vm_compute. reflexivity.
  - discriminate.
Defined.

(* ================================================================== *)
(** * C8: validation *)

(** A chunker the constructor returns is valid. *)
Lemma new_valid tk chunkSize chunkOverlap minSentences minCharacters approximate delim inc
    (self : SentenceChunker.t) (ws : list warning) :
  SentenceChunker.new tk chunkSize chunkOverlap minSentences minCharacters approximate
    delim inc = Ok (self, ws) ->
  SentenceChunker.valid self.
Proof.
  unfold SentenceChunker.new, SentenceChunker.valid.
  destruct (Z.leb_spec chunkSize 0); [discriminate|].
  destruct (Z.ltb_spec chunkOverlap 0); [discriminate|].
  destruct (Z.geb_spec chunkOverlap chunkSize); [discriminate|].
  destruct (Z.leb_spec minSentences 0); [discriminate|].
  destruct (Z.leb_spec minCharacters 0); [discriminate|].
  destruct delim as [d|]; [|discriminate].
  destruct (SentenceChunker.is_prev inc) eqn:Ep; simpl.
  - intros E. inv E. simpl. rewrite Ep. repeat split; auto; lia.
  - destruct (SentenceChunker.is_next inc) eqn:En; simpl.
    + intros E. inv E. simpl. rewrite Ep, En. repeat split; auto; lia.
    + destruct (SentenceChunker.is_null inc) eqn:Eu; simpl; [|discriminate].
      intros E. inv E. simpl. rewrite Ep, En, Eu. repeat split; auto; lia.
Qed.

Lemma new_recursive_valid tk chunkSize rules minCharacters (self : RecursiveChunker.t) :
  RecursiveChunker.new tk chunkSize rules minCharacters = Ok self ->
  0 < RecursiveChunker.chunkSize self /\ 0 < RecursiveChunker.minCharactersPerChunk self.
Proof.
  unfold RecursiveChunker.new.
  destruct (Z.leb_spec chunkSize 0); [discriminate|].
  destruct (Z.leb_spec minCharacters 0); [discriminate|].
  intros E. inv E. simpl. lia.
Qed.

Lemma jsstring_eqb_neq (a b : jsstring) : a <> b -> jsstring_eqb a b = false.
Proof. intros H. unfold jsstring_eqb. destruct (list_eq_dec N.eq_dec a b); congruence. Qed.

(** C8, as stated, fails on two of its cases.  An empty delimiter array
    passes the constructor of [SentenceChunker] (only a missing one is
    refused), and [mergeSplits] returns two empty arrays, without an
    error, when one of its two arrays is empty and the other is not. *)
Lemma C8_validation_refuted :
  (exists c ws,
      SentenceChunker.new characterTokenizer 512 0 1 12 false (Some []) prev_policy
      = Ok (c, ws)
      /\ SentenceChunker.delim c = [])
  /\ len [js "a"] <> len (@nil Z)
  /\ RecursiveChunker.mergeSplits idle_module (recursive_chunker characterTokenizer 512 [])
       [js "a"] [] false = Ok ([], []).
Proof.
  split; [eexists; eexists; split; reflexivity|]. split; [discriminate|reflexivity].
Qed.

(** C8, amended.  The constructor of [SentenceChunker] throws for each
    of [chunkSize <= 0], [chunkOverlap < 0], [chunkOverlap >= chunkSize],
    [minSentencesPerChunk <= 0], [minCharactersPerSentence <= 0], a missing
    delimiter set, and an inclusion policy that is neither ['prev'],
    ['next'] nor [null]; otherwise it returns the chunker with the values
    as they were given.  The constructor of [RecursiveChunker] throws for
    [chunkSize <= 0] and [minCharactersPerChunk <= 0].  [mergeSplits]
    throws when its two arrays are both non-empty and differ in length. *)
Theorem C8_validation :
  (forall tk chunkSize chunkOverlap minSentences minCharacters approximate delim inc,
      chunkSize <= 0 \/ chunkOverlap < 0 \/ chunkSize <= chunkOverlap
      \/ minSentences <= 0 \/ minCharacters <= 0 \/ delim = None
      \/ (inc <> None /\ inc <> Some (js "prev") /\ inc <> Some (js "next")) ->
      exists msg,
        SentenceChunker.new tk chunkSize chunkOverlap minSentences minCharacters
          approximate delim inc = Throw msg)
  /\ (forall tk chunkSize chunkOverlap minSentences minCharacters approximate d inc,
         0 < chunkSize -> 0 <= chunkOverlap < chunkSize ->
         0 < minSentences -> 0 < minCharacters ->
         inc = None \/ inc = Some (js "prev") \/ inc = Some (js "next") ->
         SentenceChunker.new tk chunkSize chunkOverlap minSentences minCharacters
           approximate (Some d) inc
         = Ok (SentenceChunker.mk tk chunkSize chunkOverlap minSentences minCharacters
                 approximate d inc SentenceChunker.SEP,
               if approximate then [ApproximateDeprecated] else []))
  /\ (forall tk chunkSize rules minCharacters,
         chunkSize <= 0 \/ minCharacters <= 0 ->
         exists msg, RecursiveChunker.new tk chunkSize rules minCharacters = Throw msg)
  /\ (forall w self splits tokenCounts combineWhitespace,
         splits <> [] -> tokenCounts <> [] -> len splits <> len tokenCounts ->
         RecursiveChunker.mergeSplits w self splits tokenCounts combineWhitespace
         = Throw "Mismatch between splits and token counts").
Proof.
  split; [|split; [|split]].
  - intros tk cs co ms mc ap delim inc Hbad. unfold SentenceChunker.new.
    destruct (Z.leb_spec cs 0); [eauto|].
    destruct (Z.ltb_spec co 0); [eauto|].
    destruct (Z.geb_spec co cs); [eauto|].
    destruct (Z.leb_spec ms 0); [eauto|].
    destruct (Z.leb_spec mc 0); [eauto|].
    destruct delim as [d|]; [|eauto].
    destruct Hbad as [Hb|[Hb|[Hb|[Hb|[Hb|[Hb|(Hi1 & Hi2 & Hi3)]]]]]];
      try lia; try discriminate.
    destruct inc as [s|]; [|congruence].
    unfold SentenceChunker.is_prev, SentenceChunker.is_next, SentenceChunker.is_null.
    rewrite !jsstring_eqb_neq by congruence. simpl. eauto.
  - intros tk cs co ms mc ap d inc Hcs Hco Hms Hmc Hinc. unfold SentenceChunker.new.
    destruct (Z.leb_spec cs 0); [lia|].
    destruct (Z.ltb_spec co 0); [lia|].
    destruct (Z.geb_spec co cs); [lia|].
    destruct (Z.leb_spec ms 0); [lia|].
    destruct (Z.leb_spec mc 0); [lia|].
    destruct Hinc as [-> | [-> | ->]]; reflexivity.
  - intros tk cs rules mc Hbad. unfold RecursiveChunker.new.
    destruct (Z.leb_spec cs 0); [eauto|].
    destruct (Z.leb_spec mc 0); [eauto|lia].
  - intros w self splits counts cw Hs Hc Hlen. unfold RecursiveChunker.mergeSplits.
    destruct splits; [congruence|]. destruct counts; [congruence|]. simpl orb. cbv iota.
    destruct (Z.eqb_spec (len (j :: splits)) (len (z :: counts))); [contradiction|].
    reflexivity.
Qed.

Lemma C8_validation_witness :
  (exists msg,
      SentenceChunker.new characterTokenizer 512 512 1 12 false (Some [js ". "]) prev_policy
      = Throw msg)
  /\ (exists msg,
         SentenceChunker.new characterTokenizer 512 0 1 12 false (Some [js ". "])
           (Some (js "both")) = Throw msg)
  /\ (exists msg, RecursiveChunker.new characterTokenizer 0 [] 24 = Throw msg)
  /\ RecursiveChunker.mergeSplits idle_module (recursive_chunker characterTokenizer 512 [])
       [js "a"; js "b"] [1] false
     = Throw "Mismatch between splits and token counts".
Proof.
  split; [|split; [|split]].
  - apply (proj1 C8_validation). right. right. left. lia.
  - apply (proj1 C8_validation). do 6 right. repeat split; discriminate.
  - apply (proj1 (proj2 (proj2 C8_validation))). left. lia.
  - apply (proj2 (proj2 (proj2 C8_validation))); discriminate.
Defined.

(* ================================================================== *)
(** * C7: empty and blank input *)

(** C7, as stated, fails for the recursive pipeline on the blank string:
    [RecursiveChunker] has no test for blank text, and with a
    token-window level alone the three spaces come back as one chunk,
    whatever the split and merge primitives are. *)
Lemma C7_empty_input_refuted :
  RecursiveChunker.chunk idle_module
    (recursive_chunker characterTokenizer 512 [RecursiveChunker.token_level]) (js "   ")
  = Ok [mkChunk (js "   ") 0 3 3]
  /\ (forall w : ChunkModule,
         RecursiveChunker.chunk w
           (recursive_chunker characterTokenizer 512 [RecursiveChunker.token_level])
           (js "   ") <> Ok [])
  /\ (forall w : ChunkModule,
         RecursiveChunker.chunk w (recursive_chunker characterTokenizer 512 []) (js "   ")
         <> Ok []).
Proof. split; [reflexivity|]. split; intros w; vm_compute; discriminate. Qed.

(** C7, amended.  [SentenceChunker.chunk] returns no chunk for the empty
    string and for the string of three spaces, and
    [RecursiveChunker.chunk] returns no chunk for the empty string. *)
Theorem C7_empty_input (self : SentenceChunker.t) (w : ChunkModule)
    (rself : RecursiveChunker.t) :
  SentenceChunker.chunk self (js "") = Ok ([], [])
  /\ SentenceChunker.chunk self (js "   ") = Ok ([], [])
  /\ RecursiveChunker.chunk w rself (js "") = Ok [].
Proof. repeat split; reflexivity. Qed.

(* ================================================================== *)
(** * C1: the token budget of the recursive pipeline *)

(** C1 at a failing input.  The tokenizer knows the word [" international"]
    (14 code units, one token); [chunkSize = 2]; the rules are the
    token-window level alone.  The text of four such words is encoded in
    four tokens and cut in two windows of two tokens.  Each window decodes
    to 28 code units, for which the heuristic gives 4 > 2, so
    [estimateTokenCount] answers [chunkSize + 1 = 3]: the piece is recursed
    into, and comes out of the base case as a chunk with [tokenCount = 3],
    above [chunkSize], although it holds two tokens. *)
Theorem C1_token_budget_failing_input (w : ChunkModule) :
  let tk := vocabTokenizer [international] in
  let self := recursive_chunker tk 2 [RecursiveChunker.token_level] in
  let text := international ++ international ++ international ++ international in
  encode tk text = [0; 0; 0; 0]
  /\ RecursiveChunker.splitText w self text RecursiveChunker.token_level
     = Ok [international ++ international; international ++ international]
  /\ countTokens tk (international ++ international) = 2
  /\ RecursiveChunker.estimateTokenCount self (international ++ international) = 3
  /\ RecursiveChunker.chunk w self text
     = Ok [mkChunk (international ++ international) 0 28 3;
           mkChunk (international ++ international) 28 56 3].
Proof. intros tk self text. repeat split; vm_compute; reflexivity. Qed.

(* ================================================================== *)
(** * C6: offsets *)

Lemma within_widen (lo hi lo' hi' : Z) (c : Chunk) :
  lo' <= lo -> hi <= hi' -> within lo hi c -> within lo' hi' c.
Proof. unfold within. lia. Qed.

Lemma in_a_row_widen (lo hi lo' hi' : Z) (chunks : list Chunk) :
  lo' <= lo -> hi <= hi' -> in_a_row lo hi chunks -> in_a_row lo' hi' chunks.
Proof.
  intros Hlo Hhi (Hw & Hs). split; [|exact Hs].
  eapply Forall_impl; [|exact Hw]. intros c. now apply within_widen.
Qed.

Lemma in_a_row_app (lo mid hi : Z) (a b : list Chunk) :
  lo <= mid -> mid <= hi ->
  in_a_row lo mid a -> in_a_row mid hi b -> in_a_row lo hi (a ++ b).
Proof.
  intros Hlo Hhi (Hwa & Hsa) (Hwb & Hsb). split.
  - apply Forall_app. split; (eapply Forall_impl; [|eassumption]);
      intros c; apply within_widen; lia.
  - induction a as [|x a IH]; [exact Hsb|].
    inversion Hwa as [|x' a' Hx Ha]; subst. inversion Hsa as [|x' a' Hs Hhd]; subst.
    simpl. constructor; [now apply IH|].
    destruct a as [|y a]; simpl.
    + destruct b as [|z b]; constructor.
      inversion Hwb; subst. unfold within in *. lia.
    + inversion Hhd; subst. now constructor.
Qed.

Lemma in_a_row_starts (lo hi : Z) (chunks : list Chunk) :
  in_a_row lo hi chunks ->
  Forall (fun c => startIndex c < endIndex c) chunks
  /\ Sorted (fun c d => startIndex c < startIndex d) chunks.
Proof.
  intros (Hw & Hs). split.
  - eapply Forall_impl; [|exact Hw]. unfold within. intros c H. lia.
  - induction Hs as [|x l Hs IH Hhd]; [constructor|].
    inversion Hw as [|x' l' Hx Hl]; subst. constructor; [now apply IH|].
    destruct Hhd as [|y l Hxy]; constructor. unfold within in Hx. lia.
Qed.

Section RecursiveOffsets.

Import RecursiveChunker.

Variable w : ChunkModule.
Variable self : RecursiveChunker.t.
Hypothesis fit : pieces_fit w self.

Lemma makeChunk_within (piece : jsstring) (tokenCount offset : Z) :
  piece <> [] -> in_a_row offset (offset + len piece) [makeChunk piece tokenCount offset].
Proof.
  intros Hne. apply len_pos in Hne. split.
  - constructor; [|constructor]. unfold within, makeChunk. simpl. lia.
  - repeat constructor.
Qed.

Lemma process_merged_in_a_row (recurse : jsstring -> Z -> result (list Chunk)) :
  (forall split offset r,
      split <> [] -> recurse split offset = Ok r ->
      in_a_row offset (offset + len split) r) ->
  forall merged counts i current chunks lo res,
    Forall (fun piece => piece <> []) merged ->
    lo <= current -> in_a_row lo current chunks ->
    process_merged recurse self merged counts i current chunks = Ok res ->
    in_a_row lo (current + len (concat merged)) res.
Proof.
  intros Hrec. induction merged as [|split rest IH];
    intros counts i cur acc lo res Hne Hlo Hacc E.
  - simpl in E. inv E. simpl concat. change (len (@nil code_unit)) with 0.
    now rewrite Z.add_0_r.
  - inversion Hne as [|s r Hs Hr]; subst.
    simpl in E. apply bind_ok in E as (sub & Esub & E).
    assert (in_a_row cur (cur + len split) sub) as Hsub.
    { destruct (num_at counts i >? chunkSize self).
      - now apply Hrec.
      - inv Esub. now apply makeChunk_within. }
    pose proof (len_nonneg split).
    apply (IH _ _ _ _ lo _ Hr) in E.
    + simpl concat. rewrite len_app. now rewrite Z.add_assoc.
    + lia.
    + apply (in_a_row_app lo cur); [lia|lia|exact Hacc|exact Hsub].
Qed.

(** The chunks of a call lie in a row within the range of its text. *)
Lemma recursiveChunk_in_a_row :
  forall (fuel : nat) (text : jsstring) (level startOffset : Z) (res : list Chunk),
    recursiveChunk fuel w self text level startOffset = Ok res ->
    in_a_row startOffset (startOffset + len text) res.
Proof.
  induction fuel as [|fuel IH]; intros text level off res E; [discriminate|].
  simpl in E. destruct text as [|c0 text'] eqn:Et.
  - simpl in E. inv E. split; constructor.
  - rewrite <- Et in *. assert (text <> []) as Hne by (rewrite Et; discriminate).
    replace (is_empty text) with false in E by (rewrite Et; reflexivity).
    destruct (level >=? len (rules self)).
    + inv E. now apply makeChunk_within.
    + unfold getLevel in E. destruct (at_index (rules self) level) as [rule|] eqn:Er;
        [|discriminate].
      apply bind_ok in E as ([merged counts] & Esm & E).
      assert (In rule (rules self)) as Hin.
      { unfold at_index in Er. destruct (level <? 0); [discriminate|].
        eapply nth_error_In; eauto. }
      destruct (fit text rule merged counts Hne Hin Esm) as (Hpieces & Hlen).
      assert (in_a_row off off []) as Hnil by (split; constructor).
      pose proof (process_merged_in_a_row
                    (fun split offset => recursiveChunk fuel w self split (level + 1) offset)
                    (fun split offset r _ Hr => IH _ _ _ _ Hr)
                    merged counts 0 off [] off res Hpieces (Z.le_refl off) Hnil E) as Hrow.
      eapply in_a_row_widen; [| |exact Hrow]; lia.
Qed.

End RecursiveOffsets.

(** The collaborators of the last example fit: a module that splits
    nowhere, and the character tokenizer under a token-window level. *)
Lemma idle_character_fit (chunkSize : Z) :
  0 < chunkSize ->
  pieces_fit idle_module
    (recursive_chunker characterTokenizer chunkSize
       [RecursiveChunker.whitespace_level; RecursiveChunker.token_level]).
Proof.
  intros Hcs text rule merged counts Hne Hin E.
  destruct Hin as [<-|[<-|[]]].
  - (* the whitespace level: one split, the text itself *)
    unfold RecursiveChunker.split_and_merge, RecursiveChunker.splitText in E.
    simpl in E.
    assert (slice text 0 (len text) = text) as Hall.
    { rewrite slice_all_after by (pose proof (len_nonneg text); lia). reflexivity. }
    rewrite Hall in E. unfold RecursiveChunker.mergeSplits in E. simpl in E.
    destruct (RecursiveChunker.estimateTokenCount _ text >? chunkSize); simpl in E.
    + inv E. split; [repeat constructor; exact Hne|].
      simpl. rewrite app_nil_r. lia.
    + inv E. split; [repeat constructor; exact Hne|].
      simpl. rewrite app_nil_r. lia.
  - (* the token-window level: the windows of the encoding, decoded *)
    unfold RecursiveChunker.split_and_merge, RecursiveChunker.splitText in E.
    simpl in E.
    destruct (token_windows_spec (map Z.of_N text) chunkSize Hcs
                (length (map Z.of_N text)) 0 [])
      as (ws & Ew & Hws & Hcat); [lia|unfold len; lia|].
    rewrite Ew in E. simpl in E. inv E. split.
    + apply Forall_map. eapply Forall_impl; [|exact Hws].
      intros x (Hx & _) Hnil. destruct x; [congruence|discriminate].
    + rewrite <- concat_map, Hcat. simpl skipn.
      unfold len. rewrite !length_map. apply Z.le_refl.
Qed.

(** C6, as stated, fails for the recursive pipeline.  With a tokenizer
    whose encoding starts with a marker token that decodes to nothing,
    [chunkSize = 1] and the token-window level alone, the text ["ab"]
    yields a first chunk with [startIndex = endIndex = 0], and a second
    chunk that starts at 0 as well. *)
Lemma C6_offsets_refuted :
  RecursiveChunker.chunk idle_module
    (recursive_chunker framedTokenizer 1 [RecursiveChunker.token_level]) (js "ab")
  = Ok [mkChunk [] 0 0 1; mkChunk (js "a") 0 1 2; mkChunk (js "b") 1 2 2]
  /\ ~ Forall (fun c => startIndex c < endIndex c)
         [mkChunk [] 0 0 1; mkChunk (js "a") 0 1 2; mkChunk (js "b") 1 2 2]
  /\ ~ Sorted (fun c d => startIndex c < startIndex d)
         [mkChunk [] 0 0 1; mkChunk (js "a") 0 1 2; mkChunk (js "b") 1 2 2].
Proof.
  split; [reflexivity|]. split; intros H.
  - inversion H; subst. simpl in *. lia.
  - inversion H as [|x l Hs Hhd]; subst. inversion Hhd; subst. simpl in *. lia.
Qed.

(** C6, amended.  In the sentence pipeline, for every text and valid
    configuration, every chunk has [startIndex < endIndex] and each chunk
    starts strictly after the one before it.  In the recursive pipeline
    the same holds whenever the pieces each level hands on (after its
    split and merge) are non-empty and together no longer than the text
    they come from. *)
Theorem C6_offsets :
  (forall (self : SentenceChunker.t) (text : jsstring),
      SentenceChunker.valid self -> len text + 1 < 2 ^ 31 ->
      exists chunks ws,
        SentenceChunker.chunk self text = Ok (chunks, ws)
        /\ Forall (fun c => sc_startIndex c < sc_endIndex c) chunks
        /\ Sorted (fun c d => sc_startIndex c < sc_startIndex d) chunks)
  /\ (forall (w : ChunkModule) (self : RecursiveChunker.t) (text : jsstring),
         0 < RecursiveChunker.chunkSize self -> pieces_fit w self ->
         exists chunks,
           RecursiveChunker.chunk w self text = Ok chunks
           /\ Forall (fun c => startIndex c < endIndex c) chunks
           /\ Sorted (fun c d => startIndex c < startIndex d) chunks).
Proof.
  split; [exact sentence_offsets|].
  intros w self text Hcs Hfit.
  destruct (recursiveChunk_returns w self Hcs (S (length (RecursiveChunker.rules self)))
              text 0 0 ltac:(lia) ltac:(unfold len; lia)) as (chunks & E).
  exists chunks. split; [exact E|].
  apply (in_a_row_starts 0 (0 + len text)).
  exact (recursiveChunk_in_a_row w self Hfit _ _ _ _ _ E).
Qed.

Lemma C6_offsets_witness :
  (exists chunks ws,
      SentenceChunker.chunk chunker_overlap text_3452 = Ok (chunks, ws)
      /\ Forall (fun c => sc_startIndex c < sc_endIndex c) chunks
      /\ Sorted (fun c d => sc_startIndex c < sc_startIndex d) chunks)
  /\ (exists chunks,
         RecursiveChunker.chunk idle_module
           (recursive_chunker characterTokenizer 5
              [RecursiveChunker.whitespace_level; RecursiveChunker.token_level])
           (js "abcdefghijkl") = Ok chunks
         /\ Forall (fun c => startIndex c < endIndex c) chunks
         /\ Sorted (fun c d => startIndex c < startIndex d) chunks).
Proof.
  split.
  - apply (proj1 C6_offsets chunker_overlap text_3452).
    + valid_config.
    + vm_compute. reflexivity.
  - apply (proj2 C6_offsets).
    + reflexivity.
    + apply idle_character_fit. lia.
Defined.

(* ================================================================== *)
(** * When the token budget does hold *)

Section RecursiveBudget.

Import RecursiveChunker.

Variable w : ChunkModule.
Variable self : RecursiveChunker.t.
Hypothesis chunkSize_pos : 0 < chunkSize self.

Let fits (c : Chunk) : Prop := tokenCount c <= chunkSize self.

Lemma num_at_bounded (counts : list Z) (i : Z) :
  Forall (fun k => k <= chunkSize self) counts -> num_at counts i <= chunkSize self.
Proof.
  intros H. unfold num_at. destruct (at_index counts i) as [x|] eqn:E; [|lia].
  unfold at_index in E. destruct (i <? 0); [discriminate|].
  apply nth_error_In in E. rewrite Forall_forall in H. now apply H.
Qed.

Lemma process_merged_budget (recurse : jsstring -> Z -> result (list Chunk)) :
  forall merged counts,
    (forall split offset r, recurse split offset = Ok r -> Forall fits r)
    \/ Forall (fun k => k <= chunkSize self) counts ->
    forall i offset chunks res,
      Forall fits chunks ->
      process_merged recurse self merged counts i offset chunks = Ok res ->
      Forall fits res.
Proof.
  intros merged counts Hcase. induction merged as [|split rest IH];
    intros i offset chunks res Hacc E.
  - simpl in E. now inv E.
  - simpl in E. apply bind_ok in E as (sub & Esub & E).
    eapply IH; [|exact E]. apply Forall_app. split; [exact Hacc|].
    destruct (Z.gtb_spec (num_at counts i) (chunkSize self)) as [Hbig|Hok].
    + destruct Hcase as [Hrec|Hall]; [now apply (Hrec split offset)|].
      pose proof (num_at_bounded counts i Hall). lia.
    + inv Esub. constructor; [|constructor]. unfold fits. simpl. exact Hok.
Qed.

Variable before : list RecursiveLevel.
Hypothesis token_level_last : rules self = before ++ [token_level].
Hypothesis windows_pass :
  forall text splits,
    splitText w self text token_level = Ok splits ->
    Forall (fun piece => estimateTokenCount self piece <= chunkSize self) splits.

(** Below the depth, every leaf stays within the budget. *)
Lemma recursiveChunk_budget :
  forall (fuel : nat) (text : jsstring) (level startOffset : Z) (res : list Chunk),
    0 <= level < len (rules self) ->
    recursiveChunk fuel w self text level startOffset = Ok res ->
    Forall fits res.
Proof.
  induction fuel as [|fuel IH]; intros text level off res Hl E; [discriminate|].
  simpl in E. destruct (is_empty text); [inv E; constructor|].
  destruct (Z.geb_spec level (len (rules self))); [lia|].
  unfold getLevel in E. destruct (at_index (rules self) level) as [rule|] eqn:Er;
    [|discriminate].
  apply bind_ok in E as ([merged counts] & Esm & E).
  eapply process_merged_budget; [|constructor|exact E].
  destruct (Z.eq_dec level (len before)) as [Hlast|Hnot].
  - right. rewrite token_level_last in Er. subst level.
    unfold at_index, len in Er. destruct (Z.of_nat (length before) <? 0); [discriminate|].
    rewrite Nat2Z.id, nth_error_app2, Nat.sub_diag in Er by lia.
    simpl in Er. inv Er.
    unfold split_and_merge in Esm. apply bind_ok in Esm as (splits & Es & Esm).
    simpl in Esm. inv Esm. apply Forall_map. eapply windows_pass. exact Es.
  - left. intros split offset r Hr.
    assert (len (rules self) = len before + 1) as Hdepth
      by (rewrite token_level_last, len_app; reflexivity).
    eapply IH; [|exact Hr]. lia.
Qed.

End RecursiveBudget.

(** The character tokenizer passes: a window of at most [chunkSize] code
    units is estimated at its length. *)
Lemma character_windows_pass (w : ChunkModule) (chunkSize : Z)
    (rules : RecursiveChunker.RecursiveRules) :
  0 < chunkSize ->
  forall text splits,
    RecursiveChunker.splitText w (recursive_chunker characterTokenizer chunkSize rules)
      text RecursiveChunker.token_level = Ok splits ->
    Forall (fun piece =>
              RecursiveChunker.estimateTokenCount
                (recursive_chunker characterTokenizer chunkSize rules) piece <= chunkSize)
           splits.
Proof.
  intros Hcs text splits E. unfold RecursiveChunker.splitText in E. simpl in E.
  destruct (token_windows_spec (map Z.of_N text) chunkSize Hcs
              (length (map Z.of_N text)) 0 [])
    as (ws & Ew & Hws & _); [lia|unfold len; lia|].
  rewrite Ew in E. simpl in E. inv E.
  apply Forall_map. eapply Forall_impl; [|exact Hws].
  intros x (_ & Hx). unfold RecursiveChunker.estimateTokenCount, recursive_chunker.
  cbn [RecursiveChunker.chunkSize RecursiveChunker.tokenizer countTokens characterTokenizer].
  rewrite heuristic_floor. unfold len in *. rewrite !length_map.
  assert (2 * Z.of_nat (length x) / 13 <= Z.of_nat (length x))
    by (apply Z.div_le_upper_bound; lia).
  destruct (Z.gtb_spec (Z.max 1 (2 * Z.of_nat (length x) / 13)) chunkSize); lia.
Qed.

(** X1.  With the token-window level as the last level, every leaf chunk of
    [RecursiveChunker.chunk] has [tokenCount <= chunkSize] as soon as
    [estimateTokenCount] stays within [chunkSize] on the decoded token
    windows; the character tokenizer is such a tokenizer. *)
Theorem token_budget_when_windows_pass (w : ChunkModule) (self : RecursiveChunker.t)
    (before : list RecursiveChunker.RecursiveLevel) (text : jsstring) :
  0 < RecursiveChunker.chunkSize self ->
  RecursiveChunker.rules self = before ++ [RecursiveChunker.token_level] ->
  (forall t splits,
      RecursiveChunker.splitText w self t RecursiveChunker.token_level = Ok splits ->
      Forall (fun piece =>
                RecursiveChunker.estimateTokenCount self piece
                <= RecursiveChunker.chunkSize self) splits) ->
  exists chunks,
    RecursiveChunker.chunk w self text = Ok chunks
    /\ Forall (fun c => tokenCount c <= RecursiveChunker.chunkSize self) chunks.
Proof.
  intros Hcs Hrules Hpass.
  destruct (recursiveChunk_returns w self Hcs (S (length (RecursiveChunker.rules self)))
              text 0 0 ltac:(lia) ltac:(unfold len; lia)) as (chunks & E).
  exists chunks. split; [exact E|].
  eapply (recursiveChunk_budget w self Hcs before Hrules Hpass); [|exact E].
  rewrite Hrules, len_app. change (len [RecursiveChunker.token_level]) with 1.
  pose proof (len_nonneg before). lia.
Qed.

Lemma token_budget_character_witness :
  exists chunks,
    RecursiveChunker.chunk idle_module
      (recursive_chunker characterTokenizer 5
         [RecursiveChunker.whitespace_level; RecursiveChunker.token_level])
      (js "abcdefghijkl") = Ok chunks
    /\ Forall (fun c => tokenCount c <= 5) chunks.
Proof.
  apply (token_budget_when_windows_pass idle_module
           (recursive_chunker characterTokenizer 5
              [RecursiveChunker.whitespace_level; RecursiveChunker.token_level])
           [RecursiveChunker.whitespace_level] (js "abcdefghijkl")).
  - reflexivity.
  - reflexivity.
  - apply character_windows_pass. reflexivity.
Defined.

(* ================================================================== *)
(** * Further properties of SentenceChunker *)

(** ** [_bisectLeft] on a sorted array *)

Lemma bisect_loop_sorted (arr : list Z) (value lo0 : Z) :
  len arr < 2 ^ 31 -> nondecreasing arr ->
  forall (fuel : nat) (lo hi : Z),
    0 <= lo0 <= lo -> lo <= hi <= len arr -> (Z.to_nat (hi - lo) <= fuel)%nat ->
    (forall i x, lo0 <= i < lo -> at_index arr i = Some x -> x < value) ->
    (forall i x, hi <= i -> at_index arr i = Some x -> value <= x) ->
    exists b,
      SentenceChunker.bisect_loop fuel arr value lo hi = Ok b
      /\ lo <= b <= hi
      /\ (forall i x, lo0 <= i < b -> at_index arr i = Some x -> x < value)
      /\ (forall i x, b <= i -> at_index arr i = Some x -> value <= x).
Proof.
  intros Hsmall Hsorted. induction fuel as [|fuel IH];
    intros lo hi Hlo Hhi Hfuel Hbelow Habove.
  - simpl. destruct (Z.ltb_spec lo hi); [lia|].
    exists lo. split; [reflexivity|]. split; [lia|]. split; [exact Hbelow|].
    intros i x Hi. apply Habove. lia.
  - simpl. destruct (Z.ltb_spec lo hi) as [Hlt|Hge].
    2:{ exists lo. split; [reflexivity|]. split; [lia|]. split; [exact Hbelow|].
        intros i x Hi. apply Habove. lia. }
    rewrite ushr_half by lia.
    assert (lo <= (lo + hi) / 2 < hi) as Hmid.
    { split; [apply Z.div_le_lower_bound|apply Z.div_lt_upper_bound]; lia. }
    destruct (at_index_some arr ((lo + hi) / 2) ltac:(lia)) as [m Hm].
    rewrite Hm. destruct (Z.ltb_spec m value) as [Hmv|Hmv].
    + destruct (IH ((lo + hi) / 2 + 1) hi) as (b & Hb & Hr & H1 & H2); try lia.
      * intros i x Hi Hx.
        assert (x <= m) by (apply (Hsorted i ((lo + hi) / 2) x m); [lia|exact Hx|exact Hm]).
        lia.
      * exact Habove.
      * exists b. split; [exact Hb|]. split; [lia|]. split; assumption.
    + destruct (IH lo ((lo + hi) / 2)) as (b & Hb & Hr & H1 & H2); try lia.
      * exact Hbelow.
      * intros i x Hi Hx.
        assert (m <= x) by (apply (Hsorted ((lo + hi) / 2) i m x); [lia|exact Hm|exact Hx]).
        lia.
      * exists b. split; [exact Hb|]. split; [lia|]. split; assumption.
Qed.

(** X2.  [_bisectLeft(arr, value, lo)] on an array that never decreases returns
    the leftmost insertion point at or after [lo]: every element from [lo]
    up to the result is below [value], every element from the result on is
    [value] or more. *)
Theorem bisectLeft_leftmost (arr : list Z) (value lo : Z) :
  len arr < 2 ^ 31 -> nondecreasing arr -> 0 <= lo <= len arr ->
  exists b,
    SentenceChunker._bisectLeft arr value lo = Ok b
    /\ lo <= b <= len arr
    /\ (forall i x, lo <= i < b -> at_index arr i = Some x -> x < value)
    /\ (forall i x, b <= i -> at_index arr i = Some x -> value <= x).
Proof.
  intros Hsmall Hsorted Hlo. unfold SentenceChunker._bisectLeft.
  apply (bisect_loop_sorted arr value lo Hsmall Hsorted); try lia.
  - unfold len in *. lia.
  - intros i x Hi Hx. apply at_index_range in Hx. lia.
Qed.

Lemma bisectLeft_leftmost_witness :
  exists b,
    SentenceChunker._bisectLeft [0; 3; 7; 7; 12; 14] 7 1 = Ok b
    /\ 1 <= b <= len [0; 3; 7; 7; 12; 14]
    /\ (forall i x, 1 <= i < b -> at_index [0; 3; 7; 7; 12; 14] i = Some x -> x < 7)
    /\ (forall i x, b <= i -> at_index [0; 3; 7; 7; 12; 14] i = Some x -> 7 <= x).
Proof.
  apply (bisectLeft_leftmost [0; 3; 7; 7; 12; 14] 7 1).
  - vm_compute. reflexivity.
  - intros i j x y Hij Hi Hj.
    pose proof (at_index_range _ _ _ Hj) as Hr. change (len [0; 3; 7; 7; 12; 14]) with 6 in Hr.
    assert (j = 0 \/ j = 1 \/ j = 2 \/ j = 3 \/ j = 4 \/ j = 5) as Hjc by lia.
    assert (i = 0 \/ i = 1 \/ i = 2 \/ i = 3 \/ i = 4 \/ i = 5) as Hic by lia.
    destruct Hjc as [->|[->|[->|[->|[->| ->]]]]];
      destruct Hic as [->|[->|[->|[->|[->| ->]]]]];
      vm_compute in Hi, Hj; try lia; inv Hi; inv Hj; lia.
  - vm_compute. split; discriminate.
Defined.

(** ** The delimiter splitter: short fragments *)

Lemma gather_long_enough (self : SentenceChunker.t) (splits sentences : list jsstring)
    (current : jsstring) :
  Forall (fun x => SentenceChunker.minCharactersPerSentence self <= len x) sentences ->
  Forall (fun x => SentenceChunker.minCharactersPerSentence self <= len x)
         (fst (SentenceChunker.gather self splits sentences current)).
Proof.
  revert sentences current.
  induction splits as [|s rest IH]; intros sentences current Hs; [exact Hs|].
  simpl SentenceChunker.gather. destruct (is_empty current); [now apply IH|].
  destruct (Z.geb_spec (len current) (SentenceChunker.minCharactersPerSentence self)).
  - apply IH. apply Forall_app. split; [exact Hs|]. constructor; [lia|constructor].
  - now apply IH.
Qed.

(** X3.  No sentence [_splitText] returns is empty, and every sentence but the
    last has at least [minCharactersPerSentence] code units: shorter
    fragments are glued to what follows them. *)
Theorem splitText_short_fragments_merged (self : SentenceChunker.t) (text : jsstring)
    (before : list jsstring) (s : jsstring) (after : list jsstring) :
  SentenceChunker._splitText self text = before ++ s :: after ->
  s <> []
  /\ (after <> [] -> SentenceChunker.minCharactersPerSentence self <= len s).
Proof.
  intros E. split.
  - pose proof (splitText_nonempty self text) as H. rewrite E in H.
    apply Forall_app in H as (_ & H). now inversion H.
  - intros Hafter. unfold SentenceChunker._splitText in E.
    set (splits := String_split _ _) in E.
    pose proof (gather_long_enough self splits [] [] (Forall_nil _)) as H.
    destruct (SentenceChunker.gather self splits [] []) as [ss cur]. simpl in H.
    destruct (exists_last Hafter) as (after' & z & ->).
    assert (In s ss) as Hin.
    { destruct (negb (is_empty cur)).
      - change (before ++ s :: after' ++ [z]) with (before ++ (s :: after') ++ [z]) in E.
        rewrite app_assoc in E. apply app_inj_tail in E as (E & _).
        rewrite E. apply in_or_app. right. now left.
      - rewrite E. apply in_or_app. right. now left. }
    rewrite Forall_forall in H. now apply H.
Qed.

Lemma splitText_short_fragments_merged_witness :
  js "Dr. Who. " <> []
  /\ ([js "Is in."] <> [] -> SentenceChunker.minCharactersPerSentence
                               (sentence_chunker characterTokenizer 512 0 1 6 [js ". "] prev_policy)
                             <= len (js "Dr. Who. ")).
Proof.
  apply (splitText_short_fragments_merged
           (sentence_chunker characterTokenizer 512 0 1 6 [js ". "] prev_policy)
           (js "Dr. Who. Is in.") [] (js "Dr. Who. ") [js "Is in."]).
  reflexivity.
Defined.

(** ** Offsets against the text *)

Lemma slice_app_middle {A : Type} (a b c : list A) :
  slice (a ++ b ++ c) (len a) (len a + len b) = b.
Proof.
  pose proof (len_nonneg a). pose proof (len_nonneg b). pose proof (len_nonneg c).
  rewrite slice_inner by (rewrite !len_app; lia).
  replace (Z.to_nat (len a)) with (length a) by (unfold len; lia).
  rewrite skipn_app, skipn_all, Nat.sub_diag. simpl.
  replace (Z.to_nat (len a + len b - len a)) with (length b) by (unfold len; lia).
  rewrite firstn_app, firstn_all, Nat.sub_diag. simpl. now rewrite app_nil_r.
Qed.

Lemma extent_concat (l : list Sentence) : extent l = len (concat (map s_text l)).
Proof.
  unfold extent. induction l as [|x l IH]; [reflexivity|].
  simpl. rewrite len_app, IH. reflexivity.
Qed.

(** The code units between the offsets of a window of sentences are the
    texts of its sentences. *)
Lemma slice_of_window (l : list Sentence) (p s : Z) :
  0 <= p <= s -> s <= len l ->
  slice (concat (map s_text l))
        (extent (firstn (Z.to_nat p) l)) (extent (firstn (Z.to_nat s) l))
  = concat (map s_text (slice l p s)).
Proof.
  intros Hp Hs.
  rewrite (slice_decompose l p s Hp Hs) at 1.
  rewrite !map_app, !concat_app.
  rewrite (firstn_slice l p s Hp Hs), extent_app, !extent_concat.
  apply slice_app_middle.
Qed.

Section KeptDelimiters.

Import SentenceChunker.

Variable self : SentenceChunker.t.
Hypothesis self_valid : valid self.
Hypothesis kept :
  includeDelim self = Some (js "prev") \/ includeDelim self = Some (js "next").

Lemma mark_delim_kept (t0 c : jsstring) :
  strip 9988%N (mark_delim self t0 c) = strip 9988%N t0.
Proof.
  destruct kept as [E|E].
  - apply (mark_delim_prev self self_valid). rewrite E. reflexivity.
  - unfold mark_delim. rewrite (self_sep self self_valid), E.
    change (is_prev (Some (js "next"))) with false.
    change (is_next (Some (js "next"))) with true. cbv iota.
    rewrite strip_join, strip_app, strip_self. simpl app. rewrite <- strip_join.
    now rewrite join_split.
Qed.

Lemma marked_kept (ds : list jsstring) (t0 : jsstring) :
  strip 9988%N (fold_left (mark_delim self) ds t0) = strip 9988%N t0.
Proof.
  revert t0. induction ds as [|d ds IH]; intros t0; [reflexivity|].
  simpl. rewrite IH. apply mark_delim_kept.
Qed.

(** With the delimiters kept, the sentences glued together are the text. *)
Lemma sentences_rebuild (text : jsstring) :
  ~ In 9988%N text ->
  concat (map s_text (_prepareSentences self text)) = text.
Proof.
  intros Hsent. rewrite prepare_texts, splitText_concat by exact self_valid.
  rewrite marked_kept. now apply strip_absent.
Qed.

End KeptDelimiters.

Lemma slice_single {A : Type} (l : list A) (k : nat) (x : A) :
  nth_error l k = Some x -> slice l (Z.of_nat k) (Z.of_nat k + 1) = [x].
Proof.
  intros Hk. assert (k < length l)%nat as Hlt by (apply nth_error_Some; congruence).
  rewrite slice_inner by (unfold len; lia).
  replace (Z.to_nat (Z.of_nat k + 1 - Z.of_nat k)) with 1%nat by lia.
  rewrite Nat2Z.id.
  rewrite <- (firstn_skipn_middle k l Hk), skipn_app, skipn_all2 by (rewrite length_firstn; lia).
  rewrite length_firstn. replace (k - Nat.min k (length l))%nat with 0%nat by lia.
  reflexivity.
Qed.

Lemma laid_out_adjacent (l : list Sentence) (p : Z) :
  laid_out p l -> Sorted (fun a b => s_endIndex a = s_startIndex b) l.
Proof.
  revert p. induction l as [|x l IH]; intros p H; [constructor|].
  destruct H as (_ & _ & _ & Hrest). constructor; [now apply (IH (s_endIndex x))|].
  destruct l as [|y l]; constructor. destruct Hrest as (Hy & _). now rewrite Hy.
Qed.

(** X4.  The sentence accountant.  When the delimiters are kept (['prev'] or
    ['next']) and the text is free of the sentinel, the sentences of
    [_prepareSentences] tile the text: none is empty, each one is the
    slice of the text between its [startIndex] and its [endIndex], each
    starts where the one before it ends, and together they are the text. *)
Theorem prepareSentences_tile_text (self : SentenceChunker.t) (text : jsstring) :
  SentenceChunker.valid self ->
  SentenceChunker.includeDelim self = Some (js "prev")
  \/ SentenceChunker.includeDelim self = Some (js "next") ->
  ~ In 9988%N text ->
  concat (map s_text (SentenceChunker._prepareSentences self text)) = text
  /\ Forall (fun s => s_text s <> []
                      /\ slice text (s_startIndex s) (s_endIndex s) = s_text s)
            (SentenceChunker._prepareSentences self text)
  /\ Sorted (fun a b => s_endIndex a = s_startIndex b)
            (SentenceChunker._prepareSentences self text)
  /\ (forall first rest,
         SentenceChunker._prepareSentences self text = first :: rest ->
         s_startIndex first = 0).
Proof.
  intros Hv Hkept Hsent.
  pose proof (sentences_rebuild self Hv Hkept text Hsent) as Hcat.
  pose proof (prepare_layout self text) as Hlay.
  set (ss := SentenceChunker._prepareSentences self text) in *.
  split; [exact Hcat|]. split; [|split].
  - rewrite Forall_forall. intros s Hin.
    destruct (In_nth_error _ _ Hin) as (k & Hk).
    destruct (laid_out_at ss 0 k s Hlay Hk) as (Hst & Hen & Hpos).
    split; [intros E; rewrite E in Hpos; change (len (@nil code_unit)) with 0 in Hpos; lia|].
    assert (k < length ss)%nat as Hlt by (apply nth_error_Some; congruence).
    pose proof (slice_of_window ss (Z.of_nat k) (Z.of_nat k + 1)
                  ltac:(lia) ltac:(unfold len; lia)) as Hw.
    rewrite Hcat in Hw. rewrite (slice_single ss k s Hk) in Hw.
    rewrite Nat2Z.id in Hw. replace (Z.to_nat (Z.of_nat k + 1)) with (S k) in Hw by lia.
    rewrite Hst, Hen. simpl in Hw. rewrite app_nil_r in Hw. exact Hw.
  - exact (laid_out_adjacent ss 0 Hlay).
  - intros first rest E. rewrite E in Hlay. now destruct Hlay as (H & _).
Qed.

Lemma prepareSentences_tile_text_witness :
  concat (map s_text (SentenceChunker._prepareSentences
                        (sentence_chunker characterTokenizer 7 0 1 1 [js ". "] (Some (js "next")))
                        text_3452)) = text_3452
  /\ Forall (fun s => s_text s <> []
                      /\ slice text_3452 (s_startIndex s) (s_endIndex s) = s_text s)
            (SentenceChunker._prepareSentences
               (sentence_chunker characterTokenizer 7 0 1 1 [js ". "] (Some (js "next")))
               text_3452)
  /\ Sorted (fun a b => s_endIndex a = s_startIndex b)
            (SentenceChunker._prepareSentences
               (sentence_chunker characterTokenizer 7 0 1 1 [js ". "] (Some (js "next")))
               text_3452)
  /\ (forall first rest,
         SentenceChunker._prepareSentences
           (sentence_chunker characterTokenizer 7 0 1 1 [js ". "] (Some (js "next")))
           text_3452 = first :: rest ->
         s_startIndex first = 0).
Proof.
  apply (prepareSentences_tile_text
           (sentence_chunker characterTokenizer 7 0 1 1 [js ". "] (Some (js "next")))
           text_3452).
  - valid_config.
  - right. reflexivity.
  - vm_compute. intros H. repeat (destruct H as [H|H]; [discriminate|]). exact H.
Defined.

(** ** The chunks of a run *)

(** What every step of a run records of its chunk. *)
Lemma Run_layout (self : SentenceChunker.t) (sentences : list Sentence) :
  SentenceChunker.valid self -> len sentences + 1 < 2 ^ 31 -> laid_out 0 sentences ->
  forall pos steps ws,
    Run self sentences pos steps ws ->
    Forall (fun st =>
              let '(p, s, c) := st in
              0 <= p < s /\ s <= len sentences
              /\ sc_sentences c = slice sentences p s
              /\ sc_text c = concat (map s_text (slice sentences p s))
              /\ sc_tokenCount c = countTokens (SentenceChunker.tokenizer self) (sc_text c)
              /\ sc_startIndex c = extent (firstn (Z.to_nat p) sentences)
              /\ sc_endIndex c = extent (firstn (Z.to_nat s) sentences)) steps.
Proof.
  intros Hv Hfew Hlay pos steps ws HR.
  pose proof (Run_offsets self sentences Hv Hfew _ _ _ Hlay HR) as Hoff.
  assert (Forall (fun st => let '(p, s, c) := st in
                            sc_sentences c = slice sentences p s
                            /\ sc_text c = concat (map s_text (slice sentences p s))
                            /\ sc_tokenCount c
                               = countTokens (SentenceChunker.tokenizer self) (sc_text c))
                 steps) as Hrec.
  { eapply (Run_Forall self sentences); [|exact HR].
    intros p s p' w c Hp Hsel Hmk Hnext.
    destruct (step_facts self sentences Hv Hfew _ _ _ _ _ Hp Hsel Hmk Hnext)
      as (_ & _ & _ & _ & Hsl & Htext & Hcount & _).
    rewrite Hcount, Htext. auto. }
  rewrite Forall_forall in *. intros [[p s] c] Hin.
  specialize (Hoff _ Hin). specialize (Hrec _ Hin). simpl in *. tauto.
Qed.

(** X5.  The offsets of a chunk locate its text.  When the delimiters are kept
    and the text is free of the sentinel, every chunk of
    [SentenceChunker.chunk] is the slice of the text between its
    [startIndex] and its [endIndex], with or without overlap. *)
Theorem chunk_offsets_locate_text (self : SentenceChunker.t) (text : jsstring) :
  SentenceChunker.valid self -> len text + 1 < 2 ^ 31 ->
  SentenceChunker.includeDelim self = Some (js "prev")
  \/ SentenceChunker.includeDelim self = Some (js "next") ->
  ~ In 9988%N text ->
  exists chunks ws,
    SentenceChunker.chunk self text = Ok (chunks, ws)
    /\ Forall (fun c => slice text (sc_startIndex c) (sc_endIndex c) = sc_text c) chunks.
Proof.
  intros Hv Hsmall Hkept Hsent.
  destruct (chunk_run self text Hv Hsmall) as (steps & ws & E & [(_ & -> & _)|(_ & HR)]).
  - exists [], ws. split; [exact E|constructor].
  - exists (chunks_of steps), ws. split; [exact E|].
    set (sentences := SentenceChunker._prepareSentences self text) in *.
    assert (len sentences + 1 < 2 ^ 31) as Hfew.
    { pose proof (prepare_count self Hv text). fold sentences in H. lia. }
    pose proof (Run_layout self sentences Hv Hfew (prepare_layout self text) _ _ _ HR) as Hl.
    unfold chunks_of. apply Forall_map. eapply Forall_impl; [|exact Hl].
    intros [[p s] c] (Hp & Hs & _ & Htext & _ & Hst & Hen). simpl.
    rewrite Hst, Hen, Htext.
    rewrite <- (sentences_rebuild self Hv Hkept text Hsent) at 1.
    apply slice_of_window; lia.
Qed.

Lemma chunk_offsets_locate_text_witness :
  exists chunks ws,
    SentenceChunker.chunk chunker_overlap text_3452 = Ok (chunks, ws)
    /\ Forall (fun c => slice text_3452 (sc_startIndex c) (sc_endIndex c) = sc_text c) chunks.
Proof.
  apply (chunk_offsets_locate_text chunker_overlap text_3452).
  - valid_config.
  - vm_compute. reflexivity.
  - left. reflexivity.
  - vm_compute. intros H. repeat (destruct H as [H|H]; [discriminate|]). exact H.
Defined.

(** X6.  The record of a chunk.  Under every inclusion policy, each chunk of
    [SentenceChunker.chunk] holds a non-empty run of consecutive prepared
    sentences, laid end to end from the chunk's [startIndex] up to its
    [endIndex]; its text is their texts glued together, of length
    [endIndex - startIndex]; and its [tokenCount] is the tokenizer's count
    of that text, not the sum of the sentences' counts. *)
Theorem chunk_record_consistent (self : SentenceChunker.t) (text : jsstring) :
  SentenceChunker.valid self -> len text + 1 < 2 ^ 31 ->
  exists chunks ws,
    SentenceChunker.chunk self text = Ok (chunks, ws)
    /\ Forall (fun c =>
                 sc_sentences c <> []
                 /\ (exists a b,
                        SentenceChunker._prepareSentences self text = a ++ sc_sentences c ++ b)
                 /\ laid_out (sc_startIndex c) (sc_sentences c)
                 /\ sc_text c = concat (map s_text (sc_sentences c))
                 /\ sc_endIndex c - sc_startIndex c = len (sc_text c)
                 /\ sc_tokenCount c = countTokens (SentenceChunker.tokenizer self) (sc_text c))
              chunks.
Proof.
  intros Hv Hsmall.
  destruct (chunk_run self text Hv Hsmall) as (steps & ws & E & [(_ & -> & _)|(_ & HR)]).
  - exists [], ws. split; [exact E|constructor].
  - exists (chunks_of steps), ws. split; [exact E|].
    set (sentences := SentenceChunker._prepareSentences self text) in *.
    assert (len sentences + 1 < 2 ^ 31) as Hfew.
    { pose proof (prepare_count self Hv text). fold sentences in H. lia. }
    pose proof (prepare_layout self text) as Hlay. fold sentences in Hlay.
    pose proof (Run_layout self sentences Hv Hfew Hlay _ _ _ HR) as Hl.
    unfold chunks_of. apply Forall_map. eapply Forall_impl; [|exact Hl].
    intros [[p s] c] (Hp & Hs & Hsl & Htext & Hcount & Hst & Hen). simpl.
    rewrite Hsl. split; [apply slice_not_nil; lia|]. split; [|split; [|split; [|split]]].
    + eexists. eexists. apply slice_decompose; lia.
    + rewrite Hst. rewrite slice_inner by lia.
      apply laid_out_firstn. apply (laid_out_skipn sentences 0). exact Hlay.
    + exact Htext.
    + rewrite Hst, Hen, Htext, <- extent_concat.
      rewrite (firstn_slice sentences p s) by lia. rewrite extent_app. lia.
    + exact Hcount.
Qed.

Lemma chunk_record_consistent_witness :
  exists chunks ws,
    SentenceChunker.chunk chunker_vocab (js "xa. bcde") = Ok (chunks, ws)
    /\ Forall (fun c =>
                 sc_sentences c <> []
                 /\ (exists a b,
                        SentenceChunker._prepareSentences chunker_vocab (js "xa. bcde")
                        = a ++ sc_sentences c ++ b)
                 /\ laid_out (sc_startIndex c) (sc_sentences c)
                 /\ sc_text c = concat (map s_text (sc_sentences c))
                 /\ sc_endIndex c - sc_startIndex c = len (sc_text c)
                 /\ sc_tokenCount c
                    = countTokens (SentenceChunker.tokenizer chunker_vocab) (sc_text c))
              chunks.
Proof.
  apply (chunk_record_consistent chunker_vocab (js "xa. bcde")).
  - valid_config.
  - vm_compute. reflexivity.
Defined.

(** ** No sentence is lost *)

Lemma Run_covers (self : SentenceChunker.t) (sentences : list Sentence) :
  SentenceChunker.valid self -> len sentences + 1 < 2 ^ 31 ->
  forall pos steps ws,
    Run self sentences pos steps ws -> 0 <= pos ->
    forall i, pos <= i < len sentences ->
              Exists (fun st => fst (fst st) <= i < snd (fst st)) steps.
Proof.
  intros Hv Hfew. induction 1 as [pos Hge|pos s pos' w ws c steps Hpos Hsel Hmk Hnext HR IH];
    intros H0 i Hi; [lia|].
  destruct (step_facts self sentences Hv Hfew _ _ _ _ _ Hpos Hsel Hmk Hnext)
    as ((Hs & Hp) & _).
  destruct (Z.lt_ge_cases i s) as [Hin|Hout].
  - apply Exists_cons_hd. simpl. lia.
  - apply Exists_cons_tl. apply IH; lia.
Qed.

(** X7.  Every sentence the accountant prepares is in at least one chunk. *)
Theorem every_sentence_in_a_chunk (self : SentenceChunker.t) (text : jsstring) :
  SentenceChunker.valid self -> len text + 1 < 2 ^ 31 -> String_trim text <> [] ->
  exists chunks ws,
    SentenceChunker.chunk self text = Ok (chunks, ws)
    /\ forall s, In s (SentenceChunker._prepareSentences self text) ->
                 exists c, In c chunks /\ In s (sc_sentences c).
Proof.
  intros Hv Hsmall Hblank.
  destruct (chunk_run self text Hv Hsmall) as (steps & ws & E & [(Ht & _)|(_ & HR)]);
    [congruence|].
  exists (chunks_of steps), ws. split; [exact E|].
  set (sentences := SentenceChunker._prepareSentences self text) in *.
  assert (len sentences + 1 < 2 ^ 31) as Hfew.
  { pose proof (prepare_count self Hv text). fold sentences in H. lia. }
  pose proof (prepare_layout self text) as Hlay. fold sentences in Hlay.
  pose proof (Run_layout self sentences Hv Hfew Hlay _ _ _ HR) as Hl.
  intros s Hin. destruct (In_nth_error _ _ Hin) as (k & Hk).
  assert (k < length sentences)%nat as Hlt by (apply nth_error_Some; congruence).
  pose proof (Run_covers self sentences Hv Hfew _ _ _ HR ltac:(lia) (Z.of_nat k)
                ltac:(unfold len; lia)) as Hex.
  apply Exists_exists in Hex as ([[p q] c] & Hst & Hr). simpl in Hr.
  rewrite Forall_forall in Hl. destruct (Hl _ Hst) as (Hp & Hq & Hsl & _).
  exists c. split.
  - unfold chunks_of. apply in_map_iff. exists (p, q, c). auto.
  - rewrite Hsl. apply (nth_error_In _ (Z.to_nat (Z.of_nat k - p))).
    pose proof (at_index_slice sentences p q (Z.of_nat k - p) ltac:(lia) Hq ltac:(lia)) as Ha.
    unfold at_index in Ha.
    destruct (Z.ltb_spec (Z.of_nat k - p) 0); [lia|].
    destruct (Z.ltb_spec (p + (Z.of_nat k - p)) 0); [lia|].
    rewrite Ha. replace (Z.to_nat (p + (Z.of_nat k - p))) with k by lia. exact Hk.
Qed.

Lemma every_sentence_in_a_chunk_witness :
  exists chunks ws,
    SentenceChunker.chunk chunker_overlap text_3452 = Ok (chunks, ws)
    /\ forall s, In s (SentenceChunker._prepareSentences chunker_overlap text_3452) ->
                 exists c, In c chunks /\ In s (sc_sentences c).
Proof.
  apply (every_sentence_in_a_chunk chunker_overlap text_3452).
  - valid_config.
  - vm_compute. reflexivity.
  - vm_compute. discriminate.
Defined.

(** ** Consecutive chunks *)


Lemma slice_split {A : Type} (l : list A) (p q s : Z) :
  0 <= p <= q -> q <= s -> s <= len l ->
  slice l p s = slice l p q ++ slice l q s.
Proof.
  intros Hp Hq Hs. rewrite !slice_inner by lia.
  replace (Z.to_nat (s - p)) with (Z.to_nat (q - p) + Z.to_nat (s - q))%nat by lia.
  rewrite firstn_plus, skipn_skipn.
  replace (Z.to_nat (q - p) + Z.to_nat p)%nat with (Z.to_nat q) by lia.
  reflexivity.
Qed.

(** The sentences the overlap walk steps over cost at most [chunkOverlap],
    each counted with one more token than its own. *)
Lemma overlap_loop_bound (self : SentenceChunker.t) (sentences : list Sentence) (pos : Z) :
  0 <= pos ->
  forall (fuel : nat) (overlapTokens overlapIdx o : Z),
    pos <= overlapIdx < len sentences ->
    overlapTokens <= SentenceChunker.chunkOverlap self ->
    SentenceChunker.overlap_loop fuel self sentences pos overlapTokens overlapIdx = Ok o ->
    pos <= o <= overlapIdx
    /\ overlapTokens + total_tokens (slice sentences (o + 1) (overlapIdx + 1))
       + (overlapIdx - o) <= SentenceChunker.chunkOverlap self.
Proof.
  intros Hpos. induction fuel as [|fuel IH]; intros tokens idx o Hidx Htok E.
  - simpl in E. destruct ((idx >? pos) && (tokens <? SentenceChunker.chunkOverlap self));
      [discriminate|]. inv E.
    split; [lia|]. rewrite slice_inner by lia.
    replace (Z.to_nat (o + 1 - (o + 1))) with 0%nat by lia. simpl.
    unfold total_tokens. simpl. lia.
  - simpl in E.
    assert (forall k, slice sentences (k + 1) (k + 1) = []) as Hempty.
    { intros k. unfold slice. replace (Z.to_nat _) with 0%nat by lia. reflexivity. }
    destruct (Z.gtb_spec idx pos) as [Hgt|Hle]; simpl in E.
    2:{ inv E. split; [lia|]. rewrite Hempty. unfold total_tokens. simpl. lia. }
    destruct (tokens <? SentenceChunker.chunkOverlap self).
    2:{ inv E. split; [lia|]. rewrite Hempty. unfold total_tokens. simpl. lia. }
    destruct (at_index sentences idx) as [sent|] eqn:Hs; [|discriminate].
    destruct (Z.gtb_spec (tokens + s_tokenCount sent + 1) (SentenceChunker.chunkOverlap self)).
    + inv E. split; [lia|]. rewrite Hempty. unfold total_tokens. simpl. lia.
    + destruct (IH (tokens + s_tokenCount sent + 1) (idx - 1) o ltac:(lia) ltac:(lia) E)
        as (Hr & Hb). split; [lia|].
      rewrite (slice_split sentences (o + 1) idx (idx + 1)) by lia.
      rewrite total_tokens_app.
      assert (slice sentences idx (idx + 1) = [sent]) as Hone.
      { unfold at_index in Hs. destruct (Z.ltb_spec idx 0); [lia|].
        pose proof (slice_single sentences (Z.to_nat idx) sent Hs) as H1.
        now rewrite Z2Nat.id in H1 by lia. }
      rewrite Hone. unfold total_tokens at 2. simpl.
      replace (idx - 1 + 1) with idx in Hb by lia. lia.
Qed.

Lemma next_pos_bound (self : SentenceChunker.t) (sentences : list Sentence)
    (pos splitIdx pos' : Z) :
  SentenceChunker.valid self -> 0 <= pos < splitIdx -> splitIdx <= len sentences ->
  SentenceChunker.next_pos self sentences pos splitIdx = Ok pos' ->
  total_tokens (slice sentences pos' splitIdx) + (splitIdx - pos')
  <= SentenceChunker.chunkOverlap self.
Proof.
  intros Hv Hpos Hs E. destruct Hv as (_ & Hov & _).
  unfold SentenceChunker.next_pos in E.
  assert (forall k, slice sentences k k = []) as Hempty.
  { intros k. unfold slice. replace (Z.to_nat _) with 0%nat by lia. reflexivity. }
  destruct ((SentenceChunker.chunkOverlap self >? 0) && (splitIdx <? len sentences)).
  - apply bind_ok in E as (o & Eo & E). inv E.
    destruct (overlap_loop_bound self sentences pos ltac:(lia) _ 0 (splitIdx - 1) o
                ltac:(lia) ltac:(lia) Eo) as (Hr & Hb).
    replace (splitIdx - 1 + 1) with splitIdx in Hb by lia. lia.
  - inv E. rewrite Hempty. unfold total_tokens. simpl. lia.
Qed.

(** How the windows of a run follow one another. *)
Lemma Run_chain (self : SentenceChunker.t) (sentences : list Sentence) :
  SentenceChunker.valid self -> len sentences + 1 < 2 ^ 31 ->
  forall pos steps ws,
    Run self sentences pos steps ws -> 0 <= pos ->
    (forall st rest, steps = st :: rest -> fst (fst st) = pos)
    /\ Sorted (fun a b =>
                 fst (fst a) < fst (fst b) <= snd (fst a)
                 /\ (SentenceChunker.chunkOverlap self = 0 -> fst (fst b) = snd (fst a))
                 /\ total_tokens (slice sentences (fst (fst b)) (snd (fst a)))
                    + (snd (fst a) - fst (fst b)) <= SentenceChunker.chunkOverlap self)
              steps
    /\ (forall init st, steps = init ++ [st] -> snd (fst st) = len sentences).
Proof.
  intros Hv Hfew. induction 1 as [pos Hge|pos s pos' w ws c steps Hpos Hsel Hmk Hnext HR IH];
    intros H0.
  - split; [intros st rest E; discriminate|]. split; [constructor|].
    intros init st E. destruct init; discriminate.
  - destruct (step_facts self sentences Hv Hfew _ _ _ _ _ Hpos Hsel Hmk Hnext)
      as ((Hs & Hp) & Hno & _).
    pose proof (next_pos_bound self sentences pos s pos' Hv ltac:(lia) ltac:(lia) Hnext) as Hb.
    destruct (IH ltac:(lia)) as (Hfirst & Hsorted & Hlast).
    split; [intros st rest E; now inv E|]. split.
    + constructor; [exact Hsorted|]. destruct steps as [|st steps]; constructor.
      rewrite (Hfirst st steps eq_refl). simpl. split; [lia|]. split; [|exact Hb].
      intros Hov. apply Hno. now left.
    + intros init st E. destruct init as [|x init].
      * simpl in E. injection E as E1 E2. subst steps st. simpl.
        inversion HR; subst. lia.
      * simpl in E. injection E as E1 E2. now apply (Hlast init).
Qed.



(** X9.  The overlap stays within its budget.  When the counts of the
    sentences are within the reach of the double arithmetic of the code
    (one count per sentence, summing in absolute value with [chunkSize] to
    less than 2^53): of two consecutive chunks, the later starts inside
    the earlier only past its first sentence; the sentences of the
    earlier chunk from that offset on (the ones the two chunks share),
    each counted with one token more than its own, cost at most
    [chunkOverlap]. *)
Theorem overlap_within_budget (self : SentenceChunker.t) (text : jsstring) :
  SentenceChunker.valid self -> len text + 1 < 2 ^ 31 ->
  counts_exact self text ->
  exists chunks ws,
    SentenceChunker.chunk self text = Ok (chunks, ws)
    /\ Sorted (fun c d =>
                 exists own shared,
                   sc_sentences c = own ++ shared /\ own <> []
                   /\ sc_startIndex d + extent shared = sc_endIndex c
                   /\ total_tokens shared + len shared
                      <= SentenceChunker.chunkOverlap self) chunks.
Proof.
  intros Hv Hsmall _.
  destruct (chunk_run self text Hv Hsmall) as (steps & ws & E & [(_ & -> & _)|(_ & HR)]).
  - exists [], ws. split; [exact E|constructor].
  - exists (chunks_of steps), ws. split; [exact E|].
    set (sentences := SentenceChunker._prepareSentences self text) in *.
    assert (len sentences + 1 < 2 ^ 31) as Hfew.
    { pose proof (prepare_count self Hv text). fold sentences in H. lia. }
    pose proof (prepare_layout self text) as Hlay. fold sentences in Hlay.
    pose proof (Run_layout self sentences Hv Hfew Hlay _ _ _ HR) as Hl.
    destruct (Run_chain self sentences Hv Hfew _ _ _ HR ltac:(lia)) as (_ & Hsorted & _).
    unfold chunks_of. eapply Sorted_map_steps; [|exact Hsorted|exact Hl].
    intros [[p s] c] [[p' s'] c'] (Hp & Hs & Hsl & _ & _ & Hst & Hen)
           (Hp' & Hs' & _ & _ & _ & Hst' & Hen') (Hlt & _ & Hbound).
    simpl in *. exists (slice sentences p p'), (slice sentences p' s).
    split; [rewrite Hsl; apply slice_split; lia|].
    split; [apply slice_not_nil; lia|]. split.
    + rewrite Hst', Hen, (firstn_slice sentences p' s) by lia. now rewrite extent_app.
    + rewrite slice_length by lia. exact Hbound.
Qed.

Lemma overlap_within_budget_witness :
  exists chunks ws,
    SentenceChunker.chunk chunker_overlap text_3452 = Ok (chunks, ws)
    /\ Sorted (fun c d =>
                 exists own shared,
                   sc_sentences c = own ++ shared /\ own <> []
                   /\ sc_startIndex d + extent shared = sc_endIndex c
                   /\ total_tokens shared + len shared
                      <= SentenceChunker.chunkOverlap chunker_overlap) chunks.
Proof.
  apply (overlap_within_budget chunker_overlap text_3452).
  - valid_config.
  - vm_compute. reflexivity.
  - split; vm_compute; reflexivity.
Defined.

(** ** Windows are filled as far as the budget allows *)

Lemma num_at_nonneg (counts : list Z) (i : Z) :
  Forall (fun k => 0 <= k) counts -> 0 <= num_at counts i.
Proof.
  intros H. unfold num_at. destruct (at_index counts i) as [x|] eqn:E; [|lia].
  unfold at_index in E. destruct (i <? 0); [discriminate|].
  apply nth_error_In in E. rewrite Forall_forall in H. now apply H.
Qed.

Lemma mapi_from_nonneg (a c : Z -> Z) (b : jsstring -> Z -> Z) (l : list jsstring) :
  (forall i, 0 <= c i) ->
  forall k,
    Forall (fun s => 0 <= s_tokenCount s)
           (SentenceChunker.mapi_from (fun sent i => mkSentence sent (a i) (b sent i) (c i)) k l).
Proof.
  intros Hc. induction l as [|x l IH]; intros k; simpl; constructor; [apply Hc|apply IH].
Qed.

Lemma prepare_nonneg (self : SentenceChunker.t) (text : jsstring) :
  counts_nonneg (SentenceChunker.tokenizer self) ->
  Forall (fun s => 0 <= s_tokenCount s) (SentenceChunker._prepareSentences self text).
Proof.
  intros Hn. unfold SentenceChunker._prepareSentences.
  destruct (is_empty (SentenceChunker._splitText self text)); [constructor|].
  apply mapi_from_nonneg. intros i. apply num_at_nonneg. apply Hn.
Qed.

Lemma total_tokens_nonneg (l : list Sentence) :
  Forall (fun s => 0 <= s_tokenCount s) l -> 0 <= total_tokens l.
Proof.
  unfold total_tokens. induction 1 as [|x l Hx Hl IH]; simpl; lia.
Qed.

Lemma Forall_prefix {A : Type} (P : A -> Prop) (n : nat) (l : list A) :
  Forall P l -> Forall P (firstn n l).
Proof.
  intros H. revert n. induction H as [|x l Hx Hl IH]; intros [|n]; simpl; constructor; auto.
Qed.

Lemma Forall_suffix {A : Type} (P : A -> Prop) (n : nat) (l : list A) :
  Forall P l -> Forall P (skipn n l).
Proof.
  intros H. revert n. induction H as [|x l Hx Hl IH]; intros [|n]; simpl; auto.
Qed.

Lemma Forall_slice {A : Type} (P : A -> Prop) (l : list A) (p s : Z) :
  Forall P l -> Forall P (slice l p s).
Proof.
  intros H. unfold slice. apply Forall_prefix. now apply Forall_suffix.
Qed.

Lemma tokenSums_nondecreasing (l : list Sentence) :
  Forall (fun s => 0 <= s_tokenCount s) l ->
  nondecreasing (SentenceChunker.tokenSums_from 0 l).
Proof.
  intros Hn i j x y Hij Hi Hj.
  pose proof (at_index_range _ _ _ Hi) as Ri. pose proof (at_index_range _ _ _ Hj) as Rj.
  rewrite tokenSums_length in Ri, Rj.
  pose proof (tokenSums_diff l i j ltac:(lia) ltac:(lia)) as Hd.
  unfold num_at in Hd. rewrite Hi, Hj in Hd.
  pose proof (total_tokens_nonneg _ (Forall_slice _ l i j Hn)). lia.
Qed.

(** When the split index is not the end of the sentences, the sentence
    at the split index would bring the window to [chunkSize] or beyond. *)
Lemma select_split_maximal (self : SentenceChunker.t) (sentences : list Sentence)
    (pos splitIdx : Z) (w : list warning) :
  SentenceChunker.valid self -> len sentences + 1 < 2 ^ 31 ->
  Forall (fun s => 0 <= s_tokenCount s) sentences ->
  0 <= pos < len sentences ->
  SentenceChunker.select_split self sentences
    (SentenceChunker.tokenSums_from 0 sentences) pos = Ok (splitIdx, w) ->
  splitIdx < len sentences ->
  SentenceChunker.chunkSize self <= total_tokens (slice sentences pos (splitIdx + 1)).
Proof.
  intros Hv Hfew Hn Hpos E Hin.
  pose proof (tokenSums_length 0 sentences) as Hlen.
  set (sums := SentenceChunker.tokenSums_from 0 sentences) in *.
  assert (forall i x, len sums <= i -> at_index sums i = Some x ->
                      num_at sums pos + SentenceChunker.chunkSize self <= x) as Hout.
  { intros i x Hi Hx. apply at_index_range in Hx. lia. }
  destruct (bisect_loop_sorted sums (num_at sums pos + SentenceChunker.chunkSize self) pos
              ltac:(lia) (tokenSums_nondecreasing _ Hn) (length sums) pos (len sums)
              ltac:(lia) ltac:(lia) ltac:(unfold len; lia) ltac:(intros; lia) Hout)
    as (b & Eb & Hr & _ & Habove).
  unfold SentenceChunker.select_split, SentenceChunker._bisectLeft in E.
  rewrite Eb in E. simpl bind in E.
  assert (b - 1 <= splitIdx) as Hb.
  { destruct (Z.ltb_spec (Z.max (Z.min (b - 1) (len sentences)) (pos + 1) - pos)
                         (SentenceChunker.minSentencesPerChunk self)) as [Hshort|Hlong];
      [destruct (pos + SentenceChunker.minSentencesPerChunk self <=? len sentences)|];
      inv E; lia. }
  destruct (at_index_some sums (splitIdx + 1) ltac:(lia)) as (x & Hx).
  pose proof (Habove (splitIdx + 1) x ltac:(lia) Hx) as Hge.
  pose proof (tokenSums_diff sentences pos (splitIdx + 1) ltac:(lia) ltac:(lia)) as Hd.
  fold sums in Hd. unfold num_at at 1 in Hd. rewrite Hx in Hd. lia.
Qed.

(** X10.  Greedy filling.  When the tokenizer counts no text negative and
    the counts of the sentences are within the reach of the double
    arithmetic of the code (one count per sentence, summing with
    [chunkSize] to less than 2^53), a chunk is closed only when the next
    sentence (the one that starts where the chunk ends) would bring the
    sum of the sentences' counts to [chunkSize] or beyond. *)
Theorem chunks_filled_to_budget (self : SentenceChunker.t) (text : jsstring) :
  SentenceChunker.valid self -> len text + 1 < 2 ^ 31 ->
  counts_nonneg (SentenceChunker.tokenizer self) ->
  counts_exact self text ->
  exists chunks ws,
    SentenceChunker.chunk self text = Ok (chunks, ws)
    /\ forall c s,
        In c chunks -> In s (SentenceChunker._prepareSentences self text) ->
        s_startIndex s = sc_endIndex c ->
        SentenceChunker.chunkSize self <= total_tokens (sc_sentences c) + s_tokenCount s.
Proof.
  intros Hv Hsmall Hnn _.
  destruct (chunk_run self text Hv Hsmall) as (steps & ws & E & [(_ & -> & _)|(_ & HR)]).
  - exists [], ws. split; [exact E|]. intros c s [].
  - exists (chunks_of steps), ws. split; [exact E|].
    pose proof (prepare_nonneg self text Hnn) as Hn.
    set (sentences := SentenceChunker._prepareSentences self text) in *.
    assert (len sentences + 1 < 2 ^ 31) as Hfew.
    { pose proof (prepare_count self Hv text). fold sentences in H. lia. }
    pose proof (prepare_layout self text) as Hlay. fold sentences in Hlay.
    pose proof (Run_layout self sentences Hv Hfew Hlay _ _ _ HR) as Hl.
    assert (Forall (fun st => snd (fst st) < len sentences ->
                              SentenceChunker.chunkSize self
                              <= total_tokens (slice sentences (fst (fst st))
                                                     (snd (fst st) + 1))) steps) as Hmax.
    { eapply (Run_Forall self sentences); [|exact HR].
      intros p q p' w c Hp Hsel _ _ Hq. simpl in *.
      exact (select_split_maximal self sentences p q w Hv Hfew Hn Hp Hsel Hq). }
    intros c s Hc Hs Hstart. unfold chunks_of in Hc. apply in_map_iff in Hc as ([[p q] c'] & Ec & Hst).
    simpl in Ec. subst c'.
    rewrite Forall_forall in Hl, Hmax.
    destruct (Hl _ Hst) as (Hp & Hq & Hsl & _ & _ & _ & Hen). specialize (Hmax _ Hst). simpl in Hmax.
    destruct (In_nth_error _ _ Hs) as (k & Hk).
    assert (k < length sentences)%nat as Hlt by (apply nth_error_Some; congruence).
    destruct (laid_out_at sentences 0 k s Hlay Hk) as (Hks & _).
    assert (Z.of_nat k = q) as Hkq.
    { rewrite Hstart, Hen in Hks. simpl in Hks.
      destruct (Z.lt_trichotomy (Z.of_nat k) q) as [Hlt'|[Heq|Hgt]]; [|exact Heq|].
      - pose proof (extent_firstn_lt sentences 0 (Z.of_nat k) q Hlay ltac:(lia) Hq) as Hx.
        rewrite Nat2Z.id in Hx. lia.
      - pose proof (extent_firstn_lt sentences 0 q (Z.of_nat k) Hlay ltac:(lia)
                      ltac:(unfold len; lia)) as Hx.
        rewrite Nat2Z.id in Hx. lia. }
    subst q. specialize (Hmax ltac:(unfold len; lia)).
    rewrite (slice_split sentences p (Z.of_nat k) (Z.of_nat k + 1)) in Hmax
      by (unfold len; lia).
    rewrite (slice_single sentences k s Hk), total_tokens_app in Hmax.
    rewrite Hsl. unfold total_tokens at 2 in Hmax. simpl in Hmax. lia.
Qed.

Lemma chunks_filled_to_budget_witness :
  exists chunks ws,
    SentenceChunker.chunk chunker_7 text_3452 = Ok (chunks, ws)
    /\ forall c s,
        In c chunks -> In s (SentenceChunker._prepareSentences chunker_7 text_3452) ->
        s_startIndex s = sc_endIndex c ->
        SentenceChunker.chunkSize chunker_7 <= total_tokens (sc_sentences c) + s_tokenCount s.
Proof.
  apply (chunks_filled_to_budget chunker_7 text_3452).
  - valid_config.
  - vm_compute. reflexivity.
  - intros texts. simpl. apply Forall_map, Forall_forall. intros x _. apply len_nonneg.
  - split; vm_compute; reflexivity.
Defined.

(** ** A text within the budget is one chunk *)

Lemma total_tokens_slice_le (l : list Sentence) (p s : Z) :
  Forall (fun x => 0 <= s_tokenCount x) l -> 0 <= p <= s -> s <= len l ->
  total_tokens (slice l p s) <= total_tokens l.
Proof.
  intros Hn Hp Hs. rewrite (slice_decompose l p s Hp Hs) at 2.
  rewrite !total_tokens_app.
  pose proof (total_tokens_nonneg _ (Forall_prefix _ (Z.to_nat p) l Hn)).
  pose proof (total_tokens_nonneg _ (Forall_suffix _ (Z.to_nat s) l Hn)). lia.
Qed.

Lemma Run_single (self : SentenceChunker.t) (sentences : list Sentence)
    (steps : list (Z * Z * SentenceChunk)) (ws : list warning) :
  SentenceChunker.valid self -> len sentences + 1 < 2 ^ 31 ->
  Forall (fun s => 0 <= s_tokenCount s) sentences -> laid_out 0 sentences ->
  0 < len sentences -> total_tokens sentences < SentenceChunker.chunkSize self ->
  Run self sentences 0 steps ws ->
  exists c,
    chunks_of steps = [c]
    /\ sc_text c = concat (map s_text sentences) /\ sc_startIndex c = 0
    /\ sc_endIndex c = extent sentences /\ sc_sentences c = sentences.
Proof.
  intros Hv Hfew Hn Hlay Hsome Htotal HR.
  pose proof (Run_layout self sentences Hv Hfew Hlay _ _ _ HR) as Hl.
  inversion HR as [pos Hdone|pos splitIdx pos' w0 ws0 c steps' Hpos Hsel Hmk Hnext HR'];
    subst; [lia|].
  inversion Hl as [|x l Hx _]; subst. simpl in Hx.
  destruct Hx as (Hps & Hs & Hsl & Htext & _ & Hst & Hen).
  assert (splitIdx = len sentences) as ->.
  { destruct (Z.eq_dec splitIdx (len sentences)) as [Heq|Hne]; [exact Heq|].
    pose proof (select_split_maximal self sentences 0 splitIdx w0 Hv Hfew Hn Hpos Hsel
                  ltac:(lia)) as Hmax.
    pose proof (total_tokens_slice_le sentences 0 (splitIdx + 1) Hn). lia. }
  destruct (next_pos_spec self sentences 0 (len sentences) ltac:(lia) ltac:(lia))
    as (p' & Hnext' & _ & Hp').
  rewrite Hnext in Hnext'. inv Hnext'. rewrite Hp' in HR' by (right; reflexivity).
  inversion HR' as [pos Hdone|]; subst; [|lia].
  exists c. split; [reflexivity|].
  assert (slice sentences 0 (len sentences) = sentences) as Hall.
  { rewrite slice_all_after by lia. reflexivity. }
  rewrite Hall in *. simpl in Hst.
  assert (firstn (Z.to_nat (len sentences)) sentences = sentences) as Hfull
    by (apply firstn_all2; unfold len; lia).
  rewrite Hfull in Hen. repeat split; assumption.
Qed.

(** X11.  A text within the budget is one chunk.  When the delimiters are kept,
    the text is free of the sentinel and not blank, the tokenizer gives
    one count per sentence, none of them negative, and the counts sum to
    less than [chunkSize], and with [chunkSize] to less than 2^53 (so
    that the sums the code forms in double precision are exact),
    [SentenceChunker.chunk] returns exactly one chunk: the whole text, from offset 0 to its length, with
    all the sentences. *)
Theorem text_within_budget_is_one_chunk (self : SentenceChunker.t) (text : jsstring) :
  SentenceChunker.valid self -> len text + 1 < 2 ^ 31 ->
  counts_nonneg (SentenceChunker.tokenizer self) ->
  counts_exact self text ->
  SentenceChunker.includeDelim self = Some (js "prev")
  \/ SentenceChunker.includeDelim self = Some (js "next") ->
  ~ In 9988%N text -> String_trim text <> [] ->
  total_tokens (SentenceChunker._prepareSentences self text) < SentenceChunker.chunkSize self ->
  exists c ws,
    SentenceChunker.chunk self text = Ok ([c], ws)
    /\ sc_text c = text /\ sc_startIndex c = 0 /\ sc_endIndex c = len text
    /\ sc_sentences c = SentenceChunker._prepareSentences self text.
Proof.
  intros Hv Hsmall Hnn _ Hkept Hsent Hblank Htotal.
  destruct (chunk_run self text Hv Hsmall) as (steps & ws & E & [(Hb & _)|(_ & HR)]);
    [contradiction|].
  pose proof (sentences_rebuild self Hv Hkept text Hsent) as Hre.
  assert (len (SentenceChunker._prepareSentences self text) + 1 < 2 ^ 31) as Hfew.
  { pose proof (prepare_count self Hv text). lia. }
  assert (0 < len (SentenceChunker._prepareSentences self text)) as Hsome.
  { apply len_pos. intros Hnil. rewrite Hnil in Hre. simpl in Hre. subst text.
    now elim Hblank. }
  destruct (Run_single self _ steps ws Hv Hfew (prepare_nonneg self text Hnn)
              (prepare_layout self text) Hsome Htotal HR)
    as (c & Hc & Htext & Hst & Hen & Hsl).
  exists c, ws. rewrite Hc in E. split; [exact E|].
  rewrite extent_concat, Hre in Hen. rewrite Hre in Htext. repeat split; assumption.
Qed.

Lemma text_within_budget_is_one_chunk_witness :
  exists c ws,
    SentenceChunker.chunk (sentence_chunker characterTokenizer 20 0 1 1 [js ". "] prev_policy)
                          text_3452 = Ok ([c], ws)
    /\ sc_text c = text_3452 /\ sc_startIndex c = 0 /\ sc_endIndex c = len text_3452
    /\ sc_sentences c
       = SentenceChunker._prepareSentences
           (sentence_chunker characterTokenizer 20 0 1 1 [js ". "] prev_policy) text_3452.
Proof.
  apply (text_within_budget_is_one_chunk
           (sentence_chunker characterTokenizer 20 0 1 1 [js ". "] prev_policy) text_3452).
  - valid_config.
  - vm_compute. reflexivity.
  - intros texts. simpl. apply Forall_map, Forall_forall. intros x _. apply len_nonneg.
  - split; vm_compute; reflexivity.
  - left. reflexivity.
  - vm_compute. intros H. repeat (destruct H as [H|H]; [discriminate|]). exact H.
  - vm_compute. discriminate.
  - vm_compute. reflexivity.
Defined.

(** ** Dropped delimiters *)

Lemma strip_concat (s : code_unit) (ps : list jsstring) :
  strip s (concat ps) = concat (map (strip s) ps).
Proof.
  induction ps as [|p ps IH]; [reflexivity|].
  simpl. now rewrite strip_app, IH.
Qed.

Lemma in_concat_join (x : code_unit) (ps : list jsstring) (c : jsstring) :
  In x (concat ps) -> In x (Array_join ps c).
Proof.
  induction ps as [|p ps IH]; [auto|].
  destruct ps as [|q ps]; [simpl; now rewrite app_nil_r|].
  rewrite join_cons. simpl concat in *. intros H.
  apply in_app_or in H as [H|H]; apply in_or_app; [now left|].
  right. apply in_or_app. right. now apply IH.
Qed.

(** X12.  Dropped delimiters.  With the policy [null] and a single delimiter
    [c], the sentences prepared from a text free of the sentinel, glued
    together, are [text.split(c).join("")], the text without its
    delimiters, while [text.split(c).join(c)] is the text: the offsets of
    the sentences and of the chunks, sums of the sentences' lengths, count
    code units of the former, not of the input. *)
Theorem dropped_delimiter_text (self : SentenceChunker.t) (text c : jsstring) :
  SentenceChunker.valid self ->
  SentenceChunker.includeDelim self = None ->
  SentenceChunker.delim self = [c] ->
  ~ In 9988%N text ->
  concat (map s_text (SentenceChunker._prepareSentences self text))
  = Array_join (String_split text c) []
  /\ Array_join (String_split text c) c = text
  /\ extent (SentenceChunker._prepareSentences self text)
     = len (Array_join (String_split text c) []).
Proof.
  intros Hv Hnull Hd Hsent.
  assert (concat (map s_text (SentenceChunker._prepareSentences self text))
          = Array_join (String_split text c) []) as Hcat.
  { rewrite prepare_texts, splitText_concat by exact Hv.
    rewrite Hd. simpl fold_left. unfold SentenceChunker.mark_delim.
    rewrite Hnull. simpl SentenceChunker.is_prev. simpl SentenceChunker.is_next. cbv iota.
    rewrite (self_sep self Hv), strip_join, strip_self, !join_empty, <- strip_concat.
    apply strip_absent. intros Hin. apply Hsent.
    rewrite <- (join_split text c). now apply in_concat_join. }
  split; [exact Hcat|]. split; [apply join_split|].
  now rewrite extent_concat, Hcat.
Qed.

Lemma dropped_delimiter_text_witness :
  concat (map s_text
            (SentenceChunker._prepareSentences
               (sentence_chunker characterTokenizer 7 0 1 1 [js ". "] None) text_3452))
  = js "abbcccdd"
  /\ Array_join (String_split text_3452 (js ". ")) (js ". ") = text_3452
  /\ extent (SentenceChunker._prepareSentences
               (sentence_chunker characterTokenizer 7 0 1 1 [js ". "] None) text_3452)
     = 8.
Proof.
  apply (dropped_delimiter_text
           (sentence_chunker characterTokenizer 7 0 1 1 [js ". "] None) text_3452 (js ". ")).
  - valid_config.
  - reflexivity.
  - reflexivity.
  - vm_compute. intros H. repeat (destruct H as [H|H]; [discriminate|]). exact H.
Defined.

(* ================================================================== *)
(** * Further properties of RecursiveChunker *)

(** ** Merging keeps the text *)

Lemma join_app (a b : list jsstring) (sep : jsstring) :
  a <> [] -> b <> [] ->
  Array_join (a ++ b) sep = Array_join a sep ++ sep ++ Array_join b sep.
Proof.
  intros Ha Hb. induction a as [|x a IH]; [congruence|].
  destruct a as [|y a].
  - simpl app. destruct b as [|z b]; [congruence|]. apply join_cons.
  - change ((x :: y :: a) ++ b) with (x :: y :: (a ++ b)).
    rewrite !join_cons. change (y :: a ++ b) with ((y :: a) ++ b).
    rewrite IH by congruence. now rewrite <- !app_assoc.
Qed.

Lemma join_first (x : jsstring) (rest : list jsstring) (sep : jsstring) :
  rest <> [] -> Array_join (x :: rest) sep = x ++ sep ++ Array_join rest sep.
Proof. destruct rest; [congruence|]. intros _. apply join_cons. Qed.

Lemma slice_same {A : Type} (l : list A) (n : Z) : slice l n n = [].
Proof. unfold slice. now rewrite Z.sub_diag. Qed.

(** The loop of [mergeSplits] joins group by group what joining all the
    splits at once gives. *)
Lemma merge_loop_join (splits : list jsstring) (combineWhitespace : bool)
    (resultTokenCounts : list Z) :
  forall (resultIndices : list Z) (i currentIndex : Z)
         (merged : list jsstring) (combinedTokenCounts : list Z),
    0 <= currentIndex -> partitions currentIndex (len splits) resultIndices ->
    exists pieces counts,
      RecursiveChunker.merge_loop splits combineWhitespace resultTokenCounts
        resultIndices i currentIndex merged combinedTokenCounts
      = (merged ++ pieces, combinedTokenCounts ++ counts)
      /\ length pieces = length resultIndices
      /\ length counts = length resultIndices
      /\ Array_join pieces (if combineWhitespace then js " " else [])
         = Array_join (slice splits currentIndex (len splits))
                      (if combineWhitespace then js " " else []).
Proof.
  set (sep := if combineWhitespace then js " " else []).
  induction resultIndices as [|endIndex rest IH]; intros i cur merged cc Hcur Hp.
  - simpl in Hp. subst cur. exists [], []. simpl. rewrite !app_nil_r, slice_same.
    repeat split; reflexivity.
  - destruct Hp as (Hend & Hrest). simpl RecursiveChunker.merge_loop.
    assert ((if combineWhitespace
             then Array_join (slice splits cur endIndex) (js " ")
             else Array_join (slice splits cur endIndex) [])
            = Array_join (slice splits cur endIndex) sep) as ->
      by (unfold sep; now destruct combineWhitespace).
    destruct (IH (i + 1) endIndex
                 (merged ++ [Array_join (slice splits cur endIndex) sep])
                 (cc ++ [num_at resultTokenCounts i]) ltac:(lia) Hrest)
      as (pieces & counts & E & Hlp & Hlc & Hjoin).
    exists (Array_join (slice splits cur endIndex) sep :: pieces),
           (num_at resultTokenCounts i :: counts).
    rewrite E, <- !app_assoc. split; [reflexivity|]. simpl length.
    split; [congruence|]. split; [congruence|].
    destruct rest as [|next rest].
    + simpl in Hrest. subst endIndex. destruct pieces; [|discriminate]. reflexivity.
    + destruct Hrest as (Hnext & _).
      assert (pieces <> []) as Hne by (destruct pieces; [discriminate|congruence]).
      rewrite join_first by exact Hne. rewrite Hjoin.
      rewrite (slice_split splits cur endIndex (len splits)) by lia.
      rewrite join_app; [reflexivity| |]; apply slice_not_nil; lia.
Qed.

(** X13.  Merging keeps the text.  Whenever [merge_splits] returns end indices
    that cut the splits into consecutive non-empty groups, [mergeSplits]
    returns pieces that, joined with the separator of the merge (a space
    when [combineWhitespace], nothing otherwise), give what the splits
    joined the same way give; and it returns one token count per piece. *)
Theorem mergeSplits_keeps_text (w : ChunkModule) (self : RecursiveChunker.t)
    (splits : list jsstring) (tokenCounts : list Z) (combineWhitespace : bool)
    (merged : list jsstring) (combinedTokenCounts : list Z) :
  merges_in_order w -> len splits = len tokenCounts ->
  RecursiveChunker.mergeSplits w self splits tokenCounts combineWhitespace
  = Ok (merged, combinedTokenCounts) ->
  Array_join merged (if combineWhitespace then js " " else [])
  = Array_join splits (if combineWhitespace then js " " else [])
  /\ len combinedTokenCounts = len merged.
Proof.
  intros Hw Hlen E. unfold RecursiveChunker.mergeSplits in E.
  destruct splits as [|x splits].
  { simpl in E. inv E. split; reflexivity. }
  destruct tokenCounts as [|k tokenCounts]; [discriminate|].
  simpl is_empty in E. simpl orb in E. cbv iota in E.
  rewrite Hlen, Z.eqb_refl in E. simpl negb in E. cbv iota in E.
  destruct (forallb _ (k :: tokenCounts)).
  { inv E. split; [reflexivity|]. symmetry. exact Hlen. }
  pose proof (Hw (k :: tokenCounts) (RecursiveChunker.chunkSize self) combineWhitespace
                 ltac:(congruence)) as Hp.
  rewrite <- Hlen in Hp.
  destruct (merge_loop_join (x :: splits) combineWhitespace
              (Wasm.tokenCounts (Wasm.merge_splits w (k :: tokenCounts)
                                   (RecursiveChunker.chunkSize self) combineWhitespace))
              _ 0 0 [] [] ltac:(lia) Hp)
    as (pieces & counts & E' & Hlp & Hlc & Hjoin).
  rewrite E' in E. simpl app in E. inv E. split.
  - rewrite Hjoin. f_equal. rewrite slice_all_after by (pose proof (len_nonneg (x :: splits)); lia).
    reflexivity.
  - unfold len. congruence.
Qed.

Lemma mergeSplits_keeps_text_witness :
  exists merged combinedTokenCounts,
    RecursiveChunker.mergeSplits lump_module chunker_words
      [js "ab"; js "cd"; js "e"] [2; 2; 1] true
    = Ok (merged, combinedTokenCounts)
    /\ Array_join merged (js " ") = js "ab cd e"
    /\ len combinedTokenCounts = len merged.
Proof.
  eexists; eexists. split; [reflexivity|].
  apply (mergeSplits_keeps_text lump_module chunker_words
           [js "ab"; js "cd"; js "e"] [2; 2; 1] true).
  - intros counts cs b Hne. simpl. pose proof (len_nonneg counts).
    assert (len counts <> 0) by (destruct counts; [congruence|rewrite len_cons; pose proof (len_nonneg counts); lia]).
    lia.
  - reflexivity.
  - reflexivity.
Defined.

(** ** The chunks lie end to end over the text *)

Lemma tiles_app (p : Z) (a b : list Chunk) :
  tiles p a -> tiles (p + len (concat (map text a))) b -> tiles p (a ++ b).
Proof.
  revert p. induction a as [|c a IH]; intros p Ha Hb.
  - simpl in Hb. now rewrite Z.add_0_r in Hb.
  - destruct Ha as (Hs & He & Ha). simpl. repeat split; [exact Hs|exact He|].
    apply IH; [exact Ha|]. simpl concat in Hb. rewrite len_app in Hb.
    rewrite He. now rewrite <- Z.add_assoc.
Qed.

Lemma tiles_locate (p : Z) (chunks : list Chunk) (c : Chunk) :
  tiles p chunks -> In c chunks ->
  exists before after,
    concat (map text chunks) = before ++ text c ++ after
    /\ startIndex c = p + len before /\ endIndex c = startIndex c + len (text c).
Proof.
  revert p. induction chunks as [|d chunks IH]; intros p Ht Hin; [destruct Hin|].
  destruct Ht as (Hs & He & Ht). destruct Hin as [->|Hin].
  - exists [], (concat (map text chunks)). simpl. rewrite len_nil. repeat split; lia.
  - destruct (IH _ Ht Hin) as (before & after & Hcat & Hstart & Hend).
    exists (text d ++ before), after. simpl concat. rewrite Hcat, <- app_assoc.
    split; [reflexivity|]. rewrite len_app. split; lia.
Qed.

Lemma ascii_pieces (pieces : list jsstring) :
  ascii (concat pieces) -> Forall ascii pieces.
Proof.
  induction pieces as [|x pieces IH]; intros H; [constructor|].
  simpl in H. unfold ascii in H. apply Forall_app in H as (Hx & Hrest).
  constructor; [exact Hx|]. now apply IH.
Qed.

Section RecursiveTiling.

Import RecursiveChunker.

Variable w : ChunkModule.
Variable self : RecursiveChunker.t.
Hypothesis chunkSize_pos : 0 < chunkSize self.
Hypothesis merges : merges_in_order w.

Lemma mergeSplits_join (splits : list jsstring) (combineWhitespace : bool)
    (merged : list jsstring) (combinedTokenCounts : list Z) :
  mergeSplits w self splits (map (estimateTokenCount self) splits) combineWhitespace
  = Ok (merged, combinedTokenCounts) ->
  Array_join merged (if combineWhitespace then js " " else [])
  = Array_join splits (if combineWhitespace then js " " else []).
Proof.
  intros E. unfold mergeSplits in E.
  destruct splits as [|x splits]; [simpl in E; now inv E|].
  simpl is_empty in E. simpl orb in E. cbv iota in E.
  replace (len (map (estimateTokenCount self) (x :: splits))) with (len (x :: splits)) in E
    by (unfold len; now rewrite length_map).
  rewrite Z.eqb_refl in E. simpl negb in E. cbv iota in E.
  destruct (forallb _ _); [now inv E|].
  pose proof (merges (map (estimateTokenCount self) (x :: splits)) (chunkSize self)
                combineWhitespace ltac:(discriminate)) as Hp.
  replace (len (map (estimateTokenCount self) (x :: splits))) with (len (x :: splits)) in Hp
    by (unfold len; now rewrite length_map).
  destruct (merge_loop_join (x :: splits) combineWhitespace
              (Wasm.tokenCounts (Wasm.merge_splits w (map (estimateTokenCount self) (x :: splits))
                                   (chunkSize self) combineWhitespace))
              _ 0 0 [] [] ltac:(lia) Hp)
    as (pieces & counts & E' & _ & _ & Hjoin).
  rewrite E' in E. simpl app in E. inv E. rewrite Hjoin. f_equal.
  rewrite slice_all_after by (pose proof (len_nonneg (x :: splits)); lia). reflexivity.
Qed.

(** The pieces a level hands on make up the text it was given. *)
Lemma split_and_merge_exact (input : jsstring) (rule : RecursiveLevel)
    (merged : list jsstring) (counts : list Z) :
  keeps_text w self rule -> ascii input ->
  split_and_merge w self input rule = Ok (merged, counts) ->
  concat merged = input.
Proof.
  intros (Hws & Hk) Ha E. unfold split_and_merge in E.
  apply bind_ok in E as (splits & Es & E).
  unfold splitText in Es. rewrite Hws in Es, E.
  rewrite andb_false_r in E. cbv iota in E.
  destruct (truthy_delimiters (delimiters rule)) eqn:Ht.
  - (* delimiter level *)
    destruct Hk as (Hinc & Htile). inv Es.
    assert (is_empty_opt (delimiters rule) = false) as Hd
      by (destruct (delimiters rule); [reflexivity|discriminate]).
    rewrite Hd in E. simpl andb in E. cbv iota in E.
    apply mergeSplits_join in E. rewrite !join_empty in E. rewrite E.
    replace (match includeDelim rule with prev => prev | next => next | none => none end)
      with (includeDelim rule) by (now destruct (includeDelim rule)).
    apply Htile. exact Ha.
  - (* token level *)
    apply bind_ok in Es as (windows & Ew & Es). inv Es.
    destruct (token_windows_spec (encode (tokenizer self) input) (chunkSize self)
                chunkSize_pos (length (encode (tokenizer self) input)) 0 [])
      as (ws & Ew' & _ & Hcat); [lia|unfold len; lia|].
    rewrite Ew' in Ew. injection Ew as Hwin. simpl app in Hwin. subst windows.
    simpl skipn in Hcat. specialize (Hk input ws Ha Hcat).
    destruct (is_empty_opt (delimiters rule)); simpl andb in E; cbv iota in E.
    + now inv E.
    + apply mergeSplits_join in E. rewrite !join_empty in E. now rewrite E.
Qed.

Lemma process_merged_tiles (recurse : jsstring -> Z -> result (list Chunk)) :
  (forall split offset r,
      ascii split ->
      recurse split offset = Ok r -> tiles offset r /\ concat (map text r) = split) ->
  forall merged counts i offset chunks r,
    Forall ascii merged ->
    process_merged recurse self merged counts i offset chunks = Ok r ->
    exists sub,
      r = chunks ++ sub /\ tiles offset sub /\ concat (map text sub) = concat merged.
Proof.
  intros Hrec. induction merged as [|split rest IH]; intros counts i offset chunks r Ha E.
  - simpl in E. inv E. exists []. rewrite app_nil_r. repeat split.
  - simpl in E. apply bind_ok in E as (sub & Esub & E).
    inversion Ha as [|x l Hsplit Hrest]; subst.
    assert (tiles offset sub /\ concat (map text sub) = split) as (Hts & Hcs).
    { destruct (num_at counts i >? chunkSize self); [exact (Hrec _ _ _ Hsplit Esub)|].
      inv Esub. simpl. rewrite app_nil_r. repeat split. }
    destruct (IH _ _ _ _ _ Hrest E) as (sub' & -> & Ht' & Hc').
    exists (sub ++ sub'). rewrite <- app_assoc. split; [reflexivity|]. split.
    + apply tiles_app; [exact Hts|]. now rewrite Hcs.
    + rewrite map_app, concat_app, Hcs, Hc'. reflexivity.
Qed.

Hypothesis levels_keep : forall rule, In rule (rules self) -> keeps_text w self rule.

Lemma recursiveChunk_tiles :
  forall (fuel : nat) (input : jsstring) (level startOffset : Z) (chunks : list Chunk),
    ascii input ->
    recursiveChunk fuel w self input level startOffset = Ok chunks ->
    tiles startOffset chunks /\ concat (map text chunks) = input.
Proof.
  induction fuel as [|fuel IH]; intros input level off chunks Ha E; [discriminate|].
  simpl in E. destruct (is_empty input) eqn:Hemp.
  { inv E. apply is_empty_true in Hemp. subst. split; reflexivity. }
  destruct (level >=? len (rules self)).
  { inv E. simpl. rewrite app_nil_r. repeat split. }
  destruct (getLevel (rules self) level) as [rule|] eqn:Hrule; [|discriminate].
  apply bind_ok in E as ([merged counts] & Em & E).
  assert (In rule (rules self)) as Hin.
  { unfold getLevel, at_index in Hrule. destruct (level <? 0); [discriminate|].
    eapply nth_error_In. exact Hrule. }
  apply (split_and_merge_exact _ _ _ _ (levels_keep rule Hin) Ha) in Em.
  assert (Forall ascii merged) as Hpieces by (apply ascii_pieces; now rewrite Em).
  destruct (process_merged_tiles _ (fun split offset r Hs => IH split (level + 1) offset r Hs)
              _ _ _ _ _ _ Hpieces E) as (sub & -> & Ht & Hc).
  simpl app. split; [exact Ht|]. now rewrite Hc.
Qed.

End RecursiveTiling.

(** Under the character tokenizer the token windows decode to the text. *)
Lemma character_windows_exact (self : RecursiveChunker.t) (rule : RecursiveChunker.RecursiveLevel) :
  RecursiveChunker.tokenizer self = characterTokenizer ->
  RecursiveChunker.whitespace rule = false ->
  RecursiveChunker.truthy_delimiters (RecursiveChunker.delimiters rule) = false ->
  forall w, keeps_text w self rule.
Proof.
  intros Htk Hw Hd w. unfold keeps_text. rewrite Hd, Htk. split; [exact Hw|]. simpl.
  intros input windows _ Hcat. rewrite <- concat_map, Hcat, map_map.
  rewrite <- (map_id input) at 2. apply map_ext. intros a. apply N2Z.id.
Qed.

Lemma offsets_from_slices (sep : jsstring) (pieces : list jsstring) :
  forall before,
    map (fun '(s, e) => slice (before ++ Array_join pieces sep) s e)
        (offsets_from (len before) (len sep) pieces)
    = pieces.
Proof.
  induction pieces as [|x rest IH]; intros before; [reflexivity|].
  cbn [offsets_from map]. f_equal.
  - destruct rest as [|y rest].
    + cbn [Array_join]. rewrite <- (app_nil_r x) at 1. apply slice_app_middle.
    + rewrite join_cons. apply slice_app_middle.
  - destruct rest as [|y rest]; [reflexivity|].
    specialize (IH (before ++ x ++ sep)). rewrite join_cons.
    rewrite !len_app, Z.add_assoc in IH. rewrite <- IH at 2.
    rewrite <- !app_assoc. reflexivity.
Qed.

(** The example module keeps the contracts: its segments lie end to end
    over the text, and its groups follow one another, none empty. *)
Lemma cut_after_concat (delims t : jsstring) : concat (cut_after delims t) = t.
Proof.
  induction t as [|c t IH]; [reflexivity|].
  simpl. destruct (existsb (N.eqb c) delims).
  - simpl. now rewrite IH.
  - now rewrite concat_push_front, IH.
Qed.

Lemma greedy_module_tiles (input delims : jsstring) (minChars : Z) :
  concat (map (fun '(s, e) => slice input s e)
              (Wasm.split_offsets greedy_module input
                 (Wasm.mkSplitOptions delims prev minChars)))
  = input.
Proof.
  cbn [greedy_module Wasm.split_offsets Wasm.so_includeDelim Wasm.so_delimiters].
  pose proof (offsets_from_slices [] (cut_after delims input) []) as H.
  rewrite join_empty, cut_after_concat in H. simpl app in H.
  change (len (@nil code_unit)) with 0 in H.
  rewrite H. apply cut_after_concat.
Qed.

Lemma greedy_groups_partition (chunkSize joint : Z) (counts : list Z) :
  forall i sum p,
    p < i ->
    partitions p (i + len counts) (map fst (greedy_groups chunkSize joint counts i sum)).
Proof.
  induction counts as [|k rest IH]; intros i sum p Hp.
  - cbn [greedy_groups map fst partitions]. change (len (@nil Z)) with 0. lia.
  - simpl greedy_groups. rewrite len_cons. pose proof (len_nonneg rest).
    destruct (sum + k + joint <? chunkSize).
    + replace (i + (1 + len rest)) with (i + 1 + len rest) by lia. apply IH. lia.
    + cbn [map fst partitions]. split; [lia|].
      replace (i + (1 + len rest)) with (i + 1 + len rest) by lia. apply IH. lia.
Qed.

Lemma greedy_module_merges : merges_in_order greedy_module.
Proof.
  intros counts cs b Hne. destruct counts as [|k rest]; [congruence|].
  cbn [greedy_module Wasm.merge_splits Wasm.indices]. rewrite len_cons.
  apply greedy_groups_partition. lia.
Qed.

(** X14.  The recursive pipeline keeps the text.  For rules without a
    whitespace level and an input within ASCII, when the collaborators
    keep their contracts (the end indices of [merge_splits] cut the
    segments into non-empty consecutive groups; at a delimiter level the
    delimiters stay attached and the segments of [split_offsets] lie end
    to end over the text; at a token level the decoded windows of an
    encoding make up the text), the chunks returned by
    [RecursiveChunker.chunk] lie end to end from offset 0, their texts
    concatenated are the input, and each chunk's text is the code units
    of the input between its [startIndex] and its [endIndex]. *)
Theorem recursive_chunks_tile_text (w : ChunkModule) (self : RecursiveChunker.t)
    (input : jsstring) :
  0 < RecursiveChunker.chunkSize self -> merges_in_order w ->
  (forall rule, In rule (RecursiveChunker.rules self) -> keeps_text w self rule) ->
  ascii input ->
  exists chunks,
    RecursiveChunker.chunk w self input = Ok chunks
    /\ tiles 0 chunks
    /\ concat (map text chunks) = input
    /\ forall c, In c chunks -> slice input (startIndex c) (endIndex c) = text c.
Proof.
  intros Hcs Hm Hk Ha.
  destruct (recursiveChunk_returns w self Hcs (S (length (RecursiveChunker.rules self)))
              input 0 0 ltac:(lia) ltac:(unfold len; lia)) as (chunks & E).
  exists chunks. split; [exact E|].
  destruct (recursiveChunk_tiles w self Hcs Hm Hk _ _ _ _ _ Ha E) as (Ht & Hc).
  split; [exact Ht|]. split; [exact Hc|].
  intros c Hin. destruct (tiles_locate 0 chunks c Ht Hin) as (before & after & Hcat & Hs & He).
  rewrite <- Hc, Hcat, He, Hs. apply slice_app_middle.
Qed.

Lemma recursive_chunks_tile_text_witness :
  exists chunks,
    RecursiveChunker.chunk greedy_module chunker_stops (js "a.b.cdefghijkl.m") = Ok chunks
    /\ tiles 0 chunks
    /\ concat (map text chunks) = js "a.b.cdefghijkl.m"
    /\ forall c, In c chunks ->
                 slice (js "a.b.cdefghijkl.m") (startIndex c) (endIndex c) = text c.
Proof.
  apply (recursive_chunks_tile_text greedy_module chunker_stops (js "a.b.cdefghijkl.m")).
  - reflexivity.
  - exact greedy_module_merges.
  - intros rule [<-|[<-|[]]].
    + split; [reflexivity|]. split; [discriminate|].
      intros input delims minChars _. apply greedy_module_tiles.
    + now apply character_windows_exact.
  - unfold ascii. repeat constructor.
Defined.

(* ================================================================== *)
(** * The factories of SentenceChunker *)

Lemma jsstring_eqb_eq (a b : jsstring) : jsstring_eqb a b = true -> a = b.
Proof. unfold jsstring_eqb. destruct (list_eq_dec N.eq_dec a b); congruence. Qed.

(** X15.  A recipe cannot make the chunker drop the delimiters.  [fromRecipe]
    turns a missing, [null] or empty [include_delim] into ['prev'], so the
    chunker it returns, whatever the recipe and the options, attaches
    every delimiter to a sentence: the sentences it prepares from a text
    free of the sentinel, glued together, are the text.  The chunker holds
    the recipe's delimiters, or the default ones when the recipe has none. *)
Theorem fromRecipe_keeps_delimiters
    (Tokenizer_create : jsstring -> result Tokenizer) (hubbie : Hubbie)
    (options : SentenceChunkerFactory.SentenceChunkerRecipeOptions)
    (self : SentenceChunker.t) (ws : list warning) :
  SentenceChunkerFactory.fromRecipe Tokenizer_create hubbie options = Ok (self, ws) ->
  SentenceChunker.valid self
  /\ (SentenceChunker.includeDelim self = Some (js "prev")
      \/ SentenceChunker.includeDelim self = Some (js "next"))
  /\ (exists recipe0,
         getRecipe hubbie
           (SentenceChunkerFactory.default (SentenceChunkerFactory.name options) (js "default"))
           (SentenceChunkerFactory.default (SentenceChunkerFactory.language options) (js "en"))
           (SentenceChunkerFactory.filePath options) = Ok recipe0
         /\ SentenceChunker.delim self
            = match recipe recipe0 with
              | Some body => SentenceChunkerFactory.default (delimiters body)
                               SentenceChunkerFactory.default_delim
              | None => SentenceChunkerFactory.default_delim
              end)
  /\ (forall text,
         ~ In 9988%N text ->
         concat (map s_text (SentenceChunker._prepareSentences self text)) = text).
Proof.
  intros E. unfold SentenceChunkerFactory.fromRecipe in E.
  apply bind_ok in E as (recipe0 & Er & E).
  set (inc := SentenceChunkerFactory.or_string _ (js "prev")) in E.
  destruct (negb (jsstring_eqb inc (js "prev")) && negb (jsstring_eqb inc (js "next")))
    eqn:Hinc; [discriminate|].
  unfold SentenceChunkerFactory.create in E. simpl in E.
  apply bind_ok in E as (tk & _ & E).
  pose proof (new_valid _ _ _ _ _ _ _ _ _ _ E) as Hv.
  assert (SentenceChunker.includeDelim self = Some inc
          /\ SentenceChunker.delim self
             = match recipe recipe0 with
               | Some body => SentenceChunkerFactory.default (delimiters body)
                                SentenceChunkerFactory.default_delim
               | None => SentenceChunkerFactory.default_delim
               end) as (Hi & Hd).
  { unfold SentenceChunker.new in E.
    repeat match type of E with
           | (if ?b then Throw _ else _) = Ok _ => destruct b; [discriminate|]
           end.
    inv E. split; reflexivity. }
  assert (SentenceChunker.includeDelim self = Some (js "prev")
          \/ SentenceChunker.includeDelim self = Some (js "next")) as Hkept.
  { rewrite Hi. apply andb_false_iff in Hinc as [H|H]; apply negb_false_iff in H;
      apply jsstring_eqb_eq in H; rewrite H; auto. }
  split; [exact Hv|]. split; [exact Hkept|]. split; [exists recipe0; auto|].
  intros text Hsent. exact (sentences_rebuild self Hv Hkept text Hsent).
Qed.

Lemma fromRecipe_keeps_delimiters_witness :
  exists self ws,
    SentenceChunkerFactory.fromRecipe (fun _ => Ok characterTokenizer) hub_null_policy
      (SentenceChunkerFactory.mkRecipeOptions None None None None (Some 7) None None None None)
    = Ok (self, ws)
    /\ SentenceChunker.valid self
    /\ (SentenceChunker.includeDelim self = Some (js "prev")
        \/ SentenceChunker.includeDelim self = Some (js "next"))
    /\ SentenceChunker.delim self = [js ". "; js "? "]
    /\ concat (map s_text (SentenceChunker._prepareSentences self text_3452)) = text_3452.
Proof.
  eexists; eexists. split; [reflexivity|].
  destruct (fromRecipe_keeps_delimiters (fun _ => Ok characterTokenizer) hub_null_policy
              (SentenceChunkerFactory.mkRecipeOptions None None None None (Some 7)
                 None None None None) _ _ eq_refl)
    as (Hv & Hk & (recipe0 & Er & Hd) & Hre).
  split; [exact Hv|]. split; [exact Hk|]. split.
  - simpl in Er. inv Er. exact Hd.
  - apply Hre. vm_compute. intros H. repeat (destruct H as [H|H]; [discriminate|]). exact H.
Defined.

(* ================================================================== *)
(** * RecursiveChunker: the token windows are full *)

(** The windows the loop pushes from the cursor [i] on: the [k]-th one
    is the slice of the encoding at [i + k * chunkSize], which starts
    inside the encoding. *)
Lemma token_windows_closed (encoded : list Z) (chunkSize : Z) :
  0 < chunkSize ->
  forall (fuel : nat) (i : Z) (tokenSplits : list (list Z)),
    0 <= i -> (Z.to_nat (len encoded - i) <= fuel)%nat ->
    exists windows,
      RecursiveChunker.token_windows fuel encoded chunkSize i tokenSplits
      = Ok (tokenSplits ++ windows)
      /\ len windows = Z.max 0 ((len encoded - i + chunkSize - 1) / chunkSize)
      /\ forall k win,
          at_index windows k = Some win ->
          i + k * chunkSize < len encoded
          /\ win = slice encoded (i + k * chunkSize) (i + k * chunkSize + chunkSize).
Proof.
  intros Hcs. induction fuel as [|fuel IH]; intros i acc Hi Hfuel.
  - simpl. destruct (Z.ltb_spec i (len encoded)); [lia|].
    exists []. rewrite app_nil_r. split; [reflexivity|]. split.
    + rewrite len_nil.
      pose proof (Z.div_lt_upper_bound (len encoded - i + chunkSize - 1) chunkSize 1 Hcs).
      lia.
    + intros k win Hk. apply at_index_range in Hk. unfold len in Hk. simpl in Hk. lia.
  - simpl. destruct (Z.ltb_spec i (len encoded)) as [Hlt|Hge].
    2:{ exists []. rewrite app_nil_r. split; [reflexivity|]. split.
        + rewrite len_nil.
          pose proof (Z.div_lt_upper_bound (len encoded - i + chunkSize - 1) chunkSize 1 Hcs).
          lia.
        + intros k win Hk. apply at_index_range in Hk. unfold len in Hk. simpl in Hk. lia. }
    destruct (IH (i + chunkSize) (acc ++ [slice encoded i (i + chunkSize)]))
      as (ws & E & Hlen & Hat); try lia.
    exists (slice encoded i (i + chunkSize) :: ws).
    rewrite E, <- app_assoc. split; [reflexivity|]. split.
    + rewrite len_cons, Hlen.
      replace (len encoded - i + chunkSize - 1)
        with (len encoded - (i + chunkSize) + chunkSize - 1 + 1 * chunkSize) by lia.
      rewrite Z.div_add by lia.
      assert (0 <= (len encoded - (i + chunkSize) + chunkSize - 1) / chunkSize)
        by (apply Z.div_pos; lia).
      lia.
    + intros k win Hk. pose proof (at_index_range _ _ _ Hk) as Hr.
      destruct (Z.eq_dec k 0) as [->|Hk0].
      * unfold at_index in Hk. simpl in Hk. inv Hk.
        rewrite Z.mul_0_l, Z.add_0_r. split; [lia|reflexivity].
      * rewrite at_index_cons in Hk by lia.
        destruct (Hat _ _ Hk) as (Hin & ->).
        replace (i + chunkSize + (k - 1) * chunkSize) with (i + k * chunkSize) in * by lia.
        split; [exact Hin|reflexivity].
Qed.

(** X16.  The token windows are full.  At a level without whitespace flag and
    without delimiters, [splitText] decodes the windows of the encoding:
    there are [ceil(n / chunkSize)] of them for an encoding of [n] tokens,
    together they are the encoding, every one but the last holds exactly
    [chunkSize] tokens and the last at least one. *)
Theorem token_windows_are_full (w : ChunkModule) (self : RecursiveChunker.t)
    (input : jsstring) (level : RecursiveChunker.RecursiveLevel) :
  0 < RecursiveChunker.chunkSize self ->
  RecursiveChunker.whitespace level = false ->
  RecursiveChunker.truthy_delimiters (RecursiveChunker.delimiters level) = false ->
  exists windows,
    RecursiveChunker.splitText w self input level
    = Ok (decodeBatch (RecursiveChunker.tokenizer self) windows)
    /\ concat windows = encode (RecursiveChunker.tokenizer self) input
    /\ len windows
       = (len (encode (RecursiveChunker.tokenizer self) input)
          + RecursiveChunker.chunkSize self - 1) / RecursiveChunker.chunkSize self
    /\ forall k win,
        at_index windows k = Some win ->
        0 < len win <= RecursiveChunker.chunkSize self
        /\ (k + 1 < len windows -> len win = RecursiveChunker.chunkSize self).
Proof.
  intros Hcs Hw Hd. unfold RecursiveChunker.splitText. rewrite Hw, Hd.
  set (encoded := encode (RecursiveChunker.tokenizer self) input).
  set (cs := RecursiveChunker.chunkSize self) in *.
  destruct (token_windows_closed encoded cs Hcs (length encoded) 0 [])
    as (windows & E & Hlen & Hat); [lia|unfold len; lia|].
  destruct (token_windows_spec encoded cs Hcs (length encoded) 0 [])
    as (windows' & E' & Hfit & Hcat); [lia|unfold len; lia|].
  rewrite E in E'. injection E' as <-. rewrite E. simpl app. simpl bind.
  exists windows. split; [reflexivity|]. split; [exact Hcat|].
  assert (0 <= (len encoded + cs - 1) / cs) as Hq
    by (apply Z.div_pos; pose proof (len_nonneg encoded); lia).
  rewrite Z.sub_0_r in Hlen. split; [lia|].
  intros k win Hk. pose proof (at_index_range _ _ _ Hk) as Hr.
  destruct (Hat _ _ Hk) as (Hin & Hwin). simpl in Hin, Hwin.
  assert (0 <= k * cs) as Hkc by nia.
  rewrite Hwin, (slice_clamped encoded (k * cs) (k * cs + cs)) by lia.
  split.
  - unfold len in *. rewrite length_firstn, length_skipn. lia.
  - intros Hnext. destruct (at_index_some windows (k + 1) ltac:(lia)) as (win' & Hk').
    destruct (Hat _ _ Hk') as (Hin' & _). simpl in Hin'.
    replace ((k + 1) * cs) with (k * cs + cs) in Hin' by ring.
    unfold len in *. rewrite length_firstn, length_skipn. lia.
Qed.

Lemma token_windows_are_full_witness :
  exists windows,
    RecursiveChunker.splitText idle_module chunker_words (js "abcdefghij")
      RecursiveChunker.token_level
    = Ok (decodeBatch characterTokenizer windows)
    /\ concat windows = encode characterTokenizer (js "abcdefghij")
    /\ len windows = (len (encode characterTokenizer (js "abcdefghij")) + 4 - 1) / 4
    /\ forall k win,
        at_index windows k = Some win ->
        0 < len win <= 4 /\ (k + 1 < len windows -> len win = 4).
Proof.
  apply (token_windows_are_full idle_module chunker_words (js "abcdefghij")
           RecursiveChunker.token_level); reflexivity.
Defined.
